(** * Sentry JavaScript SDK: global handlers, instrumentation and event pipeline

  A shallow embedding of the TypeScript sources
  - [packages/browser/src/integrations/globalhandlers.ts]
  - [packages/utils/src/instrument/globalError.ts]
  - the replay XHR breadcrumb capture and the SvelteKit server error wrapper
  together with the pipeline components that the specification describes
  (breadcrumb buffer, dedupe, sampling, rate limiter). *)

From Stdlib Require Import ZArith QArith Lia Ascii String.
From stdpp Require Import base option list gmap strings pretty.

Local Close Scope Q_scope.
Local Open Scope string_scope.
Local Open Scope list_scope.
Local Open Scope Z_scope.

(* ===================================================================== *)
(** * A small JavaScript store: primitives, references, objects, arrays  *)
(* ===================================================================== *)

Module JS.

(** Locations of heap objects.  The heap is a growing list of cells, a
    fresh object is appended at the end; cells are never freed. *)
Abbreviation loc := nat (only parsing).

(** IEEE numbers, as far as the code looks at them: [line] and [column]
    are integer-valued.  [Fin z] is the finite integer [z]; the integers
    that JavaScript holds exactly and prints in full are the safe ones,
    [safe_integer] below. *)
Inductive number : Type :=
| NaN
| Infinity (negative : bool)
| Fin (z : Z).

Inductive prim : Type :=
| PUndefined
| PNull
| PBool (b : bool)
| PNumber (n : number)
| PString (s : string).

Inductive value : Type :=
| VPrim (p : prim)
| VRef (l : loc).

Coercion VPrim : prim >-> value.

(** A plain object is a finite map of own properties (a property may be
    present with value [undefined]); an array is a list of elements. *)
Inductive object : Type :=
| Obj (props : gmap string value)
| Arr (elems : list value).

Abbreviation heap := (list object) (only parsing).

Global Instance number_eq_dec : EqDecision number.
Proof. solve_decision. Defined.
Global Instance prim_eq_dec : EqDecision prim.
Proof. solve_decision. Defined.
Global Instance value_eq_dec : EqDecision value.
Proof. solve_decision. Defined.
Global Instance object_eq_dec : EqDecision object.
Proof. solve_decision. Defined.

(** [ToBoolean] *)
Definition truthy (v : value) : bool :=
  match v with
  | VRef _ => true
  | VPrim PUndefined | VPrim PNull => false
  | VPrim (PBool b) => b
  | VPrim (PNumber NaN) => false
  | VPrim (PNumber (Infinity _)) => true
  | VPrim (PNumber (Fin z)) => negb (Z.eqb z 0)
  | VPrim (PString s) => negb (String.eqb s "")
  end.

(** [new] object: append a cell, return its reference. *)
Definition alloc (h : heap) (o : object) : heap * value :=
  (h ++ [o], VRef (length h)).

(** [o.k] for a reference to a plain object.  [None]: a [TypeError], or an
    access the [Event] type rules out (dangling reference, named property
    of an array or of a primitive). *)
Definition get_prop (h : heap) (o : value) (k : string) : option value :=
  match o with
  | VRef l =>
      match h !! l with
      | Some (Obj m) => Some (default (VPrim PUndefined) (m !! k))
      | _ => None
      end
  | VPrim _ => None
  end.

(** [o.k = v] *)
Definition set_prop (h : heap) (o : value) (k : string) (v : value) : option heap :=
  match o with
  | VRef l =>
      match h !! l with
      | Some (Obj m) => Some (<[l := Obj (<[k := v]> m)]> h)
      | _ => None
      end
  | VPrim _ => None
  end.

(** [a[i]] for a reference to an array; out of range reads [undefined]. *)
Definition get_index (h : heap) (a : value) (i : nat) : option value :=
  match a with
  | VRef l =>
      match h !! l with
      | Some (Arr xs) => Some (default (VPrim PUndefined) (xs !! i))
      | _ => None
      end
  | VPrim _ => None
  end.

(** [a[i] = v]; writing past the end extends the array, the holes read
    [undefined]. *)
Definition arr_store (xs : list value) (i : nat) (v : value) : list value :=
  if decide (i < length xs)%nat then <[i := v]> xs
  else xs ++ replicate (i - length xs) (VPrim PUndefined) ++ [v].

Definition set_index (h : heap) (a : value) (i : nat) (v : value) : option heap :=
  match a with
  | VRef l =>
      match h !! l with
      | Some (Arr xs) => Some (<[l := Arr (arr_store xs i v)]> h)
      | _ => None
      end
  | VPrim _ => None
  end.

(** [a.length] *)
Definition arr_length (h : heap) (a : value) : option nat :=
  match a with
  | VRef l =>
      match h !! l with
      | Some (Arr xs) => Some (length xs)
      | _ => None
      end
  | VPrim _ => None
  end.

(** [a.push(v)] *)
Definition arr_push (h : heap) (a : value) (v : value) : option heap :=
  match a with
  | VRef l =>
      match h !! l with
      | Some (Arr xs) => Some (<[l := Arr (xs ++ [v])]> h)
      | _ => None
      end
  | VPrim _ => None
  end.



(** Strings are kept as the bytes of their UTF-8 encoding: a character of
    ASCII is one byte, and no byte of another character is below 128. *)

(** [ToString] on primitives.  A safe integer is printed with all its
    digits; from [1e21] on JavaScript prints an exponent, which is not
    modelled. *)
Definition ToString (p : prim) : string :=
  match p with
  | PUndefined => "undefined"
  | PNull => "null"
  | PBool true => "true"
  | PBool false => "false"
  | PNumber NaN => "NaN"
  | PNumber (Infinity false) => "Infinity"
  | PNumber (Infinity true) => "-Infinity"
  | PNumber (Fin z) => pretty z
  | PString s => s
  end.

(** The text with the given bytes. *)
Definition utf8 (bytes : list Z) : string :=
  foldr (λ b s, String (Ascii.ascii_of_N (Z.to_N b)) s) EmptyString bytes.

(** [WhiteSpace] and [LineTerminator] of one byte: TAB, LF, VT, FF, CR
    and the space. *)
Definition is_space (c : Ascii.ascii) : bool :=
  let n := Ascii.nat_of_ascii c in
  ((9 <=? n) && (n <=? 13))%nat || (n =? 32)%nat.

(** Of two bytes: U+00A0, the no-break space. *)
Definition is_space2 (a b : Ascii.ascii) : bool :=
  ((Ascii.nat_of_ascii a =? 194) && (Ascii.nat_of_ascii b =? 160))%nat.

(** Of three bytes: U+1680, U+2000 to U+200A, the line and paragraph
    separators U+2028 and U+2029, U+202F, U+205F, U+3000 and U+FEFF. *)
Definition is_space3 (a b c : Ascii.ascii) : bool :=
  let x := Ascii.nat_of_ascii a in
  let y := Ascii.nat_of_ascii b in
  let z := Ascii.nat_of_ascii c in
  ((x =? 225) && ((y =? 154) && (z =? 128))
   || (x =? 226) && ((y =? 128) && ((128 <=? z) && (z <=? 138) || (z =? 168)
                                    || (z =? 169) || (z =? 175))
                     || (y =? 129) && (z =? 159))
   || (x =? 227) && ((y =? 128) && (z =? 128))
   || (x =? 239) && ((y =? 187) && (z =? 191)))%nat.

Definition digit_of (c : Ascii.ascii) : option Z :=
  let n := Z.of_nat (Ascii.nat_of_ascii c) in
  if (48 <=? n) && (n <=? 57) then Some (n - 48) else None.

(** The text after its leading white space and line terminators, as
    [parseInt] skips them. *)
Fixpoint trim_start (s : string) : string :=
  match s with
  | String a r =>
      if is_space a then trim_start r
      else
        match r with
        | String b r1 =>
            if is_space2 a b then trim_start r1
            else
              match r1 with
              | String c r2 => if is_space3 a b c then trim_start r2 else s
              | EmptyString => s
              end
        | EmptyString => s
        end
  | EmptyString => s
  end.

(** The longest prefix of decimal digits, read as a number; [None] when
    the string does not start with a digit. *)
Fixpoint digits_go (acc : option Z) (s : string) : option Z :=
  match s with
  | String c r =>
      match digit_of c with
      | Some d => digits_go (Some (10 * default 0 acc + d)) r
      | None => acc
      end
  | EmptyString => acc
  end.

(** [parseInt(p, 10)] *)
Definition parseInt (p : prim) : number :=
  let s := trim_start (ToString p) in
  let '(neg, s) :=
    match s with
    | String "-"%char r => (true, r)
    | String "+"%char r => (false, r)
    | _ => (false, s)
    end in
  match digits_go None s with
  | Some n => Fin (if neg : bool then - n else n)
  | None => NaN
  end.

Definition isNaN (n : number) : bool :=
  match n with NaN => true | _ => false end.

End JS.

(* ===================================================================== *)
(** * [globalhandlers.ts]: building the event of an [onerror] call        *)
(* ===================================================================== *)

Module GlobalHandlersEvent.
Import JS.

(** The statement pattern [const x = (o.k = o.k || init)] of
    [_enhanceEventWithInitialFrame]: read [o.k], take a new [init] if it
    is falsy, store the result back in [o.k] and name it. *)
Definition or_init (h : heap) (o : value) (k : string) (init : object)
  : option (heap * value) :=
  v ← get_prop h o k;
  let '(h1, x) := if truthy v then (h, v) else alloc h init in
  h2 ← set_prop h1 o k x;
  Some (h2, x).

(** The same for [const x = (a[i] = a[i] || init)]. *)
Definition or_init_index (h : heap) (a : value) (i : nat) (init : object)
  : option (heap * value) :=
  v ← get_index h a i;
  let '(h1, x) := if truthy v then (h, v) else alloc h init in
  h2 ← set_index h1 a i x;
  Some (h2, x).

(** [isString(url) && url.length > 0 ? url : getLocationHref()], where
    [href] is what [getLocationHref()] reads from the environment. *)
Definition filename_of (href : string) (url : prim) : string :=
  match url with
  | PString s => if (0 <? String.length s)%nat then s else href
  | _ => href
  end.

(** [isNaN(parseInt(x, 10)) ? undefined : x] *)
Definition number_or_undefined (x : prim) : prim :=
  if isNaN (parseInt x) then PUndefined else x.

(** The frame literal pushed on an empty [frames] array. *)
Definition initial_frame (colno : prim) (filename : string) (lineno : prim) : object :=
  Obj (<["colno" := VPrim colno]>
       (<["filename" := VPrim (PString filename)]>
       (<["function" := VPrim (PString "?")]>
       (<["in_app" := VPrim (PBool true)]>
       (<["lineno" := VPrim lineno]> ∅))))).

(** [_enhanceEventWithInitialFrame(event, url, line, column)].  [event] is
    a reference into the store [h]; [url], [line] and [column] are the
    primitives of a [HandlerDataError] ([string], [number] or [undefined]).
    The result is the store after the call and the reference returned;
    [None] stands for a path through the event that its type rules out. *)
Definition _enhanceEventWithInitialFrame
    (href : string) (h : heap) (event : loc) (url line column : prim)
  : option (heap * loc) :=
  '(h, e) ← or_init h (VRef event) "exception" (Obj ∅);
  '(h, ev) ← or_init h e "values" (Arr []);
  '(h, ev0) ← or_init_index h ev 0 (Obj ∅);
  '(h, ev0s) ← or_init h ev0 "stacktrace" (Obj ∅);
  '(h, ev0sf) ← or_init h ev0s "frames" (Arr []);
  let colno := number_or_undefined column in
  let lineno := number_or_undefined line in
  let filename := filename_of href url in
  len ← arr_length h ev0sf;
  h ← (if (len =? 0)%nat
       then let '(h, f) := alloc h (initial_frame colno filename lineno) in
            arr_push h ev0sf f
       else Some h);
  Some (h, event).

End GlobalHandlersEvent.

(* ===================================================================== *)
(** * Properties of [_enhanceEventWithInitialFrame]                       *)
(* ===================================================================== *)

Module GlobalHandlersEventFacts.
Import JS GlobalHandlersEvent.

(** ** Reading the store *)

Definition obj_at (h : heap) (v : value) : option (gmap string value) :=
  match v with
  | VRef l => match h !! l with Some (Obj m) => Some m | _ => None end
  | VPrim _ => None
  end.

Definition arr_at (h : heap) (v : value) : option (list value) :=
  match v with
  | VRef l => match h !! l with Some (Arr xs) => Some xs | _ => None end
  | VPrim _ => None
  end.

Definition field (m : gmap string value) (k : string) : value :=
  default (VPrim PUndefined) (m !! k).

Definition elem (xs : list value) (i : nat) : value :=
  default (VPrim PUndefined) (xs !! i).

(** ** The shape the [Event] type gives to the walked path

    Each link of [event.exception.values[0].stacktrace.frames] is either
    missing (falsy) or a reference to a cell of the right kind. *)

Definition link_ok (v : value) (P : value → bool) : bool :=
  if truthy v then P v else true.

Definition stacktrace_shape (h : heap) (ev0s : value) : bool :=
  match obj_at h ev0s with
  | Some ms => link_ok (field ms "frames") (λ f, bool_decide (is_Some (arr_at h f)))
  | None => false
  end.

Definition exception_shape (h : heap) (ev0 : value) : bool :=
  match obj_at h ev0 with
  | Some m0 => link_ok (field m0 "stacktrace") (stacktrace_shape h)
  | None => false
  end.

Definition values_shape (h : heap) (ev : value) : bool :=
  match arr_at h ev with
  | Some xs => link_ok (elem xs 0) (exception_shape h)
  | None => false
  end.

Definition exception_bag_shape (h : heap) (e : value) : bool :=
  match obj_at h e with
  | Some me => link_ok (field me "values") (values_shape h)
  | None => false
  end.

Definition event_shape (h : heap) (event : loc) : bool :=
  match obj_at h (VRef event) with
  | Some m => link_ok (field m "exception") (exception_bag_shape h)
  | None => false
  end.

(** ** Events that already carry a stack frame *)

Definition link_full (v : value) (P : value → bool) : bool :=
  truthy v && P v.

Definition stacktrace_full (h : heap) (ev0s : value) : bool :=
  match obj_at h ev0s with
  | Some ms =>
      link_full (field ms "frames")
        (λ f, match arr_at h f with Some (_ :: _) => true | _ => false end)
  | None => false
  end.

Definition exception_full (h : heap) (ev0 : value) : bool :=
  match obj_at h ev0 with
  | Some m0 => link_full (field m0 "stacktrace") (stacktrace_full h)
  | None => false
  end.

Definition values_full (h : heap) (ev : value) : bool :=
  match arr_at h ev with
  | Some xs => link_full (elem xs 0) (exception_full h)
  | None => false
  end.

Definition exception_bag_full (h : heap) (e : value) : bool :=
  match obj_at h e with
  | Some me => link_full (field me "values") (values_full h)
  | None => false
  end.

(** [event.exception.values[0].stacktrace.frames] exists and is not empty. *)
Definition has_initial_frame (h : heap) (event : loc) : bool :=
  match obj_at h (VRef event) with
  | Some m => link_full (field m "exception") (exception_bag_full h)
  | None => false
  end.

(** ** The function, cut after each statement *)

Definition from_frames (href : string) (url line column : prim) (event : loc)
    (h : heap) (ev0sf : value) : option (heap * loc) :=
  let colno := number_or_undefined column in
  let lineno := number_or_undefined line in
  let filename := filename_of href url in
  len ← arr_length h ev0sf;
  h ← (if (len =? 0)%nat
       then let '(h, f) := alloc h (initial_frame colno filename lineno) in
            arr_push h ev0sf f
       else Some h);
  Some (h, event).

Definition from_stacktrace href url line column event (h : heap) (ev0s : value) :=
  '(h, ev0sf) ← or_init h ev0s "frames" (Arr []);
  from_frames href url line column event h ev0sf.

Definition from_exception href url line column event (h : heap) (ev0 : value) :=
  '(h, ev0s) ← or_init h ev0 "stacktrace" (Obj ∅);
  from_stacktrace href url line column event h ev0s.

Definition from_values href url line column event (h : heap) (ev : value) :=
  '(h, ev0) ← or_init_index h ev 0 (Obj ∅);
  from_exception href url line column event h ev0.

Definition from_exception_bag href url line column event (h : heap) (e : value) :=
  '(h, ev) ← or_init h e "values" (Arr []);
  from_values href url line column event h ev.

Lemma enhance_unfold href h event url line column :
  _enhanceEventWithInitialFrame href h event url line column =
  '(h, e) ← or_init h (VRef event) "exception" (Obj ∅);
  from_exception_bag href url line column event h e.
Proof.
  unfold _enhanceEventWithInitialFrame, from_exception_bag, from_values,
    from_exception, from_stacktrace, from_frames.
  destruct (or_init h (VRef event) "exception" (Obj ∅)) as [[h1 e]|]; simpl; [|done].
  destruct (or_init h1 e "values" (Arr [])) as [[h2 ev]|]; simpl; [|done].
  destruct (or_init_index h2 ev 0 (Obj ∅)) as [[h3 ev0]|]; simpl; [|done].
  destruct (or_init h3 ev0 "stacktrace" (Obj ∅)) as [[h4 ev0s]|]; simpl; [|done].
  destruct (or_init h4 ev0s "frames" (Arr [])) as [[h5 ev0sf]|]; simpl; done.
Qed.

(** ** Store lemmas *)

Lemma truthy_field_lookup (m : gmap string value) k :
  truthy (field m k) = true → m !! k = Some (field m k).
Proof. unfold field. destruct (m !! k); simpl; [done | discriminate]. Qed.

Lemma truthy_elem_lookup (xs : list value) i :
  truthy (elem xs i) = true → xs !! i = Some (elem xs i).
Proof. unfold elem. destruct (xs !! i); simpl; [done | discriminate]. Qed.

Lemma obj_at_inv h v m :
  obj_at h v = Some m → ∃ l, v = VRef l ∧ h !! l = Some (Obj m).
Proof.
  destruct v as [p|l]; simpl; [discriminate|].
  destruct (h !! l) as [[m'|xs]|] eqn:E; intros [= <-]. eauto.
Qed.

Lemma arr_at_inv h v xs :
  arr_at h v = Some xs → ∃ l, v = VRef l ∧ h !! l = Some (Arr xs).
Proof.
  destruct v as [p|l]; simpl; [discriminate|].
  destruct (h !! l) as [[m'|xs']|] eqn:E; intros [= <-]. eauto.
Qed.

Lemma lookup_fresh (h : list object) l c init :
  h !! l = Some c → ∀ c', (<[l := c']> (h ++ [init])) !! length h = Some init.
Proof.
  intros Hl c'. apply lookup_lt_Some in Hl.
  rewrite list_lookup_insert_ne by lia.
  rewrite lookup_app_r by lia. by rewrite Nat.sub_diag.
Qed.

(** What [const x = (o.k = o.k || init)] does to the store. *)
Lemma or_init_spec h o k init m :
  obj_at h o = Some m →
  (truthy (field m k) = true ∧ or_init h o k init = Some (h, field m k)) ∨
  (truthy (field m k) = false ∧
   ∃ h', or_init h o k init = Some (h', VRef (length h)) ∧
         length h' = S (length h) ∧ h' !! length h = Some init).
Proof.
  intros Ho. destruct (obj_at_inv _ _ _ Ho) as (l & -> & Hl).
  unfold or_init, get_prop. rewrite Hl. simpl. fold (field m k).
  destruct (truthy (field m k)) eqn:T; [left | right]; split; try done.
  - unfold set_prop. rewrite Hl. simpl.
    rewrite (insert_id m k (field m k)) by by apply truthy_field_lookup.
    by rewrite list_insert_id.
  - unfold alloc, set_prop.
    rewrite (lookup_app_l_Some _ _ _ _ Hl). simpl.
    eexists; split; [done|]. split.
    + rewrite length_insert, length_app. simpl. lia.
    + by eapply lookup_fresh.
Qed.

Lemma arr_store_id (xs : list value) i v : xs !! i = Some v → arr_store xs i v = xs.
Proof.
  intros H. unfold arr_store. pose proof (lookup_lt_Some _ _ _ H).
  rewrite decide_True by done. by apply list_insert_id.
Qed.

(** What [const x = (a[i] = a[i] || init)] does to the store. *)
Lemma or_init_index_spec h a i init xs :
  arr_at h a = Some xs →
  (truthy (elem xs i) = true ∧ or_init_index h a i init = Some (h, elem xs i)) ∨
  (truthy (elem xs i) = false ∧
   ∃ h', or_init_index h a i init = Some (h', VRef (length h)) ∧
         length h' = S (length h) ∧ h' !! length h = Some init).
Proof.
  intros Ha. destruct (arr_at_inv _ _ _ Ha) as (l & -> & Hl).
  unfold or_init_index, get_index. rewrite Hl. simpl. fold (elem xs i).
  destruct (truthy (elem xs i)) eqn:T; [left | right]; split; try done.
  - unfold set_index. rewrite Hl. simpl.
    rewrite arr_store_id by by apply truthy_elem_lookup.
    by rewrite list_insert_id.
  - unfold alloc, set_index.
    rewrite (lookup_app_l_Some _ _ _ _ Hl). simpl.
    eexists; split; [done|]. split.
    + rewrite length_insert, length_app. simpl. lia.
    + by eapply lookup_fresh.
Qed.

(** ** What a run does to the caller's store

    [outcome h full r event]: the run [r] returned the reference [event];
    the store is the one it started from when [full] holds, and has grown
    by at least one cell otherwise. *)

Definition outcome (h : heap) (full : bool) (r : option (heap * loc)) (event : loc) : Prop :=
  ∃ h', r = Some (h', event) ∧
        if full then h' = h else (length h < length h')%nat.

Lemma outcome_grow h h1 b r event :
  outcome h1 b r event → length h1 = S (length h) → outcome h false r event.
Proof.
  intros (h' & -> & Hb) Hlen. exists h'. split; [done|].
  destruct b; [subst h'|]; lia.
Qed.

Section Stages.
Variables (href : string) (url line column : prim) (event : loc).

Lemma from_frames_outcome h f xs :
  arr_at h f = Some xs →
  outcome h (match xs with _ :: _ => true | [] => false end)
    (from_frames href url line column event h f) event.
Proof.
  intros Hf. destruct (arr_at_inv _ _ _ Hf) as (l & -> & Hl).
  unfold from_frames, arr_length. rewrite Hl. simpl.
  destruct xs as [|x xs]; simpl.
  - unfold arr_push. rewrite (lookup_app_l_Some _ _ _ _ Hl). simpl.
    eexists; split; [done|]. rewrite length_insert, length_app. simpl. lia.
  - by eexists.
Qed.

Lemma from_stacktrace_outcome h ev0s :
  stacktrace_shape h ev0s = true →
  outcome h (stacktrace_full h ev0s)
    (from_stacktrace href url line column event h ev0s) event.
Proof.
  unfold stacktrace_shape, stacktrace_full, from_stacktrace, link_ok, link_full.
  destruct (obj_at h ev0s) as [ms|] eqn:Ho; [|discriminate].
  destruct (or_init_spec h ev0s "frames" (Arr []) ms Ho)
    as [[T ->] | [T (h' & -> & Hlen & Hnew)]]; rewrite T; simpl.
  - intros [xs Hxs]%bool_decide_eq_true. rewrite Hxs.
    by apply from_frames_outcome.
  - intros _. eapply outcome_grow; [|exact Hlen].
    apply (from_frames_outcome h' _ []). simpl. by rewrite Hnew.
Qed.

Lemma from_exception_outcome h ev0 :
  exception_shape h ev0 = true →
  outcome h (exception_full h ev0)
    (from_exception href url line column event h ev0) event.
Proof.
  unfold exception_shape, exception_full, from_exception, link_ok, link_full.
  destruct (obj_at h ev0) as [m0|] eqn:Ho; [|discriminate].
  destruct (or_init_spec h ev0 "stacktrace" (Obj ∅) m0 Ho)
    as [[T ->] | [T (h' & -> & Hlen & Hnew)]]; rewrite T; simpl.
  - apply from_stacktrace_outcome.
  - intros _. eapply outcome_grow; [|exact Hlen].
    apply from_stacktrace_outcome.
    unfold stacktrace_shape. simpl. by rewrite Hnew.
Qed.

Lemma from_values_outcome h ev :
  values_shape h ev = true →
  outcome h (values_full h ev)
    (from_values href url line column event h ev) event.
Proof.
  unfold values_shape, values_full, from_values, link_ok, link_full.
  destruct (arr_at h ev) as [xs|] eqn:Ha; [|discriminate].
  destruct (or_init_index_spec h ev 0 (Obj ∅) xs Ha)
    as [[T ->] | [T (h' & -> & Hlen & Hnew)]]; rewrite T; simpl.
  - apply from_exception_outcome.
  - intros _. eapply outcome_grow; [|exact Hlen].
    apply from_exception_outcome.
    unfold exception_shape. simpl. by rewrite Hnew.
Qed.

Lemma from_exception_bag_outcome h e :
  exception_bag_shape h e = true →
  outcome h (exception_bag_full h e)
    (from_exception_bag href url line column event h e) event.
Proof.
  unfold exception_bag_shape, exception_bag_full, from_exception_bag, link_ok, link_full.
  destruct (obj_at h e) as [me|] eqn:Ho; [|discriminate].
  destruct (or_init_spec h e "values" (Arr []) me Ho)
    as [[T ->] | [T (h' & -> & Hlen & Hnew)]]; rewrite T; simpl.
  - apply from_values_outcome.
  - intros _. eapply outcome_grow; [|exact Hlen].
    apply from_values_outcome.
    unfold values_shape. simpl. by rewrite Hnew.
Qed.

Lemma enhance_outcome h :
  event_shape h event = true →
  outcome h (has_initial_frame h event)
    (_enhanceEventWithInitialFrame href h event url line column) event.
Proof.
  rewrite enhance_unfold.
  unfold event_shape, has_initial_frame, link_ok, link_full.
  destruct (obj_at h (VRef event)) as [m|] eqn:Ho; [|discriminate].
  destruct (or_init_spec h (VRef event) "exception" (Obj ∅) m Ho)
    as [[T ->] | [T (h' & -> & Hlen & Hnew)]]; rewrite T; simpl.
  - apply from_exception_bag_outcome.
  - intros _. eapply outcome_grow; [|exact Hlen].
    apply from_exception_bag_outcome.
    unfold exception_bag_shape. simpl. by rewrite Hnew.
Qed.

End Stages.

Lemma filename_of_nonempty href s :
  s ≠ "" → filename_of href (PString s) = s.
Proof. destruct s; [done|]. reflexivity. Qed.

(** An event without any exception data, alone in the store. *)
Definition bare_event_store : heap := [Obj ∅].

(** An event whose first exception already has one stack frame. *)
Definition framed_event_store : heap :=
  [ Obj {[ "exception" := VRef 1%nat ]};
    Obj {[ "values" := VRef 2%nat ]};
    Arr [VRef 3%nat];
    Obj {[ "stacktrace" := VRef 4%nat ]};
    Obj {[ "frames" := VRef 5%nat ]};
    Arr [VRef 6%nat];
    Obj {[ "filename" := VPrim (PString "app.js") ]} ].

(** The caller's event object is the same after the call as before. *)
Definition leaves_input_unchanged
    (href : string) (h : heap) (event : loc) (url line column : prim) : Prop :=
  ∀ h' r,
    _enhanceEventWithInitialFrame href h event url line column = Some (h', r) →
    h' !! event = h !! event.

(** C2, as stated, fails.  The caller holds a reference to an event without
    exception data; after [_enhanceEventWithInitialFrame] the caller's own
    object has an [exception] property it did not have before. *)
Lemma enhance_mutates_input_event :
  ¬ leaves_input_unchanged "http://localhost/" bare_event_store 0
      PUndefined PUndefined PUndefined.
Proof.
  unfold leaves_input_unchanged. intros H.
  assert (K : match _enhanceEventWithInitialFrame "http://localhost/"
                      bare_event_store 0 PUndefined PUndefined PUndefined with
              | Some (h', _) => h' !! 0%nat ≠ bare_event_store !! 0%nat
              | None => False
              end) by (vm_compute; discriminate).
  destruct (_enhanceEventWithInitialFrame "http://localhost/" bare_event_store 0
              PUndefined PUndefined PUndefined) as [[h' r]|]; [|done].
  exact (K (H h' r eq_refl)).
Qed.

(** For every event of the [Event] shape and every url, line and column,
    [_enhanceEventWithInitialFrame] returns the very reference it was
    given; the store comes back unchanged exactly when the event already
    has a non-empty [exception.values[0].stacktrace.frames]. *)
Lemma enhance_in_place href h event url line column :
  event_shape h event = true →
  ∃ h', _enhanceEventWithInitialFrame href h event url line column = Some (h', event) ∧
        (h' = h ↔ has_initial_frame h event = true).
Proof.
  intros Hs.
  destruct (enhance_outcome href url line column event h Hs) as (h' & E & Hh).
  exists h'. split; [done|].
  destruct (has_initial_frame h event).
  - by split.
  - split; [|discriminate]. intros ->. lia.
Qed.

Lemma enhance_in_place_witness :
  ∃ h', _enhanceEventWithInitialFrame "http://localhost/" framed_event_store 0
          (PString "app.js") (PNumber (Fin 3)) (PNumber (Fin 14)) = Some (h', 0%nat) ∧
        (h' = framed_event_store ↔ has_initial_frame framed_event_store 0 = true).
Proof. apply enhance_in_place. vm_compute. reflexivity. Defined.

(** The frame pushed on an event without frames, read back from the store. *)
Example enhance_bare_event_frame :
  match _enhanceEventWithInitialFrame "http://localhost/" bare_event_store 0
          (PString "app.js") (PString "12") (PString "x") with
  | Some (h', _) => h' !! 6%nat
  | None => None
  end = Some (initial_frame PUndefined "app.js" (PString "12")).
Proof. vm_compute. reflexivity. Qed.

(** C7.  The output of [_enhanceEventWithInitialFrame] is a function of its
    arguments (the store holding the event, the event reference, url, line,
    column) alone whenever url is a non-empty string: the one thing read
    from the environment, the location href, does not reach the result. *)
Theorem enhance_determined_by_arguments href1 href2 h event s line column :
  s ≠ "" →
  _enhanceEventWithInitialFrame href1 h event (PString s) line column =
  _enhanceEventWithInitialFrame href2 h event (PString s) line column.
Proof.
  intros Hs. unfold _enhanceEventWithInitialFrame.
  rewrite (filename_of_nonempty href1 s Hs), (filename_of_nonempty href2 s Hs).
  reflexivity.
Qed.

Lemma enhance_determined_by_arguments_witness :
  _enhanceEventWithInitialFrame "http://a.example/" bare_event_store 0
    (PString "app.js") (PNumber (Fin 3)) PUndefined =
  _enhanceEventWithInitialFrame "http://b.example/" bare_event_store 0
    (PString "app.js") (PNumber (Fin 3)) PUndefined.
Proof. apply enhance_determined_by_arguments. discriminate. Defined.

(** With an empty url the file name is the page's location: the result then
    does depend on the environment. *)
Lemma enhance_reads_location_when_url_empty :
  _enhanceEventWithInitialFrame "http://a.example/" bare_event_store 0
    (PString "") PUndefined PUndefined ≠
  _enhanceEventWithInitialFrame "http://b.example/" bare_event_store 0
    (PString "") PUndefined PUndefined.
Proof. vm_compute. discriminate. Qed.

End GlobalHandlersEventFacts.

(* ===================================================================== *)
(** * [globalError.ts] and [GlobalHandlers.setupOnce]                     *)
(* ===================================================================== *)

Module Instrument.
Import JS.

(** [HandlerDataError] *)
Record HandlerDataError : Type := {
  column : value;
  error : value;
  line : value;
  msg : value;
  url : value;
}.

(** Function objects that can sit in [GLOBAL_OBJ.onerror]: a handler of the
    host page (known by a number), or the closure that [instrumentError]
    creates.  The two marker properties are read as booleans. *)
Inductive code : Type :=
| HostCode (id : nat)
| InstrumentedOnError.

Record fn : Type := {
  fn_code : code;
  __SENTRY_LOADER__ : bool;
  __SENTRY_INSTRUMENTED__ : bool;
}.

(** What an observer sees of a call of the global handler, in order. *)
Inductive obs : Type :=
| Triggered (type : string) (data : HandlerDataError)
| HostCalled (id : nat) (args : list value).

(** The two callbacks that [globalhandlers.ts] registers. *)
Inductive callback : Type :=
| OnErrorCallback
| OnUnhandledRejectionCallback.

(** [type GlobalHandlersIntegrationsOptionKeys] *)
Inductive GlobalHandlersIntegrationsOptionKeys : Type :=
| onerror
| onunhandledrejection.

(** [Record<GlobalHandlersIntegrationsOptionKeys, A>] *)
Record per_key (A : Type) : Type := {
  at_onerror : A;
  at_onunhandledrejection : A;
}.
Arguments at_onerror {A}.
Arguments at_onunhandledrejection {A}.

Definition get_key {A} (r : per_key A) (k : GlobalHandlersIntegrationsOptionKeys) : A :=
  match k with
  | onerror => at_onerror r
  | onunhandledrejection => at_onunhandledrejection r
  end.

Definition set_key {A} (r : per_key A) (k : GlobalHandlersIntegrationsOptionKeys) (a : A)
  : per_key A :=
  match k with
  | onerror => {| at_onerror := a; at_onunhandledrejection := at_onunhandledrejection r |}
  | onunhandledrejection => {| at_onerror := at_onerror r; at_onunhandledrejection := a |}
  end.

(** The install functions stored in [_installFunc]. *)
Inductive installer : Type :=
| _installGlobalOnErrorHandler
| _installGlobalOnUnhandledRejectionHandler.

Global Instance installer_eq_dec : EqDecision installer.
Proof. solve_decision. Defined.
Global Instance keys_eq_dec : EqDecision GlobalHandlersIntegrationsOptionKeys.
Proof. solve_decision. Defined.

(** [class GlobalHandlers] *)
Record GlobalHandlers : Type := {
  name : string;
  _options : per_key bool;
  _installFunc : per_key (option installer);
}.

Section World.

(** Everything outside the two modules: the host page, the handler table
    of [_handlers.ts], the hub. *)
Variable Env : Type.

(** The module state of [globalError.ts] and the global object's slot. *)
Record world : Type := {
  GLOBAL_OBJ_onerror : option fn;
  _oldOnErrorHandler : option fn;
  env : Env;
  trace : list obs;
}.

(** Imports of [./_handlers], of the host and of [globalUnhandledRejection]. *)
Variable addHandler : string → callback → Env → Env.
Variable maybeInstrument : string → (world → world) → world → world.
Variable triggerHandlers : string → HandlerDataError → Env → Env.
Variable host_apply : nat → list value → Env → Env * value.
Variable addGlobalUnhandledRejectionInstrumentationHandler : callback → world → world.

Definition with_env (w : world) (e : Env) (o : list obs) : world :=
  {| GLOBAL_OBJ_onerror := GLOBAL_OBJ_onerror w;
     _oldOnErrorHandler := _oldOnErrorHandler w;
     env := e;
     trace := trace w ++ o |}.

(** An argument that was not passed reads [undefined]. *)
Definition arg (args : list value) (i : nat) : value :=
  default (VPrim PUndefined) (args !! i).

(** [handlerData] built from [(msg, url, line, column, error)]. *)
Definition handlerData_of (args : list value) : HandlerDataError :=
  {| column := arg args 3; error := arg args 4; line := arg args 2;
     msg := arg args 0; url := arg args 1 |}.

(** The closure assigned to [GLOBAL_OBJ.onerror], and the call of a function
    object.  [fuel] bounds the depth of the call stack. *)
Fixpoint call (fuel : nat) (f : fn) (args : list value) (w : world)
  : option (world * value) :=
  match fuel with
  | O => None
  | S fuel =>
      match fn_code f with
      | HostCode id =>
          let '(e, r) := host_apply id args (env w) in
          Some (with_env w e [HostCalled id args], r)
      | InstrumentedOnError =>
          let handlerData := handlerData_of args in
          let w := with_env w (triggerHandlers "error" handlerData (env w))
                     [Triggered "error" handlerData] in
          match _oldOnErrorHandler w with
          | Some old =>
              if negb (__SENTRY_LOADER__ old)
              then call fuel old args w
              else Some (w, VPrim (PBool false))
          | None => Some (w, VPrim (PBool false))
          end
      end
  end.

Definition instrumented_onerror : fn :=
  {| fn_code := InstrumentedOnError;
     __SENTRY_LOADER__ := false;
     __SENTRY_INSTRUMENTED__ := true |}.

Definition instrumentError (w : world) : world :=
  {| GLOBAL_OBJ_onerror := Some instrumented_onerror;
     _oldOnErrorHandler := GLOBAL_OBJ_onerror w;
     env := env w;
     trace := trace w |}.

Definition addGlobalErrorInstrumentationHandler (handler : callback) (w : world) : world :=
  let type := "error" in
  let w := with_env w (addHandler type handler (env w)) [] in
  maybeInstrument type instrumentError w.

(** ** [GlobalHandlers] *)

(** The process around an instance: the world above, [Error.stackTraceLimit],
    the debug log, and the record of the install functions that were run. *)
Record sys : Type := {
  sys_world : world;
  stackTraceLimit : Z;
  debug_log : list string;
  ran : list installer;
}.

Variable DEBUG_BUILD : bool.

Definition key_name (k : GlobalHandlersIntegrationsOptionKeys) : string :=
  match k with
  | onerror => "onerror"
  | onunhandledrejection => "onunhandledrejection"
  end.

(** [new GlobalHandlers(options)]: the defaults, overridden by the keys
    that [options] gives.  The keys of [_options] are, in this order,
    [onerror] and [onunhandledrejection]. *)
Definition new_GlobalHandlers (options : option (per_key (option bool))) : GlobalHandlers :=
  let given k := options ≫= λ o, get_key o k in
  {| name := "GlobalHandlers";
     _options := {| at_onerror := default true (given onerror);
                    at_onunhandledrejection := default true (given onunhandledrejection) |};
     _installFunc := {| at_onerror := Some _installGlobalOnErrorHandler;
                        at_onunhandledrejection :=
                          Some _installGlobalOnUnhandledRejectionHandler |} |}.

Definition globalHandlerLog (type : string) (s : sys) : sys :=
  {| sys_world := sys_world s;
     stackTraceLimit := stackTraceLimit s;
     debug_log := if DEBUG_BUILD
                  then debug_log s ++ ["Global Handler attached: " +:+ type]
                  else debug_log s;
     ran := ran s |}.

(** Calling an install function. *)
Definition run_installer (f : installer) (s : sys) : sys :=
  {| sys_world :=
       match f with
       | _installGlobalOnErrorHandler =>
           addGlobalErrorInstrumentationHandler OnErrorCallback (sys_world s)
       | _installGlobalOnUnhandledRejectionHandler =>
           addGlobalUnhandledRejectionInstrumentationHandler
             OnUnhandledRejectionCallback (sys_world s)
       end;
     stackTraceLimit := stackTraceLimit s;
     debug_log := debug_log s;
     ran := ran s ++ [f] |}.

(** The body of the [for (const key in options)] loop. *)
Definition setupOnce_body (st : GlobalHandlers * sys)
    (key : GlobalHandlersIntegrationsOptionKeys) : GlobalHandlers * sys :=
  let '(this, s) := st in
  match get_key (_installFunc this) key with
  | Some installFunc =>
      if get_key (_options this) key then
        let s := globalHandlerLog (key_name key) s in
        let s := run_installer installFunc s in
        ({| name := name this;
            _options := _options this;
            _installFunc := set_key (_installFunc this) key None |}, s)
      else st
  | None => st
  end.

Definition setupOnce (st : GlobalHandlers * sys) : GlobalHandlers * sys :=
  let '(this, s) := st in
  let s := {| sys_world := sys_world s; stackTraceLimit := 50;
              debug_log := debug_log s; ran := ran s |} in
  foldl setupOnce_body (this, s) [onerror; onunhandledrejection].


(** ** Facts about [setupOnce] *)

(** The install function that the constructor puts in a slot. *)
Definition installer_of (k : GlobalHandlersIntegrationsOptionKeys) : installer :=
  match k with
  | onerror => _installGlobalOnErrorHandler
  | onunhandledrejection => _installGlobalOnUnhandledRejectionHandler
  end.

Definition slot (this : GlobalHandlers) (k : GlobalHandlersIntegrationsOptionKeys)
  : option installer :=
  get_key (_installFunc this) k.

(** Since [s0], the install functions in [delta] were run, none twice; a
    slot is empty once its function has run, and holds nothing but the
    constructor's function before. *)
Definition installed_once (s0 : sys) (st : GlobalHandlers * sys) (delta : list installer) : Prop :=
  ran st.2 = ran s0 ++ delta ∧ NoDup delta ∧
  ∀ k, (installer_of k ∈ delta → slot st.1 k = None) ∧
       (slot st.1 k = None ∨ slot st.1 k = Some (installer_of k)).

Lemma get_set_key {A} (r : per_key A) k k' (a : A) :
  get_key (set_key r k a) k' = if decide (k = k') then a else get_key r k'.
Proof. by destruct k, k'. Qed.

Lemma installer_of_inj k k' : installer_of k = installer_of k' → k = k'.
Proof. by destruct k, k'. Qed.

(** One turn of the loop either leaves everything as it is, or runs the
    function found in the slot and empties the slot. *)
Lemma setupOnce_body_cases this s key :
  (setupOnce_body (this, s) key = (this, s) ∧
   (slot this key = None ∨ get_key (_options this) key = false)) ∨
  (∃ f this' s', setupOnce_body (this, s) key = (this', s') ∧
     slot this key = Some f ∧ get_key (_options this) key = true ∧
     ran s' = ran s ++ [f] ∧
     _options this' = _options this ∧
     _installFunc this' = set_key (_installFunc this) key None).
Proof.
  unfold setupOnce_body, slot.
  destruct (get_key (_installFunc this) key) as [f|] eqn:Hf; [|left; auto].
  destruct (get_key (_options this) key) eqn:Ho; [|left; auto].
  right. by eexists _, _, _.
Qed.

Lemma setupOnce_body_installed_once s0 st delta key :
  installed_once s0 st delta →
  ∃ delta', installed_once s0 (setupOnce_body st key) delta'.
Proof.
  destruct st as [this s]. intros (Hran & Hnd & Hslots).
  destruct (setupOnce_body_cases this s key)
    as [[-> _] | (f & this' & s' & -> & Hf & _ & Hran' & _ & Hfun)].
  { by exists delta. }
  simpl in Hran, Hslots.
  assert (f = installer_of key ∧ installer_of key ∉ delta) as [-> Hnew].
  { destruct (Hslots key) as [Hin [Hn|Hs]]; [congruence|].
    rewrite Hs in Hf. injection Hf as <-. split; [done|].
    intros Hd. specialize (Hin Hd). congruence. }
  exists (delta ++ [installer_of key]). repeat split; simpl.
  - by rewrite Hran', Hran, (assoc_L (++)).
  - apply NoDup_app. repeat split; [done| |apply NoDup_singleton].
    intros x Hx ->%list_elem_of_singleton. done.
  - unfold slot. rewrite Hfun, get_set_key. case_decide; [done|].
    intros [Hd | ->%list_elem_of_singleton%installer_of_inj]%elem_of_app; [|done].
    by apply Hslots.
  - unfold slot. rewrite Hfun, get_set_key. case_decide; [by left|].
    apply Hslots.
Qed.

Lemma setupOnce_unfold this s :
  setupOnce (this, s) =
  setupOnce_body
    (setupOnce_body
       (this, {| sys_world := sys_world s; stackTraceLimit := 50;
                 debug_log := debug_log s; ran := ran s |}) onerror)
    onunhandledrejection.
Proof. reflexivity. Qed.

Lemma setupOnce_installed_once s0 st delta :
  installed_once s0 st delta →
  ∃ delta', installed_once s0 (setupOnce st) delta'.
Proof.
  destruct st as [this s]. intros H. unfold setupOnce. simpl.
  set (s1 := {| sys_world := sys_world s; stackTraceLimit := 50;
                debug_log := debug_log s; ran := ran s |}).
  assert (H1 : installed_once s0 (this, s1) delta) by exact H.
  destruct (setupOnce_body_installed_once _ _ _ onerror H1) as [d1 H2].
  destruct (setupOnce_body_installed_once _ _ _ onunhandledrejection H2) as [d2 H3].
  by exists d2.
Qed.

Lemma new_GlobalHandlers_installed_once options s :
  installed_once s (new_GlobalHandlers options, s) [].
Proof.
  repeat split; simpl.
  - by rewrite app_nil_r.
  - apply NoDup_nil_2.
  - intros H. by apply elem_of_nil in H.
  - right. by destruct k.
Qed.

(** Within one call, whatever ran was taken from a slot that held it, and
    that slot is empty when the call returns. *)
Lemma setupOnce_runs_from_slots this s :
  ∃ d, ran (setupOnce (this, s)).2 = ran s ++ d ∧
       ∀ f, f ∈ d →
            ∃ k, slot this k = Some f ∧ slot (setupOnce (this, s)).1 k = None.
Proof.
  rewrite !setupOnce_unfold.
  set (s1 := {| sys_world := sys_world s; stackTraceLimit := 50;
                debug_log := debug_log s; ran := ran s |}).
  change (ran s) with (ran s1).
  destruct (setupOnce_body_cases this s1 onerror)
    as [[-> _] | (f1 & this1 & s2 & -> & Hf1 & _ & Hr1 & _ & Hfun1)];
  [ destruct (setupOnce_body_cases this s1 onunhandledrejection)
      as [[-> _] | (f2 & this2 & s3 & -> & Hf2 & _ & Hr2 & _ & Hfun2)]
  | destruct (setupOnce_body_cases this1 s2 onunhandledrejection)
      as [[-> _] | (f2 & this2 & s3 & -> & Hf2 & _ & Hr2 & _ & Hfun2)] ];
  simpl.
  - exists []. split; [by rewrite app_nil_r|]. intros f H. by apply elem_of_nil in H.
  - exists [f2]. split; [done|]. intros f ->%list_elem_of_singleton.
    exists onunhandledrejection. split; [done|]. unfold slot. by rewrite Hfun2.
  - exists [f1]. split; [done|]. intros f ->%list_elem_of_singleton.
    exists onerror. split; [done|]. unfold slot. by rewrite Hfun1.
  - exists [f1; f2]. split; [by rewrite Hr2, Hr1, <- (assoc_L (++))|].
    intros f [-> | ->%list_elem_of_singleton]%elem_of_cons.
    + exists onerror. split; [done|]. unfold slot. by rewrite Hfun2, Hfun1.
    + exists onunhandledrejection. split.
      * unfold slot in *. by rewrite Hfun1 in Hf2.
      * unfold slot. by rewrite Hfun2.
Qed.

(** C8.  On an instance made by the constructor, any number of
    [setupOnce()] calls runs each install function at most once: the
    functions run since construction form a duplicate-free list, and the
    slot of a function that has run is [undefined].  In every single call,
    on any instance, a function that runs was taken from a slot that was
    not [undefined], and that slot is [undefined] afterwards. *)
Theorem setupOnce_installs_at_most_once :
  (∀ options s n,
     ∃ delta,
       ran (Nat.iter n setupOnce (new_GlobalHandlers options, s)).2 = ran s ++ delta ∧
       NoDup delta ∧
       ∀ k, installer_of k ∈ delta →
            slot (Nat.iter n setupOnce (new_GlobalHandlers options, s)).1 k = None) ∧
  (∀ this s,
     ∃ d, ran (setupOnce (this, s)).2 = ran s ++ d ∧
          ∀ f, f ∈ d →
               ∃ k, slot this k = Some f ∧ slot (setupOnce (this, s)).1 k = None).
Proof.
  split; [|apply setupOnce_runs_from_slots].
  intros options s n.
  assert (∃ delta, installed_once s
            (Nat.iter n setupOnce (new_GlobalHandlers options, s)) delta)
    as (delta & Hran & Hnd & Hslots).
  { induction n as [|n [d IH]]; simpl.
    - eexists. apply new_GlobalHandlers_installed_once.
    - by eapply setupOnce_installed_once. }
  exists delta. repeat split; [done..|]. intros k. apply Hslots.
Qed.

(** ** Facts about [instrumentError] *)

(** The world at some later time: the host and the SDK have moved on, the
    module variable and the global slot are as they were left. *)
Definition later (w : world) (e : Env) (t : list obs) : world :=
  {| GLOBAL_OBJ_onerror := GLOBAL_OBJ_onerror w;
     _oldOnErrorHandler := _oldOnErrorHandler w;
     env := e;
     trace := t |}.

(** What one call of the instrumented handler has to look like, given the
    handler [prev] that was installed before instrumentation. *)
Definition forwards_to (prev : option fn) (args : list value) (e : Env) (t : list obs)
    (w2 : world) (r : value) : Prop :=
  let data := handlerData_of args in
  let e1 := triggerHandlers "error" data e in
  match prev with
  | Some old =>
      if __SENTRY_LOADER__ old
      then env w2 = e1 ∧ trace w2 = t ++ [Triggered "error" data] ∧
           r = VPrim (PBool false)
      else ∃ id, fn_code old = HostCode id ∧
                 env w2 = (host_apply id args e1).1 ∧
                 trace w2 = t ++ [Triggered "error" data; HostCalled id args] ∧
                 r = (host_apply id args e1).2
  | None =>
      env w2 = e1 ∧ trace w2 = t ++ [Triggered "error" data] ∧
      r = VPrim (PBool false)
  end.

Lemma call_instrumented fuel args w :
  call (S fuel) instrumented_onerror args w =
  let data := handlerData_of args in
  let w1 := with_env w (triggerHandlers "error" data (env w)) [Triggered "error" data] in
  match _oldOnErrorHandler w with
  | Some old =>
      if negb (__SENTRY_LOADER__ old) then call fuel old args w1
      else Some (w1, VPrim (PBool false))
  | None => Some (w1, VPrim (PBool false))
  end.
Proof. reflexivity. Qed.

Lemma call_host fuel f id args w :
  fn_code f = HostCode id →
  call (S fuel) f args w =
  Some (with_env w (host_apply id args (env w)).1 [HostCalled id args],
        (host_apply id args (env w)).2).
Proof. simpl. intros ->. by destruct (host_apply id args (env w)). Qed.

(** C9.  After [instrumentError] has run over a host handler (or over no
    handler), the global [onerror] is the instrumented closure; each later
    call of it first triggers the ['error'] handlers with the handler data
    of the arguments, then calls the previous handler, if there was one
    and it is not marked [__SENTRY_LOADER__], with the same arguments and
    returns what it returns, and returns [false] otherwise.  The call
    leaves the global slot and the remembered handler in place. *)
Theorem instrumentError_preserves_host_handler w e t args fuel :
  (∀ f, GLOBAL_OBJ_onerror w = Some f → ∃ id, fn_code f = HostCode id) →
  (2 ≤ fuel)%nat →
  ∃ h, GLOBAL_OBJ_onerror (instrumentError w) = Some h ∧
       __SENTRY_INSTRUMENTED__ h = true ∧
       ∃ w2 r, call fuel h args (later (instrumentError w) e t) = Some (w2, r) ∧
               GLOBAL_OBJ_onerror w2 = Some h ∧
               _oldOnErrorHandler w2 = GLOBAL_OBJ_onerror w ∧
               forwards_to (GLOBAL_OBJ_onerror w) args e t w2 r.
Proof.
  intros Hhost Hfuel. exists instrumented_onerror. do 2 (split; [done|]).
  destruct fuel as [|[|fuel]]; [lia..|]. clear Hfuel.
  rewrite call_instrumented. unfold forwards_to. cbn [later instrumentError
    _oldOnErrorHandler GLOBAL_OBJ_onerror env].
  destruct (GLOBAL_OBJ_onerror w) as [old|] eqn:Hold.
  - destruct (__SENTRY_LOADER__ old) eqn:Hl; cbn [negb].
    + eexists _, _. split; [done|]. by repeat split.
    + destruct (Hhost old eq_refl) as [id Hid].
      rewrite (call_host _ _ id) by done.
      eexists _, _. split; [done|]. do 2 (split; [done|]).
      exists id. split; [done|]. split; [done|]. split; [|done].
      cbn [trace with_env]. by rewrite <- (assoc_L (++)).
  - eexists _, _. split; [done|]. by repeat split.
Qed.

(** ** More on [setupOnce] and on the instrumented handler *)

(** No key has both an install function in its slot and its option on. *)
Definition settled (this : GlobalHandlers) : Prop :=
  ∀ k, slot this k = None ∨ get_key (_options this) k = false.

Lemma setupOnce_body_settled this s key :
  settled this → setupOnce_body (this, s) key = (this, s).
Proof.
  intros H. unfold setupOnce_body. specialize (H key). unfold slot in H.
  destruct (get_key (_installFunc this) key) as [f|]; [|done].
  destruct H as [H|H]; [done|]. by rewrite H.
Qed.

Lemma setupOnce_body_settles this s key k :
  k = key ∨ slot this k = None ∨ get_key (_options this) k = false →
  slot (setupOnce_body (this, s) key).1 k = None ∨
  get_key (_options (setupOnce_body (this, s) key).1) k = false.
Proof.
  intros H.
  destruct (setupOnce_body_cases this s key)
    as [[-> Hskip] | (f & this' & s' & -> & Hf & _ & _ & Ho & Hfun)]; simpl.
  - destruct H as [-> | H]; [done|done].
  - unfold slot in *. rewrite Hfun, Ho, get_set_key.
    case_decide; [by left|]. destruct H as [-> | H]; done.
Qed.

Lemma setupOnce_settles this s : settled (setupOnce (this, s)).1.
Proof.
  rewrite setupOnce_unfold. intros k.
  set (s1 := {| sys_world := sys_world s; stackTraceLimit := 50;
                debug_log := debug_log s; ran := ran s |}).
  destruct (setupOnce_body (this, s1) onerror) as [this1 s2] eqn:E1.
  apply setupOnce_body_settles.
  destruct k; [right | by left].
  pose proof (setupOnce_body_settles this s1 onerror onerror (or_introl eq_refl)) as H.
  by rewrite E1 in H.
Qed.

Lemma setupOnce_body_limit this s key :
  stackTraceLimit (setupOnce_body (this, s) key).2 = stackTraceLimit s.
Proof.
  unfold setupOnce_body.
  destruct (get_key (_installFunc this) key); [|done].
  by destruct (get_key (_options this) key).
Qed.

Lemma setupOnce_limit this s : stackTraceLimit (setupOnce (this, s)).2 = 50.
Proof.
  rewrite setupOnce_unfold.
  destruct (setupOnce_body _ onerror) as [this1 s2] eqn:E1.
  rewrite setupOnce_body_limit.
  pose proof (setupOnce_body_limit this
    {| sys_world := sys_world s; stackTraceLimit := 50;
       debug_log := debug_log s; ran := ran s |} onerror) as H.
  by rewrite E1 in H.
Qed.

Lemma setupOnce_setupOnce st : setupOnce (setupOnce st) = setupOnce st.
Proof.
  destruct st as [this s].
  pose proof (setupOnce_settles this s) as Hs.
  pose proof (setupOnce_limit this s) as Hl.
  destruct (setupOnce (this, s)) as [this' s']. simpl in Hs, Hl.
  rewrite setupOnce_unfold.
  assert ({| sys_world := sys_world s'; stackTraceLimit := 50;
             debug_log := debug_log s'; ran := ran s' |} = s') as ->.
  { destruct s'. simpl in *. by subst. }
  by rewrite !setupOnce_body_settled.
Qed.

(** [setupOnce()] is idempotent on every instance: a second call changes
    neither the instance nor anything around it. *)
Theorem setupOnce_idempotent st : setupOnce (setupOnce st) = setupOnce st.
Proof. apply setupOnce_setupOnce. Qed.




(** [instrumentError] must not run twice.  After a second run the
    remembered handler is the instrumented closure itself, which then
    calls itself at every call: no depth of the call stack is enough for a
    call of the global handler to return. *)
Theorem instrumentError_twice_never_returns w e t args fuel :
  call fuel instrumented_onerror args (later (instrumentError (instrumentError w)) e t)
  = None.
Proof.
  revert e t. induction fuel as [|fuel IH]; intros e t; [done|].
  rewrite call_instrumented. cbn [later instrumentError _oldOnErrorHandler
    GLOBAL_OBJ_onerror instrumented_onerror __SENTRY_LOADER__ negb].
  apply IH.
Qed.

End World.

(** ** A small concrete page *)

(** The environment counts the calls of the host; handler [7] of the host
    returns [true]. *)
Definition page_host (id : nat) (args : list value) (n : nat) : nat * value :=
  (S n, VPrim (PBool (Nat.eqb id 7))).

Definition page_world : world nat :=
  {| GLOBAL_OBJ_onerror :=
       Some {| fn_code := HostCode 7; __SENTRY_LOADER__ := false;
               __SENTRY_INSTRUMENTED__ := false |};
     _oldOnErrorHandler := None;
     env := 0%nat;
     trace := [] |}.

Definition page_sys : sys nat :=
  {| sys_world := page_world; stackTraceLimit := 10; debug_log := []; ran := [] |}.

Definition page_maybeInstrument (type : string) (f : world nat → world nat)
  : world nat → world nat := f.

Definition page_setupOnce :=
  setupOnce nat (λ _ _ e, e) page_maybeInstrument (λ _ w, w) true.

Lemma instrumentError_preserves_host_handler_witness :
  ∃ h, GLOBAL_OBJ_onerror nat (instrumentError nat page_world) = Some h ∧
       __SENTRY_INSTRUMENTED__ h = true ∧
       ∃ w2 r, call nat (λ _ _ e, e) page_host 2 h [VPrim (PString "boom")]
                 (later nat (instrumentError nat page_world) 0%nat []) = Some (w2, r) ∧
               GLOBAL_OBJ_onerror nat w2 = Some h ∧
               _oldOnErrorHandler nat w2 = GLOBAL_OBJ_onerror nat page_world ∧
               forwards_to nat (λ _ _ e, e) page_host (GLOBAL_OBJ_onerror nat page_world)
                 [VPrim (PString "boom")] 0%nat [] w2 r.
Proof.
  apply instrumentError_preserves_host_handler.
  - intros f [= <-]. by exists 7%nat.
  - lia.
Defined.

(** Three [setupOnce()] calls on a default instance run both install
    functions, once each, in the order of the keys. *)
Example setupOnce_thrice :
  ran nat (Nat.iter 3 page_setupOnce (new_GlobalHandlers None, page_sys)).2 =
  [_installGlobalOnErrorHandler; _installGlobalOnUnhandledRejectionHandler].
Proof. reflexivity. Qed.

(** With [onerror: false] only the rejection handler is installed, and the
    [onerror] slot keeps its function. *)
Example setupOnce_onerror_disabled :
  let options := Some {| at_onerror := Some false; at_onunhandledrejection := None |} in
  let st := Nat.iter 2 page_setupOnce (new_GlobalHandlers options, page_sys) in
  ran nat st.2 = [_installGlobalOnUnhandledRejectionHandler] ∧
  slot st.1 onerror = Some _installGlobalOnErrorHandler ∧
  debug_log nat st.2 = ["Global Handler attached: onunhandledrejection"].
Proof. repeat split. Qed.

(** The host's handler is called after the SDK's, and its answer returned. *)
Example page_onerror_call :
  call nat (λ _ _ e, e) page_host 2 instrumented_onerror
    [VPrim (PString "boom"); VPrim (PString "app.js")]
    (instrumentError nat page_world)
  = Some ({| GLOBAL_OBJ_onerror := Some instrumented_onerror;
             _oldOnErrorHandler := GLOBAL_OBJ_onerror nat page_world;
             env := 1%nat;
             trace := [Triggered "error"
                         (handlerData_of [VPrim (PString "boom"); VPrim (PString "app.js")]);
                       HostCalled 7 [VPrim (PString "boom"); VPrim (PString "app.js")]] |},
          VPrim (PBool true)).
Proof. reflexivity. Qed.

End Instrument.

(* ===================================================================== *)
(** * The SvelteKit server error wrapper ([handleErrorWithSentry])        *)
(* ===================================================================== *)

Module SvelteKit.
Import JS.

(** A value of type [unknown], as far as [isNotFoundError] and the default
    handler look at it: a primitive, a function, or an object with its
    properties. *)
Inductive unknown : Type :=
| UPrim (p : prim)
| UFunction
| UObject (props : gmap string value).

(** [RequestEvent], reduced to [route.id]; [None] is [null]/[undefined]. *)
Record Route : Type := { id : option string }.
Record RequestEvent : Type := { route : option Route }.

Record Input : Type := {
  error : unknown;
  event : RequestEvent;
}.

Record Mechanism : Type := { type : string; handled : bool }.
Record Hint : Type := { mechanism : Mechanism }.

(** How an [async] call or a handler ends. *)
Inductive settled (R : Type) : Type :=
| Resolved (r : R)
| Rejected (e : unknown).
Arguments Resolved {R}.
Arguments Rejected {R}.

Definition typeof (u : unknown) : string :=
  match u with
  | UPrim PUndefined => "undefined"
  | UPrim PNull => "object"
  | UPrim (PBool _) => "boolean"
  | UPrim (PNumber _) => "number"
  | UPrim (PString _) => "string"
  | UFunction => "function"
  | UObject _ => "object"
  end.

(** [error != null] *)
Definition not_nullish (u : unknown) : bool :=
  match u with
  | UPrim PUndefined | UPrim PNull => false
  | _ => true
  end.

(** ['stack' in error], for an object. *)
Definition has_stack (u : unknown) : bool :=
  match u with
  | UObject props => bool_decide (is_Some (props !! "stack"))
  | _ => false
  end.

(** [error.stack] *)
Definition stack_of (u : unknown) : value :=
  match u with
  | UObject props => default (VPrim PUndefined) (props !! "stack")
  | _ => VPrim PUndefined
  end.

(** [(... && typeof error.stack === 'string' && error.stack) || ''] *)
Definition rawStack (error : unknown) : string :=
  if not_nullish error && String.eqb (typeof error) "object" && has_stack error
  then match stack_of error with
       | VPrim (PString s) => if truthy (VPrim (PString s)) then s else ""
       | _ => ""
       end
  else "".

(** [!event.route || !event.route.id] *)
Definition hasNoRouteId (event : RequestEvent) : bool :=
  match route event with
  | None => true
  | Some r =>
      match id r with
      | None => true
      | Some i => negb (truthy (VPrim (PString i)))
      end
  end.

Definition isNotFoundError (input : Input) : bool :=
  hasNoRouteId (event input) && String.prefix "Error: Not found:" (rawStack (error input)).

Section Wrapper.

(** The Sentry client, the console and the rest of the server. *)
Variable W : Type.
(** What a [HandleServerError] resolves to: [void | App.Error]. *)
Variable AppError : Type.

(** Imports: [captureException] of [@sentry/node], [flushIfServerless] of
    [./utils] and [console.error].  Capturing and flushing do not throw. *)
Variable captureException : unknown → Hint → W → W.
Variable flushIfServerless : W → W.
Variable console_error : value → W → W.

Definition HandleServerError : Type := Input → W → W * settled (option AppError).

(** [console.error(error && error.stack)]; returns nothing. *)
Definition defaultErrorHandler : HandleServerError :=
  λ input w,
    let shown :=
      match error input with
      | UPrim p => if truthy (VPrim p) then stack_of (error input) else VPrim p
      | u => stack_of u
      end in
    (console_error shown w, Resolved None).

Definition sveltekit_hint : Hint :=
  {| mechanism := {| type := "sveltekit"; handled := false |} |}.

(** [handleErrorWithSentry(handleError)]: the handler that it returns. *)
Definition handleErrorWithSentry (handleError : option HandleServerError)
  : HandleServerError :=
  let handleError := default defaultErrorHandler handleError in
  λ input w,
    if isNotFoundError input then handleError input w
    else
      let w := captureException (error input) sveltekit_hint w in
      let w := flushIfServerless w in
      handleError input w.

(** ** Facts *)

(** The request has no route id (a missing route, a [null] id, or an empty
    one), and the error is an object whose [stack] is a string that starts
    with ['Error: Not found:']. *)
Definition not_found (input : Input) : Prop :=
  (route (event input) = None ∨
   ∃ r, route (event input) = Some r ∧ (id r = None ∨ id r = Some "")) ∧
  ∃ props s, error input = UObject props ∧
             props !! "stack" = Some (VPrim (PString s)) ∧
             String.prefix "Error: Not found:" s = true.

Lemma hasNoRouteId_spec ev :
  hasNoRouteId ev = true ↔
  route ev = None ∨ ∃ r, route ev = Some r ∧ (id r = None ∨ id r = Some "").
Proof.
  unfold hasNoRouteId. destruct (route ev) as [[[i|]]|]; simpl.
  - destruct i as [|c i]; simpl; split; try done.
    + intros _. right. eexists. eauto.
    + intros [H | (r & [= <-] & [H | H])]; simpl in H; discriminate.
  - split; [|done]. intros _. right. eexists. eauto.
  - split; [|done]. by left.
Qed.

Lemma rawStack_object props :
  rawStack (UObject props) =
  match props !! "stack" with
  | Some (VPrim (PString s)) => s
  | _ => ""
  end.
Proof.
  unfold rawStack, has_stack, stack_of. simpl.
  destruct (props !! "stack") as [v|] eqn:Hs; simpl.
  - destruct v as [[| | | |s]|l]; try done. by destruct s.
  - done.
Qed.

Lemma rawStack_prefix_spec err :
  String.prefix "Error: Not found:" (rawStack err) = true ↔
  ∃ props s, err = UObject props ∧ props !! "stack" = Some (VPrim (PString s)) ∧
             String.prefix "Error: Not found:" s = true.
Proof.
  split.
  - destruct err as [p| |props]; [by destruct p | done |].
    rewrite rawStack_object.
    destruct (props !! "stack") as [[[| | | |s]|l]|] eqn:Hs; try done. eauto.
  - intros (props & s & -> & Hs & Hp). by rewrite rawStack_object, Hs.
Qed.

Lemma isNotFoundError_spec input :
  isNotFoundError input = true ↔ not_found input.
Proof.
  unfold isNotFoundError, not_found.
  rewrite andb_true_iff, hasNoRouteId_spec, rawStack_prefix_spec. done.
Qed.

(** On the server's world: the wrapper is the wrapped handler for a "Not
    found" error, and the wrapped handler after [captureException] and
    [flushIfServerless] for any other. *)
Lemma handleErrorWithSentry_cases handleError input w :
  handleErrorWithSentry handleError input w =
  let h := default defaultErrorHandler handleError in
  if isNotFoundError input then h input w
  else h input (flushIfServerless (captureException (error input) sveltekit_hint w)).
Proof. unfold handleErrorWithSentry. by destruct (isNotFoundError input). Qed.

End Wrapper.

(** ** Counting the calls of [captureException]

    A server that keeps, beside its world, the list of the
    [captureException] calls made on it: the import is the only code that
    writes to the list. *)
Section Calls.

Variables (W AppError : Type).

Record logged : Type := {
  server : W;
  captured : list (unknown * Hint);
}.

(** [captureException], writing down each call. *)
Definition logging (captureException : unknown → Hint → W → W)
  : unknown → Hint → logged → logged :=
  λ e hint s, {| server := captureException e hint (server s);
                 captured := captured s ++ [(e, hint)] |}.

(** Code that works on the world and knows nothing of the list. *)
Definition on_server (f : W → W) : logged → logged :=
  λ s, {| server := f (server s); captured := captured s |}.

Definition handler_on_server (h : HandleServerError W AppError)
  : HandleServerError logged AppError :=
  λ input s, let '(w, r) := h input (server s) in
             ({| server := w; captured := captured s |}, r).

Variable captureException : unknown → Hint → W → W.
Variable flushIfServerless : W → W.
Variable console_error : value → W → W.

(** The wrapper on the plain server, and on the server that counts. *)
Definition wrapped (handleError : option (HandleServerError W AppError))
  : HandleServerError W AppError :=
  handleErrorWithSentry W AppError captureException flushIfServerless console_error
    handleError.

Definition counted (handleError : option (HandleServerError W AppError))
  : HandleServerError logged AppError :=
  handleErrorWithSentry logged AppError (logging captureException)
    (on_server flushIfServerless) (λ v, on_server (console_error v))
    (handler_on_server <$> handleError).

(** C10.  The wrapper calls [captureException] exactly when the input is not
    a "Not found" error.  For a "Not found" error it is the wrapped
    handler on the same input and the same world, and no call is written
    down.  For any other input the wrapped handler runs on the world that
    [captureException] (with the input's error and the sveltekit
    mechanism) and then [flushIfServerless] have left, and exactly that
    one call is written down.  In both cases the wrapper ends the way the
    wrapped handler ends on the input, and counting changes nothing of
    what happens on the server. *)
Theorem handleErrorWithSentry_captures_iff_not_not_found handleError input w calls :
  let h := default (defaultErrorHandler W AppError console_error) handleError in
  let run := counted handleError input {| server := w; captured := calls |} in
  (not_found input →
     wrapped handleError input w = h input w ∧
     captured run.1 = calls) ∧
  (¬ not_found input →
     wrapped handleError input w =
       h input (flushIfServerless (captureException (error input) sveltekit_hint w)) ∧
     captured run.1 = calls ++ [(error input, sveltekit_hint)]) ∧
  (captured run.1 ≠ calls ↔ ¬ not_found input) ∧
  (server run.1, run.2) = wrapped handleError input w.
Proof.
  intros h run. subst run. unfold wrapped, counted.
  rewrite !handleErrorWithSentry_cases. fold h. cbv zeta.
  rewrite <- isNotFoundError_spec.
  assert (Hh : ∀ s,
             default (defaultErrorHandler logged AppError
                        (λ v, on_server (console_error v)))
               (handler_on_server <$> handleError) input s =
             ((let '(w1, r) := h input (server s) in
               ({| server := w1; captured := captured s |}, r)))).
  { intros s. subst h. destruct handleError as [f|]; [done|].
    unfold defaultErrorHandler. simpl. by destruct (error input) as [p| |]. }
  rewrite !Hh. cbn [server captured on_server logging].
  destruct (isNotFoundError input).
  - destruct (h input w) as [w1 r]. cbn.
    split; [done|]. split; [intros H; by destruct H|].
    split; [|done]. split; [done|]. intros H. by destruct H.
  - destruct (h input (flushIfServerless _)) as [w1 r]. cbn.
    split; [done|]. split; [done|]. split; [|done].
    split; [done|]. intros _ H. apply (f_equal length) in H.
    rewrite length_app in H. simpl in H. lia.
Qed.

End Calls.

(** A page request that fails for a missing page, and a genuine error. *)
Definition not_found_input : Input :=
  {| error := UObject {[ "stack" := VPrim (PString "Error: Not found: /nope
    at resolve (server/index.js:1:1)") ]};
     event := {| route := Some {| id := None |} |} |}.

Definition broken_page_input : Input :=
  {| error := UObject {[ "stack" := VPrim (PString "Error: Not found: /api/user") ]};
     event := {| route := Some {| id := Some "/user/[id]" |} |} |}.

Example not_found_is_skipped : isNotFoundError not_found_input = true.
Proof. vm_compute. reflexivity. Qed.

Example routed_error_is_captured : isNotFoundError broken_page_input = false.
Proof. vm_compute. reflexivity. Qed.

(** The two requests on a server whose world is the console output: the
    missing page is only shown, the genuine error is captured once and
    shown. *)
Definition demo_counted :=
  counted (list value) unit (λ _ _ w, w) (λ w, w) (λ v w, w ++ [v]) None.

Example not_found_is_shown_only :
  (demo_counted not_found_input {| server := []; captured := [] |}).1 =
  {| server := [stack_of (error not_found_input)]; captured := [] |}.
Proof. vm_compute. reflexivity. Qed.

Example routed_error_is_captured_once :
  (demo_counted broken_page_input {| server := []; captured := [] |}).1 =
  {| server := [stack_of (error broken_page_input)];
     captured := [(error broken_page_input, sveltekit_hint)] |}.
Proof. vm_compute. reflexivity. Qed.

Example string_error_is_captured :
  isNotFoundError {| error := UPrim (PString "Error: Not found: x");
                     event := {| route := None |} |} = false.
Proof. vm_compute. reflexivity. Qed.

End SvelteKit.

(* ===================================================================== *)
(** * String operations of the JavaScript library (ASCII)                 *)
(* ===================================================================== *)

Module JSString.

Definition string_of_rev (cs : list Ascii.ascii) : string :=
  string_of_list_ascii (rev cs).

(** [s.split(sep)] for a non-empty [sep].  [skip] counts the characters of
    a separator just matched that are still to be passed over. *)
Fixpoint split_go (sep : string) (skip : nat) (cur : list Ascii.ascii) (s : string)
  : list string :=
  match s with
  | EmptyString => [string_of_rev cur]
  | String c r =>
      match skip with
      | S k => split_go sep k cur r
      | O =>
          if String.prefix sep s
          then string_of_rev cur :: split_go sep (String.length sep - 1) [] r
          else split_go sep 0 (c :: cur) r
      end
  end.

Definition split (sep s : string) : list string := split_go sep 0 [] s.

Definition lower_char (c : Ascii.ascii) : Ascii.ascii :=
  let n := Ascii.nat_of_ascii c in
  if ((65 <=? n) && (n <=? 90))%nat then Ascii.ascii_of_nat (n + 32) else c.

Fixpoint toLowerCase (s : string) : string :=
  match s with
  | EmptyString => EmptyString
  | String c r => String (lower_char c) (toLowerCase r)
  end.

End JSString.

(* ===================================================================== *)
(** * Replay: capturing an XHR breadcrumb ([captureXhrBreadcrumbToReplay]) *)
(* ===================================================================== *)

Module Replay.

Import JSString.

(** ** Data *)

(** [Record<string, string>]; a key can be present with value [undefined]. *)
Abbreviation Headers := (gmap string (option string)) (only parsing).

Record XhrBreadcrumbData : Type := {
  url : option string;
  method : option string;
  status_code : option Z;
  request_body_size : option Z;
  response_body_size : option Z;
}.

(** [Breadcrumb & { data: XhrBreadcrumbData }]; [data] is [None] when a
    caller passes a breadcrumb without it. *)
Record Breadcrumb : Type := { data : option XhrBreadcrumbData }.

Record ReplayNetworkOptions (Pattern : Type) : Type := {
  networkDetailAllowUrls : list Pattern;
  networkDetailDenyUrls : list Pattern;
  networkCaptureBodies : bool;
  networkRequestHeaders : list string;
  networkResponseHeaders : list string;
}.
Arguments networkDetailAllowUrls {Pattern}.
Arguments networkDetailDenyUrls {Pattern}.
Arguments networkCaptureBodies {Pattern}.
Arguments networkRequestHeaders {Pattern}.
Arguments networkResponseHeaders {Pattern}.

Record XhrHint (XHR Body : Type) : Type := {
  startTimestamp : option Z;
  endTimestamp : option Z;
  input : option Body;
  xhr : option XHR;
}.
Arguments startTimestamp {XHR Body}.
Arguments endTimestamp {XHR Body}.
Arguments input {XHR Body}.
Arguments xhr {XHR Body}.

Record ReplayNetworkRequestData (ReqOrRes : Type) : Type := {
  data_startTimestamp : Z;
  data_endTimestamp : Z;
  data_url : string;
  data_method : option string;
  data_statusCode : Z;
  data_request : option ReqOrRes;
  data_response : option ReqOrRes;
}.
Arguments Build_ReplayNetworkRequestData {ReqOrRes}.

(** ** Code that may throw, over a world that it may change *)

Section Capture.

(** Thrown values. *)
Variable exn : Type.
Variable TypeError : string → exn.

Inductive res (A : Type) : Type :=
| Ok (a : A)
| Throw (e : exn).
Arguments Ok {A}.
Arguments Throw {A}.

(** The replay container, the types of the host and of [./networkUtils]. *)
Variables (R XHR Body Pattern ReqOrRes Warning PerfEntry XhrInfo : Type).

Inductive LogEntry : Type :=
| LogError (message : string) (error : exn)
| LogWarn (message : string) (errors : list exn).

Record world : Type := {
  clock : Z;
  replay : R;
  log : list LogEntry;
}.

Definition M (A : Type) : Type := world → res A * world.

Definition ret {A} (a : A) : M A := λ w, (Ok a, w).
Definition throw {A} (e : exn) : M A := λ w, (Throw e, w).
Definition bind {A B} (m : M A) (k : A → M B) : M B :=
  λ w, match m w with
       | (Ok a, w1) => k a w1
       | (Throw e, w1) => (Throw e, w1)
       end.
(** [try { m } catch (e) { handler(e) }] *)
Definition try_catch {A} (m : M A) (handler : exn → M A) : M A :=
  λ w, match m w with
       | (Ok a, w1) => (Ok a, w1)
       | (Throw e, w1) => handler e w1
       end.
(** A call that only computes: it returns or throws. *)
Definition lift {A} (r : res A) : M A := λ w, (r, w).

Notation "'let!' x ':=' m 'in' k" := (bind m (λ x, k))
  (at level 10, x binder, m at level 100, k at level 200).

(** The host's XHR object. *)
Variable getAllResponseHeaders : XHR → res string.
Variable responseText : XHR → res string.
Variable response : XHR → res (option Body).
Variable SENTRY_XHR_DATA : XHR → option XhrInfo.
Variable request_headers : XhrInfo → Headers.

(** [./networkUtils] and [./addNetworkBreadcrumb]. *)
Variable urlMatches : string → list Pattern → res bool.
Variable buildSkippedNetworkRequestOrResponse : option Z → res (option ReqOrRes).
Variable getAllowedHeaders : Headers → list string → res Headers.
Variable getBodyString : option Body → res (option string * option Warning).
Variable buildNetworkRequestOrResponse :
  Headers → option Z → option string → res (option ReqOrRes).
Variable mergeWarning : option ReqOrRes → Warning → res (option ReqOrRes).
Variable makeNetworkReplayBreadcrumb :
  string → option (ReplayNetworkRequestData ReqOrRes) → res (option PerfEntry).
Variable addNetworkBreadcrumb : R → option PerfEntry → R * res unit.

Variable DEBUG_BUILD : bool.

Definition Date_now : M Z := λ w, (Ok (clock w), w).

Definition logger_error (message : string) (error : exn) : M unit :=
  λ w, (Ok tt, {| clock := clock w; replay := replay w;
                  log := log w ++ [LogError message error] |}).

Definition logger_warn (message : string) (errors : list exn) : M unit :=
  λ w, (Ok tt, {| clock := clock w; replay := replay w;
                  log := log w ++ [LogWarn message errors] |}).

Definition when_debug (m : M unit) : M unit :=
  if DEBUG_BUILD then m else ret tt.

(** [acc[key] = value] on a plain object, for a value that is a string or
    [undefined]: the key [__proto__] goes to the setter of
    [Object.prototype], which ignores such a value, and no property is
    added. *)
Definition assign_key (acc : Headers) (key : string) (value : option string) : Headers :=
  if String.eqb key "__proto__" then acc else <[key := value]> acc.

Definition getResponseHeaders (x : XHR) : M Headers :=
  let! headers := lift (getAllResponseHeaders x) in
  if String.eqb headers "" then ret ∅
  else
    ret (foldl (λ (acc : Headers) (line : string),
                  let parts := split ": " line in
                  let key := default "" (parts !! 0%nat) in
                  let value := parts !! 1%nat in
                  assign_key acc (toLowerCase key) value)
               ∅ (split (String "013" (String "010" "")) headers)).

Definition _getXhrResponseBody (x : XHR) : M (option string * option Warning) :=
  λ w,
    (* try { return [xhr.responseText]; } catch (e) { errors.push(e); } *)
    match responseText x with
    | Ok text => (Ok (Some text, None), w)
    | Throw e1 =>
        (* try { return getBodyString(xhr.response); } catch (e) { errors.push(e); } *)
        match bind (lift (response x)) (λ r, lift (getBodyString r)) w with
        | (Ok body, w1) => (Ok body, w1)
        | (Throw e2, w1) =>
            bind (when_debug
                    (logger_warn "[Replay] Failed to get xhr response body" [e1; e2]))
                 (λ _, ret (None, None)) w1
        end
    end.

Definition with_warning (r : option ReqOrRes) (warning : option Warning)
  : M (option ReqOrRes) :=
  match warning with
  | Some wn => lift (mergeWarning r wn)
  | None => ret r
  end.

Definition _prepareXhrData
    (breadcrumb : Breadcrumb) (hint : XhrHint XHR Body)
    (options : ReplayNetworkOptions Pattern)
  : M (option (ReplayNetworkRequestData ReqOrRes)) :=
  let! now := Date_now in
  let start := default now (startTimestamp hint) in
  let finish := default now (endTimestamp hint) in
  match data breadcrumb with
  | None => throw (TypeError "Cannot destructure breadcrumb.data")
  | Some d =>
      let statusCode := default 0 (status_code d) in
      let requestBodySize := request_body_size d in
      let responseBodySize := response_body_size d in
      match url d with
      | None | Some "" => ret None
      | Some u =>
          let skipped : M (option (ReplayNetworkRequestData ReqOrRes)) :=
            let! request := lift (buildSkippedNetworkRequestOrResponse requestBodySize) in
            let! response := lift (buildSkippedNetworkRequestOrResponse responseBodySize) in
            ret (Some (Build_ReplayNetworkRequestData
                         start finish u (method d) statusCode request response)) in
          match xhr hint with
          | None => skipped
          | Some x =>
              let! allowed := lift (urlMatches u (networkDetailAllowUrls options)) in
              let! denied := (if allowed
                            then lift (urlMatches u (networkDetailDenyUrls options))
                            else ret false) in
              if negb allowed || denied then skipped
              else
                let! networkRequestHeaders :=
                  match SENTRY_XHR_DATA x with
                  | Some xhrInfo =>
                      lift (getAllowedHeaders (request_headers xhrInfo)
                              (networkRequestHeaders options))
                  | None => ret ∅
                  end in
                let! responseHeaders := getResponseHeaders x in
                let! networkResponseHeaders :=
                  lift (getAllowedHeaders responseHeaders (networkResponseHeaders options)) in
                let! req := (if networkCaptureBodies options
                           then lift (getBodyString (input hint))
                           else ret (None, None)) in
                let! res := (if networkCaptureBodies options
                           then _getXhrResponseBody x
                           else ret (None, None)) in
                let! request := lift (buildNetworkRequestOrResponse
                                      networkRequestHeaders requestBodySize req.1) in
                let! response := lift (buildNetworkRequestOrResponse
                                       networkResponseHeaders responseBodySize res.1) in
                let! request := with_warning request req.2 in
                let! response := with_warning response res.2 in
                ret (Some (Build_ReplayNetworkRequestData
                             start finish u (method d) statusCode request response))
          end
      end
  end.

Definition add_to_replay (result : option PerfEntry) : M unit :=
  λ w, let '(r, out) := addNetworkBreadcrumb (replay w) result in
       (out, {| clock := clock w; replay := r; log := log w |}).

(** How the promise of an [async] function ends. *)
Inductive settled : Type :=
| Resolved
| Rejected (e : exn).

Definition async (m : M unit) : world → settled * world :=
  λ w, match m w with
       | (Ok _, w1) => (Resolved, w1)
       | (Throw e, w1) => (Rejected e, w1)
       end.

Definition captureXhrBreadcrumbToReplay
    (breadcrumb : Breadcrumb) (hint : XhrHint XHR Body)
    (options : ReplayNetworkOptions Pattern) : world → settled * world :=
  async
    (try_catch
       (let! data := _prepareXhrData breadcrumb hint options in
        let! result := lift (makeNetworkReplayBreadcrumb "resource.xhr" data) in
        add_to_replay result)
       (λ error,
          when_debug (logger_error "[Replay] Failed to capture xhr breadcrumb" error))).

(** ** Facts *)





End Capture.

Arguments Ok {exn A}.
Arguments Throw {exn A}.
Arguments LogError {exn}.
Arguments LogWarn {exn}.
Arguments Resolved {exn}.
Arguments Rejected {exn}.

(** ** A request whose XHR object refuses to give its headers *)

Definition demo_options : ReplayNetworkOptions string :=
  {| networkDetailAllowUrls := ["https://api.example/"];
     networkDetailDenyUrls := [];
     networkCaptureBodies := true;
     networkRequestHeaders := [];
     networkResponseHeaders := ["content-type"] |}.

Definition demo_breadcrumb : Breadcrumb :=
  {| data := Some {| url := Some "https://api.example/users"; method := Some "GET";
                     status_code := Some 200; request_body_size := None;
                     response_body_size := Some 12 |} |}.

Definition demo_hint : XhrHint unit string :=
  {| startTimestamp := Some 10; endTimestamp := None; input := None; xhr := Some tt |}.

Definition demo_world : world string (list string) :=
  {| clock := 25; replay := []; log := [] |}.

(** Thrown values are strings; the replay container is the list of entries
    added; [getAllResponseHeaders] throws. *)
Definition demo_capture :=
  captureXhrBreadcrumbToReplay string (λ s, s)
    (list string) unit string string string string string unit
    (λ _, Throw "InvalidStateError")
    (λ _, Ok "body")
    (λ _, Ok None)
    (λ _, None)
    (λ _, ∅)
    (λ u ps, Ok (bool_decide (Exists (λ p, String.prefix p u = true) ps)))
    (λ _, Ok None)
    (λ hs _, Ok hs)
    (λ b, Ok (b, None))
    (λ _ _ body, Ok body)
    (λ r _, Ok r)
    (λ type d, Ok (Some type))
    (λ r entry, (r ++ option_list entry, Ok tt))
    true.

Example capture_swallows_host_error :
  demo_capture demo_breadcrumb demo_hint demo_options demo_world =
  (Resolved,
   {| clock := 25; replay := [];
      log := [LogError "[Replay] Failed to capture xhr breadcrumb"
                "InvalidStateError"] |}).
Proof. vm_compute. reflexivity. Qed.

(** Without an XHR object in the hint the skipped entry is added. *)
Example capture_without_xhr :
  demo_capture demo_breadcrumb
    {| startTimestamp := None; endTimestamp := None; input := None; xhr := None |}
    demo_options demo_world =
  (Resolved, {| clock := 25; replay := ["resource.xhr"]; log := [] |}).
Proof. vm_compute. reflexivity. Qed.

Example split_header_lines :
  split (String "013" (String "010" "")) ("Content-Type: text/html" +:+
    String "013" (String "010" "X-Id: 7")) = ["Content-Type: text/html"; "X-Id: 7"].
Proof. vm_compute. reflexivity. Qed.

Example split_header_line : split ": " "Content-Type: text/html: x" =
  ["Content-Type"; "text/html"; "x"].
Proof. vm_compute. reflexivity. Qed.

End Replay.

(* ===================================================================== *)
(** * The breadcrumb buffer of a scope                                    *)
(* ===================================================================== *)

Module BreadcrumbBuffer.

(** Modelled from the spec: the [Breadcrumb] record of the data model; the
    scope and its buffer are not among the sources. *)
Record Breadcrumb : Type := {
  timestamp : option Z;
  category : string;
  message : string;
  level : string;
  data : list (string * string);
}.

(** Modelled from the spec: the buffer of a scope, a fixed capacity and
    the retained breadcrumbs, oldest first. *)
Record buffer : Type := {
  capacity : nat;
  items : list Breadcrumb;
}.

(** The last [n] elements of a list, in order. *)
Definition last_n {A} (n : nat) (xs : list A) : list A :=
  drop (length xs - n) xs.

(** Modelled from the spec: a breadcrumb without a timestamp is given the
    current time. *)
Definition stamp (now : Z) (b : Breadcrumb) : Breadcrumb :=
  {| timestamp := Some (default now (timestamp b));
     category := category b; message := message b; level := level b;
     data := data b |}.

(** Modelled from the spec: [addBreadcrumb(b)] appends, and evicts the
    oldest entries beyond the capacity bound. *)
Definition addBreadcrumb (now : Z) (b : Breadcrumb) (buf : buffer) : buffer :=
  {| capacity := capacity buf;
     items := last_n (capacity buf) (items buf ++ [stamp now b]) |}.

(** A sequence of [addBreadcrumb] calls, each at its own time, oldest
    call first. *)
Definition addBreadcrumbs (calls : list (Z * Breadcrumb)) (buf : buffer) : buffer :=
  foldl (λ buf call, addBreadcrumb call.1 call.2 buf) buf calls.

(** The breadcrumbs of a sequence of calls as they are stored. *)
Definition stamped (calls : list (Z * Breadcrumb)) : list Breadcrumb :=
  map (λ call, stamp call.1 call.2) calls.

(** ** Facts *)

Lemma last_n_length {A} n (xs : list A) : length (last_n n xs) = min n (length xs).
Proof. unfold last_n. rewrite length_drop. lia. Qed.

Lemma last_n_all {A} n (xs : list A) : (length xs ≤ n)%nat → last_n n xs = xs.
Proof. intros H. unfold last_n. by replace (length xs - n)%nat with 0%nat by lia. Qed.

Lemma last_n_app_last_n {A} n (xs ys : list A) :
  last_n n (last_n n xs ++ ys) = last_n n (xs ++ ys).
Proof.
  unfold last_n at 1 3. rewrite length_app, last_n_length, length_app.
  unfold last_n.
  rewrite <- (drop_app_le xs ys) by lia.
  rewrite drop_drop. f_equal. lia.
Qed.

Lemma last_n_app_r {A} n (xs ys : list A) :
  (n ≤ length ys)%nat → last_n n (xs ++ ys) = last_n n ys.
Proof.
  intros H. unfold last_n. rewrite length_app.
  replace (length xs + length ys - n)%nat with (length xs + (length ys - n))%nat by lia.
  by rewrite drop_app_add.
Qed.

Lemma addBreadcrumbs_capacity calls buf :
  capacity (addBreadcrumbs calls buf) = capacity buf.
Proof.
  revert buf. induction calls as [|c calls IH]; intros buf; [done|].
  simpl. by rewrite IH.
Qed.

Lemma addBreadcrumbs_items calls buf :
  items (addBreadcrumbs calls buf) =
  match calls with
  | [] => items buf
  | _ => last_n (capacity buf) (items buf ++ stamped calls)
  end.
Proof.
  revert buf. induction calls as [|c calls IH]; intros buf; [done|].
  change (addBreadcrumbs (c :: calls) buf)
    with (addBreadcrumbs calls (addBreadcrumb c.1 c.2 buf)).
  rewrite IH. destruct calls as [|c' calls]; [done|].
  cbn [addBreadcrumb capacity items].
  rewrite last_n_app_last_n, <- (assoc_L (++)). done.
Qed.

(** The capacity bound holds after every call. *)
Lemma addBreadcrumb_bounded now b buf :
  (length (items (addBreadcrumb now b buf)) ≤ capacity buf)%nat.
Proof. simpl. rewrite last_n_length. lia. Qed.

(** On a buffer within its bound and of positive capacity, the call is
    "append, after evicting the oldest entry if the buffer is full". *)
Lemma addBreadcrumb_evicts_oldest now b buf :
  (0 < capacity buf)%nat → (length (items buf) ≤ capacity buf)%nat →
  items (addBreadcrumb now b buf) =
  if decide (length (items buf) = capacity buf)
  then drop 1 (items buf) ++ [stamp now b]
  else items buf ++ [stamp now b].
Proof.
  intros Hpos Hle. simpl. unfold last_n. rewrite length_app. simpl.
  case_decide as Hfull.
  - replace (length (items buf) + 1 - capacity buf)%nat with 1%nat by lia.
    destruct (items buf); [simpl in *; lia | done].
  - by replace (length (items buf) + 1 - capacity buf)%nat with 0%nat by lia.
Qed.

(** A breadcrumb that has its timestamp is stored as it is. *)
Lemma stamp_id now b : is_Some (timestamp b) → stamp now b = b.
Proof. destruct b as [[t|] c m l d]; intros [t' Ht]; [done | discriminate]. Qed.

Lemma stamped_id calls :
  Forall (λ call, is_Some (timestamp call.2)) calls → stamped calls = calls.*2.
Proof.
  induction 1 as [|c calls Hc _ IH]; [done|].
  unfold stamped in *. simpl. by rewrite IH, stamp_id.
Qed.

(** C3.  After a sequence of more than [N] [addBreadcrumb] calls on a buffer
    of capacity [N], whatever it held before, the buffer holds exactly the
    last [N] breadcrumbs of the sequence, in insertion order: as they are
    stored, that is with the time of the call for a breadcrumb that came
    without a timestamp, and so the very breadcrumbs passed in when all
    of them came with one. *)
Theorem addBreadcrumbs_keeps_last_N (N : nat) (buf : buffer) (calls : list (Z * Breadcrumb)) :
  capacity buf = N →
  (N < length calls)%nat →
  items (addBreadcrumbs calls buf) = last_n N (stamped calls) ∧
  length (items (addBreadcrumbs calls buf)) = N ∧
  (Forall (λ call, is_Some (timestamp call.2)) calls →
   items (addBreadcrumbs calls buf) = last_n N (calls.*2)).
Proof.
  intros HN Hm.
  assert (E : items (addBreadcrumbs calls buf) = last_n N (stamped calls)).
  { rewrite addBreadcrumbs_items. destruct calls as [|c calls]; [simpl in Hm; lia|].
    rewrite HN. apply last_n_app_r. unfold stamped. rewrite length_map. lia. }
  split; [done|]. split.
  - rewrite E, last_n_length. unfold stamped. rewrite length_map. lia.
  - intros Hts. by rewrite E, stamped_id.
Qed.

Definition crumb (m : string) : Breadcrumb :=
  {| timestamp := None; category := "ui.click"; message := m; level := "info"; data := [] |}.

Lemma addBreadcrumbs_keeps_last_N_witness :
  let buf := {| capacity := 2; items := [crumb "old"] |} in
  let calls := [(1, crumb "a"); (2, crumb "b"); (3, crumb "c")] in
  items (addBreadcrumbs calls buf) = last_n 2 (stamped calls) ∧
  length (items (addBreadcrumbs calls buf)) = 2%nat ∧
  (Forall (λ call, is_Some (timestamp call.2)) calls →
   items (addBreadcrumbs calls buf) = last_n 2 (calls.*2)).
Proof. apply addBreadcrumbs_keeps_last_N; [reflexivity | simpl; lia]. Defined.

Example three_calls_capacity_two :
  items (addBreadcrumbs [(1, crumb "a"); (2, crumb "b"); (3, crumb "c")]
           {| capacity := 2; items := [] |})
  = [stamp 2 (crumb "b"); stamp 3 (crumb "c")].
Proof. reflexivity. Qed.

End BreadcrumbBuffer.

(* ===================================================================== *)
(** * The dedupe processor                                                *)
(* ===================================================================== *)

Module Dedupe.

(** Modelled from the spec: an error event of the data model, as far as
    the dedupe processor reads it; the [Dedupe] integration listed in
    [defaultIntegrations] is not among the sources. *)
Record Event : Type := {
  event_id : nat;
  timestamp : Z;
  exception_type : string;
  message : string;
  stack : list string;
}.

Global Instance Event_eq_dec : EqDecision Event.
Proof. solve_decision. Defined.

(** Modelled from the spec: the "stack+message signature" of an event. *)
Definition signature (e : Event) : list string * string := (stack e, message e).

(** Modelled from the spec: the processor remembers the single last event
    it let through, and counts what it drops. *)
Record state : Type := {
  previous : option Event;
  dropped : nat;
}.

(** Modelled from the spec: an event repeats when its signature is that of
    the remembered event. *)
Definition repeats (e : Event) (st : state) : bool :=
  match previous st with
  | Some p => bool_decide (signature e = signature p)
  | None => false
  end.

(** Modelled from the spec: drop the event if its signature repeats that
    of the immediately-previous captured error; deliver it otherwise. *)
Definition process (e : Event) (st : state) : state * option Event :=
  if repeats e st
  then ({| previous := previous st; dropped := S (dropped st) |}, None)
  else ({| previous := Some e; dropped := dropped st |}, Some e).

(** Capturing a sequence of events: the final state and the events
    delivered, in order. *)
Fixpoint capture_all (es : list Event) (st : state) : state * list Event :=
  match es with
  | [] => (st, [])
  | e :: es =>
      let '(st1, out) := process e st in
      let '(st2, outs) := capture_all es st1 in
      (st2, option_list out ++ outs)
  end.

(** ** Facts *)

Lemma capture_all_app es1 es2 st :
  capture_all (es1 ++ es2) st =
  let '(st1, out1) := capture_all es1 st in
  let '(st2, out2) := capture_all es2 st1 in
  (st2, out1 ++ out2).
Proof.
  revert st. induction es1 as [|e es1 IH]; intros st; simpl.
  - by destruct (capture_all es2 st).
  - destruct (process e st) as [st1 out]. rewrite IH.
    destruct (capture_all es1 st1) as [st2 out1].
    destruct (capture_all es2 st2) as [st3 out2]. by rewrite (assoc_L (++)).
Qed.

(** After an event went through the processor, delivered or dropped, the
    remembered event has that event's signature. *)
Lemma process_previous e st :
  ∃ p, previous (process e st).1 = Some p ∧ signature p = signature e.
Proof.
  unfold process, repeats.
  destruct (previous st) as [p|] eqn:Hp; simpl.
  - case_bool_decide as Hs; simpl; eauto.
  - eauto.
Qed.

Lemma repeats_spec e st p :
  previous st = Some p →
  repeats e st = bool_decide (signature e = signature p).
Proof. unfold repeats. by intros ->. Qed.

(** The verdict on an event after a history is read off the last event of
    the history: the event is dropped iff it has that event's signature. *)
Lemma verdict_after_history history st l e :
  (process e (capture_all (history ++ [l]) st).1).2 =
  if bool_decide (signature e = signature l) then None else Some e.
Proof.
  rewrite capture_all_app.
  destruct (capture_all history st) as [sta outa]. simpl.
  destruct (process_previous l sta) as (p & Hp & Hs).
  destruct (process l sta) as [stb outb]. simpl in *.
  unfold process. rewrite (repeats_spec _ _ _ Hp), Hs.
  by case_bool_decide.
Qed.

(** A capture of the remembered error again: dropped and counted, and the
    remembered event stays. *)
Lemma process_repeat a p d :
  signature a = signature p →
  process a {| previous := Some p; dropped := d |} =
  ({| previous := Some p; dropped := S d |}, None).
Proof. intros H. unfold process, repeats. simpl. by rewrite bool_decide_eq_true_2. Qed.

Lemma process_other a b d :
  signature b ≠ signature a →
  process b {| previous := Some a; dropped := d |} =
  ({| previous := Some b; dropped := d |}, Some b).
Proof. intros H. unfold process, repeats. simpl. by rewrite bool_decide_eq_false_2. Qed.

Lemma process_first a st :
  repeats a st = false →
  process a st = ({| previous := Some a; dropped := dropped st |}, Some a).
Proof. intros H. unfold process. by rewrite H. Qed.

Lemma capture_twice a1 a2 st :
  signature a2 = signature a1 →
  repeats a1 st = false →
  capture_all [a1; a2] st = ({| previous := Some a1; dropped := S (dropped st) |}, [a1]).
Proof.
  intros H2 H. cbn [capture_all]. by rewrite (process_first a1 st H), process_repeat.
Qed.

Lemma capture_again a1 a2 a3 b st :
  signature a2 = signature a1 →
  signature a3 = signature a1 →
  signature b ≠ signature a1 →
  repeats a1 st = false →
  capture_all [a1; a2; b; a3] st =
  ({| previous := Some a3; dropped := S (dropped st) |}, [a1; b; a3]).
Proof.
  intros H2 H3 Hb H. cbn [capture_all].
  rewrite (process_first a1 st H), process_repeat by done.
  rewrite (process_other a1 b) by done.
  by rewrite (process_other b a3) by congruence.
Qed.

(** C4.  The processor keeps one event and compares with nothing else: the
    verdict on an event after a history is decided by the last event of
    the history alone (dropped iff the signatures agree), so it is the
    same after any two histories whose last events have one signature.
    Two captures of one error are two events of one signature, each with
    its own id and time: [a1], [a2] and [a3] below.  Capturing the error
    twice in a row delivers the first and drops and counts the second;
    capturing it a third time after a different error [b] delivers it
    again, two deliveries of that error in all and one drop. *)
Theorem dedupe_compares_to_last_only (a1 a2 a3 b : Event) (st : state) :
  signature a2 = signature a1 →
  signature a3 = signature a1 →
  signature b ≠ signature a1 →
  repeats a1 st = false →
  (∀ history st0 l e,
     (process e (capture_all (history ++ [l]) st0).1).2 =
     if bool_decide (signature e = signature l) then None else Some e) ∧
  (∀ history1 history2 st1 st2 l1 l2 e,
     signature l1 = signature l2 →
     (process e (capture_all (history1 ++ [l1]) st1).1).2 =
     (process e (capture_all (history2 ++ [l2]) st2).1).2) ∧
  capture_all [a1; a2] st =
    ({| previous := Some a1; dropped := S (dropped st) |}, [a1]) ∧
  capture_all [a1; a2; b; a3] st =
    ({| previous := Some a3; dropped := S (dropped st) |}, [a1; b; a3]) ∧
  length (filter (λ e, signature e = signature a1)
            (capture_all [a1; a2; b; a3] st).2) = 2%nat.
Proof.
  intros H2 H3 Hb Hfresh.
  split; [apply verdict_after_history|].
  split.
  { intros history1 history2 st1 st2 l1 l2 e Hl.
    by rewrite !verdict_after_history, Hl. }
  rewrite (capture_twice a1 a2 st H2 Hfresh).
  rewrite (capture_again a1 a2 a3 b st H2 H3 Hb Hfresh). cbn [snd].
  split; [done|]. split; [done|].
  rewrite !filter_cons, filter_nil.
  rewrite decide_True by done. rewrite decide_False by done.
  by rewrite decide_True.
Qed.

(** One error captured three times, and another one. *)
Definition type_error (id : nat) (time : Z) : Event :=
  {| event_id := id; timestamp := time; exception_type := "TypeError";
     message := "x is undefined"; stack := ["app.js:3:14"; "main.js:1:1"] |}.

Definition range_error : Event :=
  {| event_id := 3; timestamp := 300; exception_type := "RangeError";
     message := "too deep"; stack := ["tree.js:9:2"] |}.

Lemma dedupe_compares_to_last_only_witness :
  let st := {| previous := None; dropped := 0 |} in
  let a1 := type_error 1 100 in
  let a2 := type_error 2 200 in
  let a3 := type_error 4 400 in
  (∀ history st0 l e,
     (process e (capture_all (history ++ [l]) st0).1).2 =
     if bool_decide (signature e = signature l) then None else Some e) ∧
  (∀ history1 history2 st1 st2 l1 l2 e,
     signature l1 = signature l2 →
     (process e (capture_all (history1 ++ [l1]) st1).1).2 =
     (process e (capture_all (history2 ++ [l2]) st2).1).2) ∧
  capture_all [a1; a2] st =
    ({| previous := Some a1; dropped := S (dropped st) |}, [a1]) ∧
  capture_all [a1; a2; range_error; a3] st =
    ({| previous := Some a3; dropped := S (dropped st) |}, [a1; range_error; a3]) ∧
  length (filter (λ e, signature e = signature a1)
            (capture_all [a1; a2; range_error; a3] st).2) = 2%nat.
Proof.
  apply (dedupe_compares_to_last_only (type_error 1 100) (type_error 2 200)
           (type_error 4 400) range_error);
    [reflexivity | reflexivity | discriminate | reflexivity].
Defined.

(** The second capture is another event than the first, and is dropped
    all the same. *)
Example same_error_other_event :
  type_error 2 200 ≠ type_error 1 100 ∧
  (capture_all [type_error 1 100; type_error 2 200]
     {| previous := None; dropped := 0 |}).2 = [type_error 1 100].
Proof. split; [discriminate | reflexivity]. Qed.

End Dedupe.

(* ===================================================================== *)
(** * Sampling, the last stage of the event pipeline                      *)
(* ===================================================================== *)

Module Sampling.

Section Pipeline.

(** Events, and the generator of random numbers: its [i]-th call returns
    [random i]. *)
Variable Event : Type.
Variable random : nat → Q.

(** Modelled from the spec: a processor returns the event, a modified
    event, or nothing (drop). *)
Definition Processor : Type := Event → option Event.

(** Modelled from the spec: the client's configuration and what it has
    done so far: the number of random draws, the events handed to the
    transport (in order) and the client-report counter of drops.  The
    client and its pipeline are not among the sources. *)
Record client : Type := {
  sampleRate : Q;
  processors : list Processor;
  draws : nat;
  transport : list Event;
  dropped : nat;
}.

(** Modelled from the spec: processors run in order, a drop short-circuits
    the rest of the chain. *)
Definition run_processors (ps : list Processor) (e : Event) : option Event :=
  foldl (λ acc p, acc ≫= p) (Some e) ps.

(** Modelled from the spec: sampling draws once; a drawn value ≥ rate
    drops the event.  Returns the verdict and the number of draws made. *)
Definition sample (rate : Q) (e : Event) (n : nat) : option Event * nat :=
  let drawn := random n in
  (if Qle_bool rate drawn then None else Some e, S n).

Definition drop_event (c : client) (n : nat) : client :=
  {| sampleRate := sampleRate c; processors := processors c; draws := n;
     transport := transport c; dropped := S (dropped c) |}.

Definition send_event (c : client) (n : nat) (e : Event) : client :=
  {| sampleRate := sampleRate c; processors := processors c; draws := n;
     transport := transport c ++ [e]; dropped := dropped c |}.

(** Modelled from the spec: the pipeline of [captureEvent]: the processors
    (default integrations, inbound filters, user processors), then
    sampling, then the transport. *)
Definition captureEvent (e : Event) (c : client) : client :=
  match run_processors (processors c) e with
  | None => drop_event c (draws c)
  | Some e1 =>
      match sample (sampleRate c) e1 (draws c) with
      | (None, n) => drop_event c n
      | (Some e2, n) => send_event c n e2
      end
  end.

Definition captureEvents (es : list Event) (c : client) : client :=
  foldl (λ c e, captureEvent e c) c es.

(** ** Facts *)

Lemma captureEvent_config e c :
  sampleRate (captureEvent e c) = sampleRate c ∧
  processors (captureEvent e c) = processors c.
Proof.
  unfold captureEvent. destruct (run_processors (processors c) e); [|done].
  unfold sample. by destruct (Qle_bool _ _).
Qed.

Lemma captureEvents_config es c :
  sampleRate (captureEvents es c) = sampleRate c ∧
  processors (captureEvents es c) = processors c.
Proof.
  revert c. induction es as [|e es IH]; intros c; [done|].
  simpl. destruct (IH (captureEvent e c)) as [-> ->]. apply captureEvent_config.
Qed.

Lemma captureEvent_rate_zero e c :
  (sampleRate c == 0)%Q → (∀ i, 0 <= random i)%Q →
  transport (captureEvent e c) = transport c.
Proof.
  intros Hr Hd. unfold captureEvent.
  destruct (run_processors (processors c) e) as [e1|]; [|done].
  unfold sample.
  assert (Qle_bool (sampleRate c) (random (draws c)) = true) as ->; [|done].
  apply Qle_bool_iff. rewrite Hr. apply Hd.
Qed.

Lemma captureEvent_rate_one e c :
  (sampleRate c == 1)%Q → (∀ i, random i < 1)%Q →
  transport (captureEvent e c) =
  transport c ++ option_list (run_processors (processors c) e).
Proof.
  intros Hr Hd. unfold captureEvent.
  destruct (run_processors (processors c) e) as [e1|]; simpl;
    [|by rewrite app_nil_r].
  unfold sample.
  assert (Qle_bool (sampleRate c) (random (draws c)) = false) as ->; [|done].
  apply not_true_is_false. intros H%Qle_bool_iff. rewrite Hr in H.
  specialize (Hd (draws c)). by apply Qlt_not_le in Hd.
Qed.

(** What sampling keeps of the events that reach it, one after the other,
    when the next draw is the [n]-th: each event has its own draw, and is
    kept iff that draw is below the rate. *)
Fixpoint sampled (rate : Q) (n : nat) (es : list Event) : list Event :=
  match es with
  | [] => []
  | e :: es => (if Qle_bool rate (random n) then [] else [e]) ++ sampled rate (S n) es
  end.

(** The claim as it is written: every captured event has one draw. *)
Definition draws_once_per_capture : Prop :=
  ∀ e c, draws (captureEvent e c) = S (draws c).

Lemma captureEvent_cases e c :
  match run_processors (processors c) e with
  | None => captureEvent e c = drop_event c (draws c)
  | Some e1 =>
      ((sampleRate c <= random (draws c))%Q →
       captureEvent e c = drop_event c (S (draws c))) ∧
      (¬ (sampleRate c <= random (draws c))%Q →
       captureEvent e c = send_event c (S (draws c)) e1)
  end.
Proof.
  unfold captureEvent, sample.
  destruct (run_processors (processors c) e) as [e1|]; [|done].
  destruct (Qle_bool (sampleRate c) (random (draws c))) eqn:E.
  - split; [done|]. intros H. destruct H. by apply Qle_bool_iff.
  - split; [|done]. intros H%Qle_bool_iff. congruence.
Qed.

Lemma captureEvents_cons e es c :
  captureEvents (e :: es) c = captureEvents es (captureEvent e c).
Proof. reflexivity. Qed.

(** One capture: the draws, the transport and the drop counter after. *)
Lemma captureEvent_step e c :
  let reached := option_list (run_processors (processors c) e) in
  draws (captureEvent e c) = (draws c + length reached)%nat ∧
  transport (captureEvent e c) =
    transport c ++ sampled (sampleRate c) (draws c) reached ∧
  (dropped (captureEvent e c) + length (transport (captureEvent e c)) =
   S (dropped c + length (transport c)))%nat.
Proof.
  unfold captureEvent, sample.
  destruct (run_processors (processors c) e) as [e1|]; cbn.
  - destruct (Qle_bool (sampleRate c) (random (draws c))); cbn.
    + rewrite app_nil_r. repeat split; lia.
    + repeat split; [lia|]. rewrite length_app. cbn. lia.
  - rewrite app_nil_r. repeat split; lia.
Qed.

Lemma sampled_app rate n es1 es2 :
  sampled rate n (es1 ++ es2) =
  sampled rate n es1 ++ sampled rate (n + length es1) es2.
Proof.
  revert n. induction es1 as [|e es1 IH]; intros n; cbn [sampled app length].
  - by rewrite Nat.add_0_r.
  - rewrite IH, <- (assoc_L (++)). do 3 f_equal. lia.
Qed.

Lemma omap_cons_option_list {A B} (f : A → option B) a l :
  omap f (a :: l) = option_list (f a) ++ omap f l.
Proof. cbn. by destruct (f a). Qed.

Lemma captureEvents_run es :
  ∀ c, let reached := omap (run_processors (processors c)) es in
       draws (captureEvents es c) = (draws c + length reached)%nat ∧
       transport (captureEvents es c) =
         transport c ++ sampled (sampleRate c) (draws c) reached ∧
       (dropped (captureEvents es c) + length (transport (captureEvents es c)) =
        dropped c + length (transport c) + length es)%nat.
Proof.
  induction es as [|e es IH]; intros c; cbn zeta.
  - cbn. rewrite app_nil_r. repeat split; lia.
  - rewrite captureEvents_cons, omap_cons_option_list.
    destruct (IH (captureEvent e c)) as (Hd & Ht & Hn). cbn zeta in *.
    destruct (captureEvent_config e c) as [Hrate Hps].
    destruct (captureEvent_step e c) as (Hd1 & Ht1 & Hn1). cbn zeta in *.
    rewrite Hrate, Hps in *.
    split; [|split].
    + rewrite Hd, Hd1, length_app. lia.
    + rewrite Ht, Ht1, Hd1, sampled_app. by rewrite (assoc_L (++)).
    + rewrite Hn. cbn [length]. lia.
Qed.

Lemma sampled_rate_zero rate n es :
  (rate == 0)%Q → (∀ i, 0 <= random i)%Q → sampled rate n es = [].
Proof.
  intros Hr Hd. revert n. induction es as [|e es IH]; intros n; [done|].
  cbn [sampled]. rewrite IH.
  assert (Qle_bool rate (random n) = true) as ->; [|done].
  apply Qle_bool_iff. rewrite Hr. apply Hd.
Qed.

Lemma sampled_rate_one rate n es :
  (rate == 1)%Q → (∀ i, random i < 1)%Q → sampled rate n es = es.
Proof.
  intros Hr Hd. revert n. induction es as [|e es IH]; intros n; [done|].
  cbn [sampled]. rewrite IH.
  assert (Qle_bool rate (random n) = false) as ->; [|done].
  apply not_true_is_false. intros H%Qle_bool_iff. rewrite Hr in H.
  specialize (Hd n). by apply Qlt_not_le in Hd.
Qed.

(** C5, amended.  Sampling is the last stage: an event that an earlier
    processor drops has no draw and is counted as dropped; an event that
    reaches sampling has exactly one draw, the next one, and the capture
    drops it iff the drawn value is ≥ the sample rate and hands it to the
    transport otherwise.  Over any sequence of captures the draws made are
    as many as the events that reached sampling, each event with a draw
    of its own, and every captured event is either sent or counted as
    dropped.  With draws in [[0,1)]: at rate 0 no capture reaches the
    transport; at rate 1 every event that the processors let through
    reaches it, in order. *)
Theorem sampling_draws_once_and_thresholds :
  (∀ i, 0 <= random i ∧ random i < 1)%Q →
  (∀ e c,
     match run_processors (processors c) e with
     | None => captureEvent e c = drop_event c (draws c)
     | Some e1 =>
         ((sampleRate c <= random (draws c))%Q →
          captureEvent e c = drop_event c (S (draws c))) ∧
         (¬ (sampleRate c <= random (draws c))%Q →
          captureEvent e c = send_event c (S (draws c)) e1)
     end) ∧
  (∀ es c,
     let reached := omap (run_processors (processors c)) es in
     draws (captureEvents es c) = (draws c + length reached)%nat ∧
     transport (captureEvents es c) =
       transport c ++ sampled (sampleRate c) (draws c) reached ∧
     (dropped (captureEvents es c) + length (transport (captureEvents es c)) =
      dropped c + length (transport c) + length es)%nat) ∧
  (∀ es c, (sampleRate c == 0)%Q →
           transport (captureEvents es c) = transport c) ∧
  (∀ es c, (sampleRate c == 1)%Q →
           transport (captureEvents es c) =
           transport c ++ omap (run_processors (processors c)) es).
Proof.
  intros Hrange. split; [apply captureEvent_cases|].
  split; [apply captureEvents_run|]. split.
  - intros es c Hr. destruct (captureEvents_run es c) as (_ & -> & _).
    rewrite sampled_rate_zero; [by rewrite app_nil_r | done |].
    intros i. apply Hrange.
  - intros es c Hr. destruct (captureEvents_run es c) as (_ & -> & _).
    rewrite sampled_rate_one; [done | done |]. intros i. apply Hrange.
Qed.

End Pipeline.

(** ** A generator and a client to run *)

(** Draws 0, 3/10, 6/10, 9/10, 2/10, ... *)
Definition demo_random (i : nat) : Q := Z.of_nat ((3 * i) mod 10) # 10.

Lemma demo_random_range i : (0 <= demo_random i ∧ demo_random i < 1)%Q.
Proof.
  unfold demo_random, Qle, Qlt. cbn [Qnum Qden].
  pose proof (Nat.mod_upper_bound (3 * i) 10). lia.
Qed.

(** An inbound filter that ignores the messages of a browser extension. *)
Definition ignore_extension (e : string) : option string :=
  if String.prefix "extension:" e then None else Some e.

Definition demo_client (rate : Q) : client string :=
  {| sampleRate := rate; processors := [ignore_extension];
     draws := 0; transport := []; dropped := 0 |}.

Lemma sampling_draws_once_and_thresholds_witness :
  (∀ (e : string) c,
     match run_processors string (processors string c) e with
     | None => captureEvent string demo_random e c = drop_event string c (draws string c)
     | Some e1 =>
         ((sampleRate string c <= demo_random (draws string c))%Q →
          captureEvent string demo_random e c =
          drop_event string c (S (draws string c))) ∧
         (¬ (sampleRate string c <= demo_random (draws string c))%Q →
          captureEvent string demo_random e c =
          send_event string c (S (draws string c)) e1)
     end) ∧
  (∀ (es : list string) c,
     let reached := omap (run_processors string (processors string c)) es in
     draws string (captureEvents string demo_random es c) =
       (draws string c + length reached)%nat ∧
     transport string (captureEvents string demo_random es c) =
       transport string c ++
       sampled string demo_random (sampleRate string c) (draws string c) reached ∧
     (dropped string (captureEvents string demo_random es c) +
      length (transport string (captureEvents string demo_random es c)) =
      dropped string c + length (transport string c) + length es)%nat) ∧
  (∀ (es : list string) c, (sampleRate string c == 0)%Q →
           transport string (captureEvents string demo_random es c) = transport string c) ∧
  (∀ (es : list string) c, (sampleRate string c == 1)%Q →
           transport string (captureEvents string demo_random es c) =
           transport string c ++ omap (run_processors string (processors string c)) es).
Proof. apply sampling_draws_once_and_thresholds. exact demo_random_range. Defined.

(** C5, as stated, fails: a captured event that an inbound filter drops
    never reaches the sampling stage, and no value is drawn for it. *)
Lemma filtered_event_makes_no_draw : ¬ draws_once_per_capture string demo_random.
Proof.
  intros H. specialize (H "extension: boom" (demo_client (1 # 2))).
  vm_compute in H. discriminate.
Qed.

(** At rate 1/2 the draw decides: 9/10 drops the event, 3/10 sends it. *)
Example half_rate_draw_decides :
  let c := demo_client (1 # 2) in
  transport string (captureEvent string (λ _, (9 # 10)%Q) "TypeError" c) = [] ∧
  transport string (captureEvent string (λ _, (3 # 10)%Q) "TypeError" c) = ["TypeError"].
Proof. vm_compute. done. Qed.

Example half_rate_run :
  let c := captureEvents string demo_random
             ["TypeError"; "extension: boom"; "RangeError"; "SyntaxError"]
             (demo_client (1 # 2)) in
  transport string c = ["TypeError"; "RangeError"] ∧
  draws string c = 3%nat ∧ dropped string c = 2%nat.
Proof. vm_compute. done. Qed.

End Sampling.

(* ===================================================================== *)
(** * The rate limiter                                                    *)
(* ===================================================================== *)

Module RateLimiter.
Import JSString.

(** Modelled from the spec: one segment
    [retry-after-seconds:category1;category2:scope] of the
    [X-Sentry-Rate-Limits] header.  The rate limiter is not among the
    sources. *)
Record segment : Type := {
  retry_after : option Z;
  categories : list string;
  scope : option string;
}.

(** Modelled from the spec: the retry-after value is a number of seconds
    in decimal digits. *)
Definition parse_seconds (s : string) : option Z := JS.digits_go None s.

(** Modelled from the spec: the three fields of a segment are separated by
    colons, the categories by semicolons. *)
Definition parse_segment (s : string) : segment :=
  let parts := split ":" s in
  {| retry_after := parts !! 0%nat ≫= parse_seconds;
     categories :=
       filter (λ c, c ≠ "") (default [] (split ";" <$> parts !! 1%nat));
     scope := parts !! 2%nat |}.

(** Modelled from the spec: the header is a comma-separated list of
    segments. *)
Definition parse_header (header : string) : list segment :=
  parse_segment <$> split "," header.

(** Milliseconds in a second: times are absolute timestamps in ms. *)
Definition second : Z := 1000.

(** Modelled from the spec: the later of two expiries, either of which
    may be missing. *)
Definition later_expiry (a b : option Z) : option Z :=
  match a, b with
  | Some x, Some y => Some (Z.max x y)
  | Some x, None => Some x
  | None, _ => b
  end.

(** Modelled from the spec: [isRateLimited(category, now)] checks the
    category's entry and the wildcard [all] entry and takes the later
    expiry of the two. *)
Definition isRateLimited (rl : gmap string Z) (category : string) (now : Z) : bool :=
  match later_expiry (rl !! category) (rl !! "all") with
  | Some expiry => now <? expiry
  | None => false
  end.

Section Update.

(** The backoff, in seconds, for a segment without a retry-after value. *)
Variable default_backoff : Z.

(** Modelled from the spec: a segment stores the absolute expiry for each
    of its categories; a segment without categories is the global one and
    stores it for [all].  The scope of a segment is not looked at: the
    limit holds whatever it is. *)
Definition apply_segment (now : Z) (rl : gmap string Z) (seg : segment) : gmap string Z :=
  let expiry := now + default default_backoff (retry_after seg) * second in
  match categories seg with
  | [] => <["all" := expiry]> rl
  | cs => foldl (λ m c, <[c := expiry]> m) rl cs
  end.

(** Modelled from the spec: [update(headers, now)]. *)
Definition update (header : string) (now : Z) (rl : gmap string Z) : gmap string Z :=
  foldl (apply_segment now) rl (parse_header header).

(** ** Facts *)

Lemma isRateLimited_spec (rl : gmap string Z) category now :
  isRateLimited rl category now = true ↔
  ∃ expiry, later_expiry (rl !! category) (rl !! "all") = Some expiry ∧ now < expiry.
Proof.
  unfold isRateLimited.
  destruct (later_expiry (rl !! category) (rl !! "all")) as [e|].
  - rewrite Z.ltb_lt. split; [eauto|]. by intros (e' & [= <-] & H).
  - split; [done|]. by intros (e' & [=] & _).
Qed.

Lemma parse_error_segment :
  parse_header "60:error:key" =
  [{| retry_after := Some 60; categories := ["error"]; scope := Some "key" |}].
Proof. vm_compute. reflexivity. Qed.

Lemma update_error_segment now (rl : gmap string Z) :
  update "60:error:key" now rl = <["error" := now + 60 * second]> rl.
Proof. unfold update. by rewrite parse_error_segment. Qed.

(** Before the later of two expiries: before one of them. *)
Lemma isRateLimited_either (rl : gmap string Z) category now :
  isRateLimited rl category now = true ↔
  (∃ e, rl !! category = Some e ∧ now < e) ∨ (∃ e, rl !! "all" = Some e ∧ now < e).
Proof.
  unfold isRateLimited, later_expiry.
  destruct (rl !! category) as [e|], (rl !! "all") as [ea|]; rewrite ?Z.ltb_lt.
  - split.
    + intros H. destruct (Z.max_spec e ea) as [[_ Hm] | [_ Hm]]; rewrite Hm in H; eauto.
    + intros [(e' & [= <-] & H) | (e' & [= <-] & H)]; lia.
  - split; [eauto|]. by intros [(e' & [= <-] & H) | (e' & [=] & _)].
  - split; [eauto|]. by intros [(e' & [=] & _) | (e' & [= <-] & H)].
  - split; [done|]. by intros [(e' & [=] & _) | (e' & [=] & _)].
Qed.

(** C6.  [isRateLimited(c, now)] holds iff [now] is before the expiry stored
    for [c] or before the one stored for [all], that is, before the later
    of the two: with both stored, it is [now < max].  After an update with
    ["60:error:key"] at time [t], on any limiter, [isRateLimited("error",
    now)] holds for every [now] in [[t, t + 60 s)]; at [t + 61 s] it holds
    only by a wildcard entry that was stored before and ends later, and so
    fails on a limiter without one, a new limiter in particular. *)
Theorem rate_limit_window (rl : gmap string Z) (t now : Z) :
  t ≤ now < t + 60 * second →
  (∀ (rl' : gmap string Z) c n,
     isRateLimited rl' c n = true ↔
     (∃ e, rl' !! c = Some e ∧ n < e) ∨ (∃ e, rl' !! "all" = Some e ∧ n < e)) ∧
  (∀ (rl' : gmap string Z) c n e ea,
     rl' !! c = Some e → rl' !! "all" = Some ea →
     isRateLimited rl' c n = (n <? Z.max e ea)) ∧
  isRateLimited (update "60:error:key" t rl) "error" now = true ∧
  (isRateLimited (update "60:error:key" t rl) "error" (t + 61 * second) = true ↔
   ∃ e, rl !! "all" = Some e ∧ t + 61 * second < e) ∧
  isRateLimited (update "60:error:key" t ∅) "error" (t + 61 * second) = false.
Proof.
  intros Hnow. split; [apply isRateLimited_either|]. split.
  { intros rl' c n e ea Hc Ha. unfold isRateLimited. by rewrite Hc, Ha. }
  rewrite !update_error_segment. split; [|split].
  - apply isRateLimited_either. left. exists (t + 60 * second).
    rewrite lookup_insert_eq. split; [done|lia].
  - rewrite isRateLimited_either, lookup_insert_eq, lookup_insert_ne by done.
    unfold second. split.
    + intros [(e & [= <-] & H) | H]; [lia | done].
    + by right.
  - apply not_true_is_false. rewrite isRateLimited_either.
    rewrite lookup_insert_eq, lookup_insert_ne, lookup_empty by done.
    unfold second. intros [(e & [= <-] & H) | (e & [=] & _)]. lia.
Qed.

End Update.

(** A limiter that already holds a wildcard limit until second 200 and a
    limit for transactions. *)
Definition limited_before : gmap string Z :=
  <["all" := 200 * second]> (<["transaction" := 30 * second]> ∅).

Lemma rate_limit_window_witness :
  (∀ (rl' : gmap string Z) c n,
     isRateLimited rl' c n = true ↔
     (∃ e, rl' !! c = Some e ∧ n < e) ∨ (∃ e, rl' !! "all" = Some e ∧ n < e)) ∧
  (∀ (rl' : gmap string Z) c n e ea,
     rl' !! c = Some e → rl' !! "all" = Some ea →
     isRateLimited rl' c n = (n <? Z.max e ea)) ∧
  isRateLimited (update 60 "60:error:key" 5000 limited_before) "error" 64999 = true ∧
  (isRateLimited (update 60 "60:error:key" 5000 limited_before) "error"
     (5000 + 61 * second) = true ↔
   ∃ e, limited_before !! "all" = Some e ∧ 5000 + 61 * second < e) ∧
  isRateLimited (update 60 "60:error:key" 5000 ∅) "error" (5000 + 61 * second) = false.
Proof. apply (rate_limit_window 60 limited_before 5000 64999). unfold second. lia. Defined.

(** The wildcard entry stored before keeps [error] limited after the 60
    seconds, until its own end. *)
Example wildcard_outlasts_the_window :
  let rl := update 60 "60:error:key" 5000 limited_before in
  isRateLimited rl "error" (5000 + 61 * second) = true ∧
  isRateLimited rl "error" (200 * second - 1) = true ∧
  isRateLimited rl "error" (200 * second) = false.
Proof. vm_compute. done. Qed.

(** Other categories are not limited by the segment, the last instant of
    the window is, and the end of the window is not. *)
Example error_window_edges :
  isRateLimited (update 60 "60:error:key" 5000 ∅) "transaction" 5000 = false ∧
  isRateLimited (update 60 "60:error:key" 5000 ∅) "error" 64999 = true ∧
  isRateLimited (update 60 "60:error:key" 5000 ∅) "error" 65000 = false.
Proof. vm_compute. done. Qed.

(** A segment without categories limits everything; its expiry wins over
    an earlier one of the category. *)
Example global_segment :
  let rl := update 60 "10:error:key,120::organization" 0 ∅ in
  rl !! "error" = Some 10000 ∧ rl !! "all" = Some 120000 ∧
  isRateLimited rl "error" 100000 = true ∧
  isRateLimited rl "session" 119999 = true ∧
  isRateLimited rl "session" 120000 = false.
Proof. vm_compute. done. Qed.

End RateLimiter.

(* ===================================================================== *)
(** * [_enhanceEventWithInitialFrame]: what the store holds afterwards   *)
(* ===================================================================== *)

Module EnhanceFrames.
Import JS GlobalHandlersEvent GlobalHandlersEventFacts.

(** ** Reading [event.exception.values[0].stacktrace.frames] *)

Definition truthy_value (v : value) : option value :=
  if truthy v then Some v else None.

Definition frames_of_stacktrace (h : heap) (ev0s : value) : option (list value) :=
  ms ← obj_at h ev0s;
  f ← truthy_value (field ms "frames");
  arr_at h f.

Definition frames_of_exception (h : heap) (ev0 : value) : option (list value) :=
  m0 ← obj_at h ev0;
  s ← truthy_value (field m0 "stacktrace");
  frames_of_stacktrace h s.

Definition frames_of_values (h : heap) (ev : value) : option (list value) :=
  xs ← arr_at h ev;
  x ← truthy_value (elem xs 0);
  frames_of_exception h x.

Definition frames_of_exception_bag (h : heap) (e : value) : option (list value) :=
  me ← obj_at h e;
  v ← truthy_value (field me "values");
  frames_of_values h v.

(** The frames array of the first exception of [event], when every link
    of the path is there. *)
Definition frames_of (h : heap) (event : loc) : option (list value) :=
  m ← obj_at h (VRef event);
  e ← truthy_value (field m "exception");
  frames_of_exception_bag h e.

(** ** What a run leaves alone *)

(** Every object of [h] is still an object in [h'], with the same value
    (or absence) of every property whose name is not in [W]. *)
Definition keeps_objs (W : list string) (h h' : heap) : Prop :=
  ∀ l m, h !! l = Some (Obj m) →
         ∃ m', h' !! l = Some (Obj m') ∧ ∀ k, k ∉ W → m' !! k = m !! k.

(** Every non-empty array of [h] is the same in [h']. *)
Definition keeps_arrs (h h' : heap) : Prop :=
  ∀ l x xs, h !! l = Some (Arr (x :: xs)) → h' !! l = Some (Arr (x :: xs)).

(** The property names that [_enhanceEventWithInitialFrame] assigns. *)
Definition assigned : list string := ["exception"; "values"; "stacktrace"; "frames"].

Ltac sub_list :=
  let k := fresh "k" in
  intros k; rewrite ?elem_of_cons, ?elem_of_nil; tauto.

Ltac not_in_list :=
  rewrite ?elem_of_cons, ?elem_of_nil; intros ?; intuition discriminate.

Lemma keeps_objs_refl W h : keeps_objs W h h.
Proof. intros l m H. eauto. Qed.

Lemma keeps_objs_trans W1 W2 W h1 h2 h3 :
  keeps_objs W1 h1 h2 → keeps_objs W2 h2 h3 →
  W1 ⊆ W → W2 ⊆ W → keeps_objs W h1 h3.
Proof.
  intros H12 H23 S1 S2 l m Hl.
  destruct (H12 l m Hl) as (m2 & Hl2 & E2).
  destruct (H23 l m2 Hl2) as (m3 & Hl3 & E3).
  exists m3. split; [done|]. intros k Hk.
  rewrite E3, E2; [done|..]; intros Hin; apply Hk; auto.
Qed.

Lemma keeps_arrs_refl h : keeps_arrs h h.
Proof. by intros l x xs H. Qed.

Lemma keeps_arrs_trans h1 h2 h3 :
  keeps_arrs h1 h2 → keeps_arrs h2 h3 → keeps_arrs h1 h3.
Proof. intros H12 H23 l x xs Hl. eauto. Qed.

Lemma keeps_objs_alloc h o : keeps_objs [] h (h ++ [o]).
Proof. intros l m Hl. exists m. split; [by apply lookup_app_l_Some|done]. Qed.

Lemma keeps_arrs_alloc h o : keeps_arrs h (h ++ [o]).
Proof. intros l x xs Hl. by apply lookup_app_l_Some. Qed.

Lemma keeps_objs_set (h : list object) l m k v :
  h !! l = Some (Obj m) → keeps_objs [k] h (<[l := Obj (<[k := v]> m)]> h).
Proof.
  intros Hl l' m' Hl'. destruct (decide (l = l')) as [<-|Hne].
  - rewrite Hl in Hl'. injection Hl' as <-.
    exists (<[k := v]> m). split.
    + apply list_lookup_insert_eq. by eapply lookup_lt_Some.
    + intros k' Hk'. apply lookup_insert_ne. intros ->. apply Hk'. by left.
  - exists m'. by rewrite list_lookup_insert_ne.
Qed.

Lemma keeps_arrs_set_obj (h : list object) l m o :
  h !! l = Some (Obj m) → keeps_arrs h (<[l := o]> h).
Proof.
  intros Hl l' x xs Hl'. rewrite list_lookup_insert_ne; [done|].
  intros <-. congruence.
Qed.

Lemma keeps_objs_set_arr (h : list object) l xs o :
  h !! l = Some (Arr xs) → keeps_objs [] h (<[l := o]> h).
Proof.
  intros Hl l' m Hl'. exists m. split; [|done].
  rewrite list_lookup_insert_ne; [done|]. intros <-. congruence.
Qed.

Lemma keeps_arrs_set_empty (h : list object) l o :
  h !! l = Some (Arr []) → keeps_arrs h (<[l := o]> h).
Proof.
  intros Hl l' x xs Hl'. rewrite list_lookup_insert_ne; [done|].
  intros <-. congruence.
Qed.

Lemma arr_store_lookup (xs : list value) i v : arr_store xs i v !! i = Some v.
Proof.
  unfold arr_store. case_decide as Hi.
  - by apply list_lookup_insert_eq.
  - rewrite lookup_app_r by lia. rewrite lookup_app_r by (rewrite length_replicate; lia).
    rewrite length_replicate. by replace (i - length xs - (i - length xs))%nat with 0%nat by lia.
Qed.

(** After [const x = (o.k = o.k || init)]: [x] is truthy and is what [o.k]
    holds; the store is the old one, or [x] is a new cell holding [init]. *)
Lemma or_init_inv h o k init h1 x :
  or_init h o k init = Some (h1, x) →
  truthy x = true ∧
  (∃ m1, obj_at h1 o = Some m1 ∧ m1 !! k = Some x) ∧
  keeps_objs [k] h h1 ∧ keeps_arrs h h1 ∧
  (h1 = h ∨ (x = VRef (length h) ∧ h1 !! length h = Some init)).
Proof.
  unfold or_init, get_prop. destruct o as [p|l]; [done|].
  destruct (h !! l) as [[m|xs]|] eqn:Hl; simpl; try done.
  fold (field m k). destruct (truthy (field m k)) eqn:T.
  - unfold set_prop. rewrite Hl. simpl. intros [= <- <-].
    rewrite (insert_id m k (field m k)) by by apply truthy_field_lookup.
    rewrite list_insert_id by done.
    split; [done|]. split.
    { exists m. simpl. rewrite Hl. split; [done|]. by apply truthy_field_lookup. }
    split; [apply keeps_objs_refl|]. split; [apply keeps_arrs_refl|]. by left.
  - unfold alloc, set_prop. rewrite (lookup_app_l_Some _ _ _ _ Hl). simpl.
    intros [= <- <-]. split; [done|].
    assert (Hl' : (h ++ [init]) !! l = Some (Obj m)) by by apply lookup_app_l_Some.
    split.
    { exists (<[k := VRef (length h)]> m). simpl.
      rewrite list_lookup_insert_eq by by eapply lookup_lt_Some.
      split; [done|]. apply lookup_insert_eq. }
    split.
    { eapply keeps_objs_trans; [apply keeps_objs_alloc | by apply keeps_objs_set | |];
        sub_list. }
    split.
    { eapply keeps_arrs_trans; [apply keeps_arrs_alloc | by eapply keeps_arrs_set_obj]. }
    right. split; [done|]. by eapply lookup_fresh.
Qed.

(** The same after [const x = (a[i] = a[i] || init)]. *)
Lemma or_init_index_inv h a i init h1 x :
  or_init_index h a i init = Some (h1, x) →
  truthy x = true ∧
  (∃ xs1, arr_at h1 a = Some xs1 ∧ xs1 !! i = Some x) ∧
  keeps_objs [] h h1 ∧
  (h1 = h ∨ (x = VRef (length h) ∧ h1 !! length h = Some init)).
Proof.
  unfold or_init_index, get_index. destruct a as [p|l]; [done|].
  destruct (h !! l) as [[m|xs]|] eqn:Hl; simpl; try done.
  fold (elem xs i). destruct (truthy (elem xs i)) eqn:T.
  - unfold set_index. rewrite Hl. simpl. intros [= <- <-].
    rewrite arr_store_id by by apply truthy_elem_lookup.
    rewrite list_insert_id by done.
    split; [done|]. split.
    { exists xs. simpl. rewrite Hl. split; [done|]. by apply truthy_elem_lookup. }
    split; [apply keeps_objs_refl|]. by left.
  - unfold alloc, set_index. rewrite (lookup_app_l_Some _ _ _ _ Hl). simpl.
    intros [= <- <-]. split; [done|].
    assert (Hl' : (h ++ [init]) !! l = Some (Arr xs)) by by apply lookup_app_l_Some.
    split.
    { exists (arr_store xs i (VRef (length h))). simpl.
      rewrite list_lookup_insert_eq by by eapply lookup_lt_Some.
      split; [done|]. apply arr_store_lookup. }
    split.
    { eapply keeps_objs_trans;
        [apply keeps_objs_alloc | by eapply keeps_objs_set_arr | |]; done. }
    right. split; [done|]. by eapply lookup_fresh.
Qed.

Lemma obj_at_keeps W h h' o m k x :
  obj_at h o = Some m → m !! k = Some x → k ∉ W → keeps_objs W h h' →
  ∃ m', obj_at h' o = Some m' ∧ field m' k = x.
Proof.
  intros Ho Hk HW K. destruct (obj_at_inv _ _ _ Ho) as (l & -> & Hl).
  destruct (K l m Hl) as (m' & Hl' & E). exists m'. simpl. rewrite Hl'.
  split; [done|]. unfold field. by rewrite E, Hk.
Qed.

Lemma truthy_value_true v : truthy v = true → truthy_value v = Some v.
Proof. unfold truthy_value. by intros ->. Qed.

Section Stages.
Variables (href : string) (url line column : prim) (event : loc).

(** The frame that a run pushes. *)
Definition pushed_frame : object :=
  initial_frame (number_or_undefined column) (filename_of href url)
    (number_or_undefined line).

(** [post h h' fs]: the frames read after the run are [fs], not empty; the
    store is the one before the run, or [fs] is the one new frame. *)
Definition post (h h' : heap) (fs : option (list value)) : Prop :=
  ∃ l, fs = Some l ∧ l ≠ [] ∧
       (h' = h ∨ ∃ n, l = [VRef n] ∧ h' !! n = Some pushed_frame).

Lemma from_frames_inv h f h' r :
  from_frames href url line column event h f = Some (h', r) →
  r = event ∧ keeps_objs [] h h' ∧ keeps_arrs h h' ∧ post h h' (arr_at h' f).
Proof.
  unfold from_frames, arr_length. destruct f as [p|l]; [done|].
  destruct (h !! l) as [[m|xs]|] eqn:Hl; simpl; try done.
  destruct xs as [|x xs]; simpl.
  - unfold arr_push. rewrite (lookup_app_l_Some _ _ _ _ Hl). simpl.
    intros [= <- <-]. split; [done|].
    assert (Hl' : (h ++ [pushed_frame]) !! l = Some (Arr []))
      by by apply lookup_app_l_Some.
    split.
    { eapply keeps_objs_trans;
        [apply keeps_objs_alloc | by eapply keeps_objs_set_arr | |]; done. }
    split.
    { eapply keeps_arrs_trans; [apply keeps_arrs_alloc | by eapply keeps_arrs_set_empty]. }
    exists [VRef (length h)]. split.
    { by rewrite list_lookup_insert_eq by by eapply lookup_lt_Some. }
    split; [done|]. right. exists (length h). split; [done|]. by eapply lookup_fresh.
  - intros [= <- <-]. split; [done|].
    split; [apply keeps_objs_refl|]. split; [apply keeps_arrs_refl|].
    exists (x :: xs). rewrite Hl. split; [done|]. split; [done|]. by left.
Qed.

Lemma from_stacktrace_inv h v h' r :
  from_stacktrace href url line column event h v = Some (h', r) →
  r = event ∧ keeps_objs ["frames"] h h' ∧ keeps_arrs h h' ∧
  post h h' (frames_of_stacktrace h' v).
Proof.
  unfold from_stacktrace.
  destruct (or_init h v "frames" (Arr [])) as [[h1 x]|] eqn:E; simpl; [|done].
  destruct (or_init_inv _ _ _ _ _ _ E) as (Tx & (m1 & Ho1 & Hk) & K1 & A1 & D).
  intros Hrun.
  destruct (from_frames_inv _ _ _ _ Hrun) as (-> & K2 & A2 & (l & Hl & Hne & D2)).
  split; [done|]. split.
  { eapply keeps_objs_trans; [exact K1 | exact K2 | |]; sub_list. }
  split; [by eapply keeps_arrs_trans|].
  exists l. split.
  { destruct (obj_at_keeps [] h1 h' v m1 "frames" x) as (m' & Ho' & Hf');
      [done | done | not_in_list | done |].
    unfold frames_of_stacktrace. rewrite Ho'. simpl. rewrite Hf'.
    by rewrite truthy_value_true. }
  split; [done|].
  destruct D2 as [-> | ?]; [|by right].
  destruct D as [-> | [-> Hnew]]; [by left|].
  simpl in Hl. rewrite Hnew in Hl. by injection Hl as <-.
Qed.

Lemma from_exception_inv h v h' r :
  from_exception href url line column event h v = Some (h', r) →
  r = event ∧ keeps_objs ["stacktrace"; "frames"] h h' ∧ keeps_arrs h h' ∧
  post h h' (frames_of_exception h' v).
Proof.
  unfold from_exception.
  destruct (or_init h v "stacktrace" (Obj ∅)) as [[h1 x]|] eqn:E; simpl; [|done].
  destruct (or_init_inv _ _ _ _ _ _ E) as (Tx & (m1 & Ho1 & Hk) & K1 & A1 & D).
  intros Hrun.
  destruct (from_stacktrace_inv _ _ _ _ Hrun) as (-> & K2 & A2 & (l & Hl & Hne & D2)).
  split; [done|]. split.
  { eapply keeps_objs_trans; [exact K1 | exact K2 | |]; sub_list. }
  split; [by eapply keeps_arrs_trans|].
  exists l. split.
  { destruct (obj_at_keeps ["frames"] h1 h' v m1 "stacktrace" x) as (m' & Ho' & Hf');
      [done | done | not_in_list | done |].
    unfold frames_of_exception. rewrite Ho'. simpl. rewrite Hf'.
    by rewrite truthy_value_true. }
  split; [done|].
  destruct D2 as [-> | ?]; [|by right].
  destruct D as [-> | [-> Hnew]]; [by left|].
  unfold frames_of_stacktrace in Hl. simpl in Hl. rewrite Hnew in Hl. done.
Qed.

Lemma from_values_inv h v h' r :
  from_values href url line column event h v = Some (h', r) →
  r = event ∧ keeps_objs ["stacktrace"; "frames"] h h' ∧
  post h h' (frames_of_values h' v).
Proof.
  unfold from_values.
  destruct (or_init_index h v 0 (Obj ∅)) as [[h1 x]|] eqn:E; simpl; [|done].
  destruct (or_init_index_inv _ _ _ _ _ _ E) as (Tx & (xs1 & Ha1 & Hx) & K1 & D).
  intros Hrun.
  destruct (from_exception_inv _ _ _ _ Hrun) as (-> & K2 & A2 & (l & Hl & Hne & D2)).
  split; [done|]. split.
  { eapply keeps_objs_trans; [exact K1 | exact K2 | |]; sub_list. }
  exists l. split.
  { destruct (arr_at_inv _ _ _ Ha1) as (la & -> & Hla).
    destruct xs1 as [|x1 xs1]; [done|]. injection Hx as ->.
    unfold frames_of_values. simpl. rewrite (A2 _ _ _ Hla). simpl.
    unfold elem. simpl. by rewrite truthy_value_true. }
  split; [done|].
  destruct D2 as [-> | ?]; [|by right].
  destruct D as [-> | [-> Hnew]]; [by left|].
  unfold frames_of_exception in Hl. simpl in Hl. rewrite Hnew in Hl. done.
Qed.

Lemma from_exception_bag_inv h v h' r :
  from_exception_bag href url line column event h v = Some (h', r) →
  r = event ∧ keeps_objs ["values"; "stacktrace"; "frames"] h h' ∧
  post h h' (frames_of_exception_bag h' v).
Proof.
  unfold from_exception_bag.
  destruct (or_init h v "values" (Arr [])) as [[h1 x]|] eqn:E; simpl; [|done].
  destruct (or_init_inv _ _ _ _ _ _ E) as (Tx & (m1 & Ho1 & Hk) & K1 & A1 & D).
  intros Hrun.
  destruct (from_values_inv _ _ _ _ Hrun) as (-> & K2 & (l & Hl & Hne & D2)).
  split; [done|]. split.
  { eapply keeps_objs_trans; [exact K1 | exact K2 | |]; sub_list. }
  exists l. split.
  { destruct (obj_at_keeps ["stacktrace"; "frames"] h1 h' v m1 "values" x)
      as (m' & Ho' & Hf'); [done | done | not_in_list | done |].
    unfold frames_of_exception_bag. rewrite Ho'. simpl. rewrite Hf'.
    by rewrite truthy_value_true. }
  split; [done|].
  destruct D2 as [-> | ?]; [|by right].
  destruct D as [-> | [-> Hnew]]; [by left|].
  unfold frames_of_values in Hl. simpl in Hl. rewrite Hnew in Hl. done.
Qed.

(** Whenever a run returns: it returns [event]; objects keep every
    property but the four assigned ones; the frames of the event are there
    and not empty; and the store is untouched or the frames are the one
    new frame. *)
Lemma enhance_inv h h' r :
  _enhanceEventWithInitialFrame href h event url line column = Some (h', r) →
  r = event ∧ keeps_objs assigned h h' ∧ post h h' (frames_of h' event).
Proof.
  rewrite enhance_unfold.
  destruct (or_init h (VRef event) "exception" (Obj ∅)) as [[h1 x]|] eqn:E;
    simpl; [|done].
  destruct (or_init_inv _ _ _ _ _ _ E) as (Tx & (m1 & Ho1 & Hk) & K1 & A1 & D).
  intros Hrun.
  destruct (from_exception_bag_inv _ _ _ _ Hrun) as (-> & K2 & (l & Hl & Hne & D2)).
  split; [done|]. split.
  { eapply keeps_objs_trans; [exact K1 | exact K2 | |]; unfold assigned; sub_list. }
  exists l. split.
  { destruct (obj_at_keeps ["values"; "stacktrace"; "frames"] h1 h'
                (VRef event) m1 "exception" x)
      as (m' & Ho' & Hf'); [done | done | not_in_list | done |].
    unfold frames_of. rewrite Ho'. simpl. rewrite Hf'.
    by rewrite truthy_value_true. }
  split; [done|].
  destruct D2 as [-> | ?]; [|by right].
  destruct D as [-> | [-> Hnew]]; [by left|].
  unfold frames_of_exception_bag in Hl. simpl in Hl. rewrite Hnew in Hl. done.
Qed.

End Stages.

(** An event whose frames can be read, and are not empty, has the [Event]
    shape and its initial frame. *)
Lemma frames_of_stacktrace_full h v y ys :
  frames_of_stacktrace h v = Some (y :: ys) →
  stacktrace_shape h v = true ∧ stacktrace_full h v = true.
Proof.
  unfold frames_of_stacktrace, stacktrace_shape, stacktrace_full,
    link_ok, link_full, truthy_value.
  destruct (obj_at h v) as [m|]; simpl; [|done].
  destruct (truthy (field m "frames")); simpl; [|done].
  intros ->. split; [|done]. apply bool_decide_eq_true. eauto.
Qed.

Lemma frames_of_exception_full h v y ys :
  frames_of_exception h v = Some (y :: ys) →
  exception_shape h v = true ∧ exception_full h v = true.
Proof.
  unfold frames_of_exception, exception_shape, exception_full,
    link_ok, link_full, truthy_value.
  destruct (obj_at h v) as [m|]; simpl; [|done].
  destruct (truthy (field m "stacktrace")); simpl; [|done].
  apply frames_of_stacktrace_full.
Qed.

Lemma frames_of_values_full h v y ys :
  frames_of_values h v = Some (y :: ys) →
  values_shape h v = true ∧ values_full h v = true.
Proof.
  unfold frames_of_values, values_shape, values_full,
    link_ok, link_full, truthy_value.
  destruct (arr_at h v) as [xs|]; simpl; [|done].
  destruct (truthy (elem xs 0)); simpl; [|done].
  apply frames_of_exception_full.
Qed.

Lemma frames_of_exception_bag_full h v y ys :
  frames_of_exception_bag h v = Some (y :: ys) →
  exception_bag_shape h v = true ∧ exception_bag_full h v = true.
Proof.
  unfold frames_of_exception_bag, exception_bag_shape, exception_bag_full,
    link_ok, link_full, truthy_value.
  destruct (obj_at h v) as [m|]; simpl; [|done].
  destruct (truthy (field m "values")); simpl; [|done].
  apply frames_of_values_full.
Qed.

Lemma frames_of_full h event y ys :
  frames_of h event = Some (y :: ys) →
  event_shape h event = true ∧ has_initial_frame h event = true.
Proof.
  unfold frames_of, event_shape, has_initial_frame, link_ok, link_full, truthy_value.
  destruct (obj_at h (VRef event)) as [m|]; simpl; [|done].
  destruct (truthy (field m "exception")); simpl; [|done].
  apply frames_of_exception_bag_full.
Qed.

(** A run on an event of the [Event] shape returns, with the facts of
    [enhance_inv]. *)
Lemma enhance_runs href url line column event h :
  event_shape h event = true →
  ∃ h', _enhanceEventWithInitialFrame href h event url line column = Some (h', event) ∧
        keeps_objs assigned h h' ∧
        post href url line column h h' (frames_of h' event).
Proof.
  intros Hs.
  destruct (enhance_outcome href url line column event h Hs) as (h' & E & _).
  exists h'. split; [done|]. by destruct (enhance_inv _ _ _ _ _ _ _ _ E) as (_ & ? & ?).
Qed.

(** After [_enhanceEventWithInitialFrame] on an event of the [Event] shape,
    [event.exception.values[0].stacktrace.frames] exists and has at least
    one frame. *)
Theorem enhance_ensures_a_frame href h event url line column :
  event_shape h event = true →
  ∃ h' y ys,
    _enhanceEventWithInitialFrame href h event url line column = Some (h', event) ∧
    frames_of h' event = Some (y :: ys).
Proof.
  intros Hs.
  destruct (enhance_runs href url line column event h Hs)
    as (h' & E & _ & (l & Hl & Hne & _)).
  destruct l as [|y ys]; [done|]. by exists h', y, ys.
Qed.

Lemma enhance_ensures_a_frame_witness :
  ∃ h' y ys,
    _enhanceEventWithInitialFrame "http://localhost/" bare_event_store 0
      PUndefined PUndefined PUndefined = Some (h', 0%nat) ∧
    frames_of h' 0 = Some (y :: ys).
Proof. apply enhance_ensures_a_frame. vm_compute. reflexivity. Defined.

(** [_enhanceEventWithInitialFrame] is idempotent: a second call on the
    same event, with whatever url, line and column, finds the frame of the
    first call and leaves the store as it is. *)
Theorem enhance_twice href h event url line column :
  event_shape h event = true →
  ∃ h',
    _enhanceEventWithInitialFrame href h event url line column = Some (h', event) ∧
    ∀ href' url' line' column',
      _enhanceEventWithInitialFrame href' h' event url' line' column' = Some (h', event).
Proof.
  intros Hs.
  destruct (enhance_runs href url line column event h Hs)
    as (h' & E & _ & (l & Hf & Hne & _)).
  destruct l as [|y ys]; [done|].
  exists h'. split; [done|]. intros href' url' line' column'.
  destruct (frames_of_full _ _ _ _ Hf) as [Hs' Hfull].
  destruct (enhance_outcome href' url' line' column' event h' Hs') as (h'' & E' & Hh).
  rewrite Hfull in Hh. by subst h''.
Qed.

Lemma enhance_twice_witness :
  ∃ h',
    _enhanceEventWithInitialFrame "http://localhost/" bare_event_store 0
      (PString "app.js") (PNumber (Fin 3)) PUndefined = Some (h', 0%nat) ∧
    ∀ href' url' line' column',
      _enhanceEventWithInitialFrame href' h' 0 url' line' column' = Some (h', 0%nat).
Proof. apply enhance_twice. vm_compute. reflexivity. Defined.

(** On an event of the [Event] shape that has no frame yet, the frames
    after the call are exactly one new frame, with [function: '?'],
    [in_app: true], the url (or the page's location when the url is not a
    non-empty string) as file name, and line and column as given when
    [parseInt] reads a number from them, [undefined] otherwise. *)
Theorem enhance_pushes_initial_frame href h event url line column :
  event_shape h event = true →
  has_initial_frame h event = false →
  ∃ h' n,
    _enhanceEventWithInitialFrame href h event url line column = Some (h', event) ∧
    frames_of h' event = Some [VRef n] ∧
    h' !! n = Some (initial_frame (number_or_undefined column)
                      (filename_of href url) (number_or_undefined line)).
Proof.
  intros Hs Hnone.
  destruct (enhance_runs href url line column event h Hs)
    as (h' & E & _ & (l & Hl & Hne & [-> | (n & -> & Hn)])).
  - destruct l as [|y ys]; [done|].
    destruct (frames_of_full _ _ _ _ Hl) as [_ Hfull]. congruence.
  - by exists h', n.
Qed.

Lemma enhance_pushes_initial_frame_witness :
  ∃ h' n,
    _enhanceEventWithInitialFrame "http://localhost/" bare_event_store 0
      (PString "") (PString "7") (PString "col") = Some (h', 0%nat) ∧
    frames_of h' 0 = Some [VRef n] ∧
    h' !! n = Some (initial_frame (number_or_undefined (PString "col"))
                      (filename_of "http://localhost/" (PString ""))
                      (number_or_undefined (PString "7"))).
Proof. apply enhance_pushes_initial_frame; vm_compute; reflexivity. Defined.

(** [_enhanceEventWithInitialFrame] assigns [exception], [values],
    [stacktrace] and [frames] and nothing else: every object of the store
    is still an object afterwards, and each of its other properties ([level],
    [message], [type], [value], ...) is present or absent as before, with
    the same value. *)
Theorem enhance_keeps_other_properties href h event url line column :
  event_shape h event = true →
  ∃ h',
    _enhanceEventWithInitialFrame href h event url line column = Some (h', event) ∧
    ∀ l m, h !! l = Some (Obj m) →
           ∃ m', h' !! l = Some (Obj m') ∧
                 ∀ k, k ∉ ["exception"; "values"; "stacktrace"; "frames"] →
                      m' !! k = m !! k.
Proof.
  intros Hs.
  destruct (enhance_runs href url line column event h Hs) as (h' & E & K & _).
  by exists h'.
Qed.

Lemma enhance_keeps_other_properties_witness :
  ∃ h',
    _enhanceEventWithInitialFrame "http://localhost/" framed_event_store 0
      PUndefined PUndefined PUndefined = Some (h', 0%nat) ∧
    ∀ l m, framed_event_store !! l = Some (Obj m) →
           ∃ m', h' !! l = Some (Obj m') ∧
                 ∀ k, k ∉ ["exception"; "values"; "stacktrace"; "frames"] →
                      m' !! k = m !! k.
Proof. apply enhance_keeps_other_properties. vm_compute. reflexivity. Defined.

(** ** What was there stays: the run only fills in what is missing *)

(** A cell after a write, compared with the cell before: an object still
    has every truthy property it had, an array every truthy element. *)
Definition cell_keeps (c c' : object) : Prop :=
  match c, c' with
  | Obj m, Obj m' => ∀ k, truthy (field m k) = true → m' !! k = m !! k
  | Arr xs, Arr xs' => ∀ i, truthy (elem xs i) = true → xs' !! i = xs !! i
  | _, _ => False
  end.

(** Every cell of [h] is in [h'] at the same place, with every link
    (truthy property or element) it had. *)
Definition keeps_links (h h' : heap) : Prop :=
  ∀ l c, h !! l = Some c → ∃ c', h' !! l = Some c' ∧ cell_keeps c c'.

Lemma cell_keeps_refl c : cell_keeps c c.
Proof. by destruct c. Qed.

Lemma cell_keeps_trans c1 c2 c3 : cell_keeps c1 c2 → cell_keeps c2 c3 → cell_keeps c1 c3.
Proof.
  destruct c1 as [m1|xs1], c2 as [m2|xs2], c3 as [m3|xs3]; simpl; try done.
  - intros H12 H23 k T. rewrite <- (H12 k T). apply H23.
    unfold field in *. by rewrite (H12 k T).
  - intros H12 H23 i T. rewrite <- (H12 i T). apply H23.
    unfold elem in *. by rewrite (H12 i T).
Qed.

Lemma keeps_links_refl h : keeps_links h h.
Proof. intros l c Hl. exists c. split; [done | apply cell_keeps_refl]. Qed.

Lemma keeps_links_trans h1 h2 h3 :
  keeps_links h1 h2 → keeps_links h2 h3 → keeps_links h1 h3.
Proof.
  intros H12 H23 l c1 Hl.
  destruct (H12 l c1 Hl) as (c2 & Hl2 & K12).
  destruct (H23 l c2 Hl2) as (c3 & Hl3 & K23).
  exists c3. split; [done|]. by eapply cell_keeps_trans.
Qed.

(** A new cell is appended and one cell is written. *)
Lemma keeps_links_write (h : list object) l c c' o :
  h !! l = Some c → cell_keeps c c' → keeps_links h (<[l := c']> (h ++ [o])).
Proof.
  intros Hl K l1 c1 Hl1. destruct (decide (l = l1)) as [<-|Hne].
  - exists c'. rewrite list_lookup_insert_eq.
    + split; [done|]. congruence.
    + rewrite length_app. apply lookup_lt_Some in Hl. lia.
  - exists c1. rewrite list_lookup_insert_ne by done.
    split; [by apply lookup_app_l_Some | apply cell_keeps_refl].
Qed.

Lemma arr_store_other (xs : list value) i j v :
  i ≠ j → (j < length xs)%nat → arr_store xs i v !! j = xs !! j.
Proof.
  intros Hne Hj. unfold arr_store. case_decide.
  - by apply list_lookup_insert_ne.
  - by apply lookup_app_l.
Qed.

Lemma or_init_links h o k init h1 x :
  or_init h o k init = Some (h1, x) → keeps_links h h1.
Proof.
  unfold or_init, get_prop. destruct o as [p|l]; [done|].
  destruct (h !! l) as [[m|xs]|] eqn:Hl; simpl; try done.
  fold (field m k). destruct (truthy (field m k)) eqn:T.
  - unfold set_prop. rewrite Hl. simpl. intros [= <- <-].
    rewrite (insert_id m k (field m k)) by by apply truthy_field_lookup.
    rewrite list_insert_id by done. apply keeps_links_refl.
  - unfold alloc, set_prop. rewrite (lookup_app_l_Some _ _ _ _ Hl). simpl.
    intros [= <- <-]. eapply keeps_links_write; [done|].
    intros k' T'. apply lookup_insert_ne. intros <-. congruence.
Qed.

Lemma or_init_index_links h a i init h1 x :
  or_init_index h a i init = Some (h1, x) → keeps_links h h1.
Proof.
  unfold or_init_index, get_index. destruct a as [p|l]; [done|].
  destruct (h !! l) as [[m|xs]|] eqn:Hl; simpl; try done.
  fold (elem xs i). destruct (truthy (elem xs i)) eqn:T.
  - unfold set_index. rewrite Hl. simpl. intros [= <- <-].
    rewrite arr_store_id by by apply truthy_elem_lookup.
    rewrite list_insert_id by done. apply keeps_links_refl.
  - unfold alloc, set_index. rewrite (lookup_app_l_Some _ _ _ _ Hl). simpl.
    intros [= <- <-]. eapply keeps_links_write; [done|].
    intros j T'. apply arr_store_other.
    + intros <-. congruence.
    + apply truthy_elem_lookup in T'. by eapply lookup_lt_Some.
Qed.

Lemma from_frames_links href url line column event h f h' r :
  from_frames href url line column event h f = Some (h', r) → keeps_links h h'.
Proof.
  unfold from_frames, arr_length. destruct f as [p|l]; [done|].
  destruct (h !! l) as [[m|xs]|] eqn:Hl; simpl; try done.
  destruct xs as [|x xs]; simpl.
  - unfold arr_push. rewrite (lookup_app_l_Some _ _ _ _ Hl). simpl.
    intros [= <- <-]. eapply keeps_links_write; [done|].
    intros i T. unfold elem in T. by rewrite lookup_nil in T.
  - intros [= <- <-]. apply keeps_links_refl.
Qed.

(** Whenever a run returns, every cell has the links it had. *)
Lemma enhance_links href h event url line column h' r :
  _enhanceEventWithInitialFrame href h event url line column = Some (h', r) →
  keeps_links h h'.
Proof.
  rewrite enhance_unfold.
  unfold from_exception_bag, from_values, from_exception, from_stacktrace.
  destruct (or_init h (VRef event) "exception" (Obj ∅)) as [[h1 e]|] eqn:E1;
    simpl; [|done].
  destruct (or_init h1 e "values" (Arr [])) as [[h2 ev]|] eqn:E2; simpl; [|done].
  destruct (or_init_index h2 ev 0 (Obj ∅)) as [[h3 ev0]|] eqn:E3; simpl; [|done].
  destruct (or_init h3 ev0 "stacktrace" (Obj ∅)) as [[h4 ev0s]|] eqn:E4; simpl; [|done].
  destruct (or_init h4 ev0s "frames" (Arr [])) as [[h5 ev0sf]|] eqn:E5; simpl; [|done].
  intros E6.
  eapply keeps_links_trans; [by eapply or_init_links|].
  eapply keeps_links_trans; [by eapply or_init_links|].
  eapply keeps_links_trans; [by eapply or_init_index_links|].
  eapply keeps_links_trans; [by eapply or_init_links|].
  eapply keeps_links_trans; [by eapply or_init_links|].
  by eapply from_frames_links.
Qed.

(** C2, amended.  [_enhanceEventWithInitialFrame] builds no new event: for
    every event of the [Event] shape and every url, line and column it
    returns the very reference it was given and works on the caller's
    store.  Read from the caller's reference after the call, the path
    [event.exception.values[0].stacktrace.frames] is there and holds a
    frame; when the event had none, it holds exactly the one new frame,
    made from url, line and column.  What was there before stays: every
    cell keeps the links it had and every object its properties other
    than the four assigned ones.  The store comes back unchanged exactly
    when the event already had a frame. *)
Theorem enhance_fills_in_place href h event url line column :
  event_shape h event = true →
  ∃ h',
    _enhanceEventWithInitialFrame href h event url line column = Some (h', event) ∧
    (h' = h ↔ has_initial_frame h event = true) ∧
    (∃ y ys, frames_of h' event = Some (y :: ys)) ∧
    (has_initial_frame h event = false →
     ∃ n, frames_of h' event = Some [VRef n] ∧
          h' !! n = Some (initial_frame (number_or_undefined column)
                            (filename_of href url) (number_or_undefined line))) ∧
    keeps_links h h' ∧
    keeps_objs ["exception"; "values"; "stacktrace"; "frames"] h h'.
Proof.
  intros Hs.
  destruct (enhance_runs href url line column event h Hs)
    as (h' & E & K & (l & Hl & Hne & Hpost)).
  destruct (enhance_outcome href url line column event h Hs) as (h0 & E0 & Hh).
  assert (h0 = h') as -> by congruence.
  exists h'. split; [done|]. split; [|split; [|split; [|split]]].
  - destruct (has_initial_frame h event).
    + by split.
    + split; [|discriminate]. intros ->. lia.
  - destruct l as [|y ys]; [done|]. eauto.
  - intros Hnone. destruct Hpost as [-> | (n & -> & Hn)].
    + destruct l as [|y ys]; [done|].
      destruct (frames_of_full _ _ _ _ Hl) as [_ Hfull]. congruence.
    + by exists n.
  - by eapply enhance_links.
  - exact K.
Qed.

Lemma enhance_fills_in_place_witness :
  ∃ h',
    _enhanceEventWithInitialFrame "http://localhost/" bare_event_store 0
      (PString "app.js") (PNumber (Fin 3)) (PString "x") = Some (h', 0%nat) ∧
    (h' = bare_event_store ↔ has_initial_frame bare_event_store 0 = true) ∧
    (∃ y ys, frames_of h' 0 = Some (y :: ys)) ∧
    (has_initial_frame bare_event_store 0 = false →
     ∃ n, frames_of h' 0 = Some [VRef n] ∧
          h' !! n = Some (initial_frame (number_or_undefined (PString "x"))
                            (filename_of "http://localhost/" (PString "app.js"))
                            (number_or_undefined (PNumber (Fin 3))))) ∧
    keeps_links bare_event_store h' ∧
    keeps_objs ["exception"; "values"; "stacktrace"; "frames"] bare_event_store h'.
Proof. apply enhance_fills_in_place. vm_compute. reflexivity. Defined.

End EnhanceFrames.

(* ===================================================================== *)
(** * Line and column numbers of the initial frame                        *)
(* ===================================================================== *)

Module LineColumn.
Import JS GlobalHandlersEvent.

Definition is_digit (c : Ascii.ascii) : bool :=
  match digit_of c with Some _ => true | None => false end.

Lemma digit_of_pretty_N_char (r : N) :
  (r < 10)%N → digit_of (pretty_N_char r) = Some (Z.of_N r).
Proof.
  intros Hr.
  assert (r = 0 ∨ r = 1 ∨ r = 2 ∨ r = 3 ∨ r = 4 ∨ r = 5 ∨ r = 6 ∨ r = 7 ∨
          r = 8 ∨ r = 9)%N as H by lia.
  repeat (destruct H as [-> | H]; [reflexivity|]). by subst.
Qed.

(** Reading back the digits that [pretty_N_go] puts in front of [s]. *)
Lemma digits_go_pretty_N_go (x : N) :
  ∀ acc s, (0 < x)%N →
    ∃ p, digits_go acc (pretty_N_go x s) =
         digits_go (Some (default 0 acc * p + Z.of_N x)) s.
Proof.
  induction (N.lt_wf_0 x) as [x _ IH]. intros acc s Hx.
  rewrite pretty_N_go_step by done.
  assert (Hr : (x `mod` 10 < 10)%N) by by apply N.mod_lt.
  pose proof (N.div_mod x 10 ltac:(done)) as Hdm.
  destruct (decide (x `div` 10 = 0)%N) as [Hq | Hq].
  - rewrite Hq, pretty_N_go_0. simpl. rewrite (digit_of_pretty_N_char _ Hr).
    exists 10. do 2 f_equal. lia.
  - destruct (IH (x `div` 10)%N) with (acc := acc)
      (s := String (pretty_N_char (x `mod` 10)) s) as [p Hp].
    { apply N.div_lt; lia. }
    { lia. }
    rewrite Hp. simpl. rewrite (digit_of_pretty_N_char _ Hr). simpl.
    exists (10 * p). do 2 f_equal. lia.
Qed.

(** The decimal notation of a positive number starts with a digit. *)
Lemma pretty_N_go_head (x : N) :
  ∀ s, (0 < x)%N → ∃ c r, pretty_N_go x s = String c r ∧ is_digit c = true.
Proof.
  induction (N.lt_wf_0 x) as [x _ IH]. intros s Hx.
  rewrite pretty_N_go_step by done.
  assert (Hr : (x `mod` 10 < 10)%N) by by apply N.mod_lt.
  destruct (decide (x `div` 10 = 0)%N) as [Hq | Hq].
  - rewrite Hq, pretty_N_go_0. eexists _, _. split; [done|].
    unfold is_digit. by rewrite (digit_of_pretty_N_char _ Hr).
  - apply IH.
    + apply N.div_lt; lia.
    + destruct (x `div` 10)%N; [done | lia].
Qed.

Lemma is_digit_plain c :
  is_digit c = true →
  is_space c = false ∧ c ≠ "-"%char ∧ c ≠ "+"%char.
Proof.
  destruct c as [[] [] [] [] [] [] [] []]; vm_compute; intros; try done;
    repeat split; discriminate.
Qed.

Lemma is_digit_ascii c : is_digit c = true → (Ascii.nat_of_ascii c < 128)%nat.
Proof.
  intros H. apply Nat.ltb_lt. revert H.
  destruct c as [[] [] [] [] [] [] [] []]; vm_compute; intros; done.
Qed.

(** A text that starts with a character of ASCII that is not white space
    has nothing to trim. *)
Lemma trim_start_plain a r :
  is_space a = false → (Ascii.nat_of_ascii a < 128)%nat →
  trim_start (String a r) = String a r.
Proof.
  intros Hs Ha. cbn [trim_start]. rewrite Hs.
  destruct r as [|b [|c r2]]; [done|..].
  - unfold is_space2. by destruct (Nat.eqb_spec (Ascii.nat_of_ascii a) 194); [lia|].
  - unfold is_space2, is_space3. cbv zeta.
    destruct (Nat.eqb_spec (Ascii.nat_of_ascii a) 194); [lia|].
    destruct (Nat.eqb_spec (Ascii.nat_of_ascii a) 225); [lia|].
    destruct (Nat.eqb_spec (Ascii.nat_of_ascii a) 226); [lia|].
    destruct (Nat.eqb_spec (Ascii.nat_of_ascii a) 227); [lia|].
    destruct (Nat.eqb_spec (Ascii.nat_of_ascii a) 239); [lia|].
    done.
Qed.

Lemma pretty_Z_pos (p : positive) : pretty (Z.pos p) = pretty_N_go (N.pos p) "".
Proof. reflexivity. Qed.

Lemma pretty_Z_neg (p : positive) :
  pretty (Z.neg p) = String "-" (pretty_N_go (N.pos p) "").
Proof. reflexivity. Qed.

(** [parseInt] of a text that starts with a digit reads its digits. *)
Lemma parseInt_head p c r :
  ToString p = String c r → is_digit c = true →
  parseInt p = match digits_go None (String c r) with
               | Some n => Fin n
               | None => NaN
               end.
Proof.
  intros E Hc. unfold parseInt. rewrite E.
  destruct (is_digit_plain c Hc) as (Hs & Hm & Hp).
  rewrite (trim_start_plain c r Hs (is_digit_ascii c Hc)).
  destruct c as [[] [] [] [] [] [] [] []]; try done.
Qed.

Lemma parseInt_positive (p : positive) :
  parseInt (PNumber (Fin (Z.pos p))) = Fin (Z.pos p).
Proof.
  destruct (pretty_N_go_head (N.pos p) "" ltac:(done)) as (c & r & E & Hc).
  destruct (digits_go_pretty_N_go (N.pos p) None "" ltac:(done)) as [q Hq].
  rewrite (parseInt_head _ c r); [|by rewrite <- E|done].
  rewrite <- E, Hq. simpl. f_equal.
Qed.

Lemma parseInt_negative (p : positive) :
  parseInt (PNumber (Fin (Z.neg p))) = Fin (Z.neg p).
Proof.
  destruct (digits_go_pretty_N_go (N.pos p) None "" ltac:(done)) as [q Hq].
  unfold parseInt. cbn [ToString]. rewrite pretty_Z_neg.
  rewrite trim_start_plain; [|done|vm_compute; lia].
  rewrite Hq. simpl. f_equal.
Qed.

(** [parseInt(String(z), 10)] is [z], for every integer [z]. *)
Lemma parseInt_integer z : parseInt (PNumber (Fin z)) = Fin z.
Proof.
  destruct z as [|p|p]; [done | apply parseInt_positive | apply parseInt_negative].
Qed.

(** The line (or column) of the frame is the argument itself when it is an
    integer, and [undefined] when it is [undefined], [null], a boolean,
    [NaN] or an infinity.  A string is never converted: it is dropped, or
    kept as the string it is, and the decimal text of an integer is kept
    as a string. *)
Theorem number_or_undefined_cases :
  (∀ z, number_or_undefined (PNumber (Fin z)) = PNumber (Fin z)) ∧
  (∀ p, (p = PUndefined ∨ p = PNull ∨ (∃ b, p = PBool b) ∨ p = PNumber NaN ∨
         ∃ s, p = PNumber (Infinity s)) →
        number_or_undefined p = PUndefined) ∧
  (∀ s, number_or_undefined (PString s) = PString s ∨
        number_or_undefined (PString s) = PUndefined) ∧
  (∀ z : Z, number_or_undefined (PString (pretty z)) = PString (pretty z)).
Proof.
  split; [|split; [|split]].
  - intros z. unfold number_or_undefined. by rewrite parseInt_integer.
  - intros p [-> | [-> | [[[] ->] | [-> | [[] ->]]]]]; reflexivity.
  - intros s. unfold number_or_undefined. destruct (isNaN _); auto.
  - intros z. unfold number_or_undefined.
    change (parseInt (PString (pretty z))) with (parseInt (PNumber (Fin z))).
    by rewrite parseInt_integer.
Qed.

Lemma number_or_undefined_cases_witness :
  number_or_undefined (PNumber (Fin 12)) = PNumber (Fin 12) ∧
  number_or_undefined (PNumber (Infinity true)) = PUndefined ∧
  number_or_undefined (PString " 12px") = PString " 12px" ∧
  number_or_undefined (PString "12") = PString "12".
Proof.
  destruct number_or_undefined_cases as (Hint & Hundef & _ & Htext).
  split; [apply Hint|]. split; [apply Hundef; repeat right; by eexists|].
  split; [reflexivity | apply (Htext 12)].
Defined.

(** White space before the digits is skipped, whatever its width: a line
    given as a no-break space, or a line separator, and ["12"] is kept. *)
Example number_after_wide_space :
  let nbsp := utf8 [194; 160] +:+ "12" in
  let ls := utf8 [226; 128; 168] +:+ " 7" in
  number_or_undefined (PString nbsp) = PString nbsp ∧
  number_or_undefined (PString ls) = PString ls ∧
  number_or_undefined (PString (utf8 [195; 160] +:+ "12")) = PUndefined.
Proof. vm_compute. done. Qed.

End LineColumn.

(* ===================================================================== *)
(** * Replay: what the XHR data preparation reads, and what it does not   *)
(* ===================================================================== *)

Module ReplayDetails.
Import JSString Replay.

Lemma lower_char_idem c : lower_char (lower_char c) = lower_char c.
Proof. by destruct c as [[] [] [] [] [] [] [] []]. Qed.

Lemma toLowerCase_idem s : toLowerCase (toLowerCase s) = toLowerCase s.
Proof. induction s as [|c s IH]; [done|]. simpl. by rewrite lower_char_idem, IH. Qed.

Section Details.

Variable exn : Type.
Variable TypeError : string → exn.
Variables (R XHR Body Pattern ReqOrRes Warning XhrInfo : Type).

(** What is shared by the two variants compared below. *)
Variable urlMatches : string → list Pattern → res exn bool.
Variable buildSkippedNetworkRequestOrResponse : option Z → res exn (option ReqOrRes).

(** ** [_getXhrResponseBody] *)

Section Body.
Variable responseText : XHR → res exn string.
Variable response : XHR → res exn (option Body).
Variable getBodyString : option Body → res exn (option string * option Warning).
Variable DEBUG_BUILD : bool.

(** The second attempt: [getBodyString(xhr.response)]. *)
Definition second_attempt (x : XHR) : res exn (option string * option Warning) :=
  match response x with
  | Ok r => getBodyString r
  | Throw e => Throw e
  end.

(** [_getXhrResponseBody] never throws, and leaves the clock and the replay
    container alone.  It returns [xhr.responseText] when reading it
    succeeds; otherwise what [getBodyString(xhr.response)] gives; and
    when that throws too, no body and no warning, with one debug warning
    that carries both errors. *)
Theorem _getXhrResponseBody_never_throws (x : XHR) (w : world exn R) :
  ∃ body w',
    _getXhrResponseBody exn R XHR Body Warning responseText response getBodyString
      DEBUG_BUILD x w = (Ok body, w') ∧
    clock exn R w' = clock exn R w ∧ replay exn R w' = replay exn R w ∧
    match responseText x with
    | Ok text => body = (Some text, None) ∧ w' = w
    | Throw e1 =>
        match second_attempt x with
        | Ok b => body = b ∧ w' = w
        | Throw e2 =>
            body = (None, None) ∧
            log exn R w' = log exn R w ++
              (if DEBUG_BUILD
               then [LogWarn "[Replay] Failed to get xhr response body" [e1; e2]]
               else [])
        end
    end.
Proof.
  unfold _getXhrResponseBody, second_attempt, bind, lift, when_debug, ret, logger_warn.
  destruct (responseText x) as [text|e1]; [by eexists _, _|].
  destruct (response x) as [r|e2].
  - destruct (getBodyString r) as [b|e2]; [by eexists _, _|].
    destruct DEBUG_BUILD; eexists _, _; repeat split; simpl; by rewrite ?app_nil_r.
  - destruct DEBUG_BUILD; eexists _, _; repeat split; simpl; by rewrite ?app_nil_r.
Qed.

End Body.

(** ** [getResponseHeaders] *)

Definition header_line (acc : gmap string (option string)) (line : string)
  : gmap string (option string) :=
  let parts := split ": " line in
  assign_key acc (toLowerCase (default "" (parts !! 0%nat))) (parts !! 1%nat).

Definition lower_keys (hs : gmap string (option string)) : Prop :=
  ∀ k, is_Some (hs !! k) → toLowerCase k = k.

Lemma header_lines_lower lines acc :
  lower_keys acc → lower_keys (foldl header_line acc lines).
Proof.
  revert acc. induction lines as [|line lines IH]; intros acc Hacc; [done|].
  simpl. apply IH. intros k. unfold header_line, assign_key.
  destruct (String.eqb _ "__proto__"); [apply Hacc|].
  destruct (decide (toLowerCase (default "" (split ": " line !! 0%nat)) = k)) as [<-|Hne].
  - intros _. apply toLowerCase_idem.
  - rewrite lookup_insert_ne by done. apply Hacc.
Qed.

(** [getResponseHeaders] throws only what [xhr.getAllResponseHeaders()]
    throws and changes nothing; it gives the empty record for an empty
    header text; and every key of the record it builds is in lower case. *)
Theorem getResponseHeaders_lower_case
    (getAllResponseHeaders : XHR → res exn string) (x : XHR) (w : world exn R) :
  match getAllResponseHeaders x with
  | Throw e => getResponseHeaders exn R XHR getAllResponseHeaders x w = (Throw e, w)
  | Ok text =>
      ∃ hs, getResponseHeaders exn R XHR getAllResponseHeaders x w = (Ok hs, w) ∧
            (text = "" → hs = ∅) ∧
            ∀ k, is_Some (hs !! k) → toLowerCase k = k
  end.
Proof.
  unfold getResponseHeaders, bind, lift, ret.
  destruct (getAllResponseHeaders x) as [text|e]; [|done].
  destruct (String.eqb_spec text "") as [->|Hne].
  - exists ∅. repeat split. intros k [v Hv]. by rewrite lookup_empty in Hv.
  - eexists. split; [done|]. split; [done|].
    apply (header_lines_lower _ ∅). intros k [v Hv]. by rewrite lookup_empty in Hv.
Qed.

(** ** [_prepareXhrData] *)

(** The hint has an XHR object and the url of the breadcrumb is in the
    allow list and not in the deny list. *)
Definition details_allowed (breadcrumb : Breadcrumb) (hint : XhrHint XHR Body)
    (options : ReplayNetworkOptions Pattern) : Prop :=
  ∃ x d u, xhr hint = Some x ∧ data breadcrumb = Some d ∧ url d = Some u ∧
           urlMatches u (networkDetailAllowUrls options) = Ok true ∧
           urlMatches u (networkDetailDenyUrls options) = Ok false.

Section Variants.
Variables getAllResponseHeaders1 getAllResponseHeaders2 : XHR → res exn string.
Variables responseText1 responseText2 : XHR → res exn string.
Variables response1 response2 : XHR → res exn (option Body).
Variables SENTRY_XHR_DATA1 SENTRY_XHR_DATA2 : XHR → option XhrInfo.
Variables request_headers1 request_headers2 : XhrInfo → gmap string (option string).
Variables getAllowedHeaders1 getAllowedHeaders2 :
  gmap string (option string) → list string → res exn (gmap string (option string)).
Variables getBodyString1 getBodyString2 :
  option Body → res exn (option string * option Warning).
Variables buildNetworkRequestOrResponse1 buildNetworkRequestOrResponse2 :
  gmap string (option string) → option Z → option string → res exn (option ReqOrRes).
Variables mergeWarning1 mergeWarning2 :
  option ReqOrRes → Warning → res exn (option ReqOrRes).
Variables DEBUG_BUILD1 DEBUG_BUILD2 : bool.

(** Unless the details are allowed, [_prepareXhrData] reads nothing of the
    XHR object (headers, response text, response) and of the request
    body: whatever those are, and whatever the header and body helpers
    do, the outcome is the same. *)
Theorem prepare_reads_no_details_unless_allowed breadcrumb hint options w :
  ¬ details_allowed breadcrumb hint options →
  _prepareXhrData exn TypeError R XHR Body Pattern ReqOrRes Warning XhrInfo
    getAllResponseHeaders1 responseText1 response1 SENTRY_XHR_DATA1 request_headers1
    urlMatches buildSkippedNetworkRequestOrResponse getAllowedHeaders1 getBodyString1
    buildNetworkRequestOrResponse1 mergeWarning1 DEBUG_BUILD1 breadcrumb hint options w =
  _prepareXhrData exn TypeError R XHR Body Pattern ReqOrRes Warning XhrInfo
    getAllResponseHeaders2 responseText2 response2 SENTRY_XHR_DATA2 request_headers2
    urlMatches buildSkippedNetworkRequestOrResponse getAllowedHeaders2 getBodyString2
    buildNetworkRequestOrResponse2 mergeWarning2 DEBUG_BUILD2 breadcrumb hint options w.
Proof.
  intros Hno. unfold _prepareXhrData, bind at 1 3, Date_now.
  destruct (data breadcrumb) as [d|] eqn:Hd; [|done].
  destruct (url d) as [[|c u]|] eqn:Hu; [done| |done].
  destruct (xhr hint) as [x|] eqn:Hx; [|done].
  unfold bind at 1 8, lift at 1 7.
  destruct (urlMatches (String c u) (networkDetailAllowUrls options)) as [[]|e] eqn:Ha;
    [|done|done].
  unfold bind at 1 7, lift at 1 6.
  destruct (urlMatches (String c u) (networkDetailDenyUrls options)) as [[]|e] eqn:Hdeny;
    [done| |done].
  exfalso. apply Hno. by exists x, d, (String c u).
Qed.

(** With [networkCaptureBodies] off, no body is read: the outcome does not
    depend on the request body helper, on [xhr.responseText] or on
    [xhr.response]. *)
Theorem prepare_reads_no_bodies_unless_asked
    getAllResponseHeaders SENTRY_XHR_DATA request_headers getAllowedHeaders
    buildNetworkRequestOrResponse breadcrumb hint options w :
  networkCaptureBodies options = false →
  _prepareXhrData exn TypeError R XHR Body Pattern ReqOrRes Warning XhrInfo
    getAllResponseHeaders responseText1 response1 SENTRY_XHR_DATA request_headers
    urlMatches buildSkippedNetworkRequestOrResponse getAllowedHeaders getBodyString1
    buildNetworkRequestOrResponse mergeWarning1 DEBUG_BUILD1 breadcrumb hint options w =
  _prepareXhrData exn TypeError R XHR Body Pattern ReqOrRes Warning XhrInfo
    getAllResponseHeaders responseText2 response2 SENTRY_XHR_DATA request_headers
    urlMatches buildSkippedNetworkRequestOrResponse getAllowedHeaders getBodyString2
    buildNetworkRequestOrResponse mergeWarning2 DEBUG_BUILD2 breadcrumb hint options w.
Proof.
  intros Hoff. unfold _prepareXhrData. rewrite Hoff.
  cbv [bind ret lift with_warning fst snd]. reflexivity.
Qed.

End Variants.

End Details.

(** ** Two XHR objects for one request *)

Definition url_in_list (u : string) (ps : list string) : res string bool :=
  Ok (bool_decide (Exists (λ p, String.prefix p u = true) ps)).

(** The preparation over an XHR object given by its header text, its
    response text and its response. *)
Definition prepare_with
    (headers responseText : unit → res string string)
    (response : unit → res string (option string))
    (getBodyString : option string → res string (option string * option string))
    (debug : bool) :=
  _prepareXhrData string (λ s, s) (list string) unit string string string string unit
    headers responseText response (λ _, None) (λ _, ∅)
    url_in_list (λ _, Ok None) (λ hs _, Ok hs) getBodyString
    (λ _ _ body, Ok body) (λ r _, Ok r) debug.

Definition other_site : Breadcrumb :=
  {| data := Some {| url := Some "https://other.example/login"; method := Some "POST";
                     status_code := Some 200; request_body_size := Some 31;
                     response_body_size := None |} |}.

Definition hint_with_xhr : XhrHint unit string :=
  {| startTimestamp := None; endTimestamp := None;
     input := Some "password=hunter2"; xhr := Some tt |}.

Lemma prepare_reads_no_details_unless_allowed_witness :
  prepare_with (λ _, Ok "Set-Cookie: a=b") (λ _, Ok "secret") (λ _, Ok None)
    (λ b, Ok (b, None)) true other_site hint_with_xhr demo_options demo_world =
  prepare_with (λ _, Throw "no headers") (λ _, Throw "no text") (λ _, Throw "no response")
    (λ _, Throw "no body") false other_site hint_with_xhr demo_options demo_world.
Proof.
  unfold prepare_with. apply prepare_reads_no_details_unless_allowed.
  intros (x & d & u & _ & Hd & Hu & Ha & _).
  injection Hd as <-. injection Hu as <-. vm_compute in Ha. discriminate.
Defined.

Definition no_bodies : ReplayNetworkOptions string :=
  {| networkDetailAllowUrls := ["https://api.example/"];
     networkDetailDenyUrls := [];
     networkCaptureBodies := false;
     networkRequestHeaders := [];
     networkResponseHeaders := ["content-type"] |}.

Lemma prepare_reads_no_bodies_unless_asked_witness :
  prepare_with (λ _, Ok "Content-Type: text/plain") (λ _, Ok "secret") (λ _, Ok None)
    (λ b, Ok (b, None)) true demo_breadcrumb hint_with_xhr no_bodies demo_world =
  prepare_with (λ _, Ok "Content-Type: text/plain") (λ _, Throw "no text")
    (λ _, Throw "no response") (λ _, Throw "no body") false
    demo_breadcrumb hint_with_xhr no_bodies demo_world.
Proof.
  unfold prepare_with. apply prepare_reads_no_bodies_unless_asked. reflexivity.
Defined.

(** With the details allowed and bodies asked for, the header keys come
    out in lower case and the response text is in the data. *)
Example prepare_allowed_request :
  (prepare_with (λ _, Ok "Content-Type: text/plain") (λ _, Ok "hello") (λ _, Ok None)
     (λ b, Ok (b, None)) true demo_breadcrumb hint_with_xhr demo_options demo_world).1 =
  Ok (Some (Build_ReplayNetworkRequestData 25 25 "https://api.example/users"
              (Some "GET") 200 (Some "password=hunter2") (Some "hello"))).
Proof. vm_compute. reflexivity. Qed.

End ReplayDetails.

(* ===================================================================== *)
(** * Replay: [enrichXhrBreadcrumb]                                       *)
(* ===================================================================== *)

Module ReplayEnrich.
Import Replay.

Section Enrich.

Variable exn : Type.
Variable TypeError : string → exn.
Variables (XHR Body TextEncoder : Type).

(** The host's XHR object and the helpers of [./networkUtils]. *)
Variable getResponseHeader : XHR → string → res exn (option string).
Variable response : XHR → res exn (option Body).
Variable getBodySize : option Body → TextEncoder → res exn (option Z).
Variable parseContentLengthHeader : option string → res exn (option Z).

Definition bind_res {A B} (r : res exn A) (k : A → res exn B) : res exn B :=
  match r with
  | Ok a => k a
  | Throw e => Throw e
  end.

Notation "'let?' x ':=' r 'in' k" := (bind_res r (λ x, k))
  (at level 10, x binder, r at level 100, k at level 200).

(** A header value is truthy when it is there and not empty. *)
Definition header_present (v : option string) : bool :=
  match v with
  | Some s => negb (String.eqb s "")
  | None => false
  end.

(** The two sizes, computed before anything is assigned. *)
Definition sizes (hint : XhrHint XHR Body) (x : XHR) (textEncoder : TextEncoder)
  : res exn (option Z * option Z) :=
  let? reqSize := getBodySize (input hint) textEncoder in
  let? header := getResponseHeader x "content-length" in
  let? resSize :=
    (if header_present header
     then let? again := getResponseHeader x "content-length" in
          parseContentLengthHeader again
     else let? r := response x in
          getBodySize r textEncoder) in
  Ok (reqSize, resSize).

(** [breadcrumb.data.request_body_size = reqSize] and the like: a write to
    a property of [breadcrumb.data], which throws when there is no data. *)
Definition assign (breadcrumb : Breadcrumb)
    (f : XhrBreadcrumbData → XhrBreadcrumbData) : res exn Breadcrumb :=
  match data breadcrumb with
  | Some d => Ok {| data := Some (f d) |}
  | None => Throw (TypeError "Cannot set properties of undefined")
  end.

Definition set_request_body_size (v : Z) (d : XhrBreadcrumbData) : XhrBreadcrumbData :=
  {| url := url d; method := method d; status_code := status_code d;
     request_body_size := Some v; response_body_size := response_body_size d |}.

Definition set_response_body_size (v : Z) (d : XhrBreadcrumbData) : XhrBreadcrumbData :=
  {| url := url d; method := method d; status_code := status_code d;
     request_body_size := request_body_size d; response_body_size := Some v |}.

(** [enrichXhrBreadcrumb(breadcrumb, hint, options)]: how the call ends and
    the breadcrumb afterwards. *)
Definition enrichXhrBreadcrumb (breadcrumb : Breadcrumb) (hint : XhrHint XHR Body)
    (textEncoder : TextEncoder) : res exn unit * Breadcrumb :=
  match xhr hint with
  | None => (Ok tt, breadcrumb)
  | Some x =>
      match sizes hint x textEncoder with
      | Throw e => (Throw e, breadcrumb)
      | Ok (reqSize, resSize) =>
          let first :=
            match reqSize with
            | Some v => assign breadcrumb (set_request_body_size v)
            | None => Ok breadcrumb
            end in
          match first with
          | Throw e => (Throw e, breadcrumb)
          | Ok b1 =>
              match resSize with
              | Some v =>
                  match assign b1 (set_response_body_size v) with
                  | Ok b2 => (Ok tt, b2)
                  | Throw e => (Throw e, b1)
                  end
              | None => (Ok tt, b1)
              end
          end
      end
  end.

(** ** Facts *)

(** On a breadcrumb with data, [enrichXhrBreadcrumb] touches the two body
    sizes only, and never erases one: url, method and status code stay,
    and a size that was there is still there.  Without an XHR object in
    the hint nothing happens; when the call throws, the breadcrumb is
    as it was. *)
Theorem enrichXhrBreadcrumb_changes_sizes_only breadcrumb d hint textEncoder :
  data breadcrumb = Some d →
  ∃ d',
    data (enrichXhrBreadcrumb breadcrumb hint textEncoder).2 = Some d' ∧
    url d' = url d ∧ method d' = method d ∧ status_code d' = status_code d ∧
    (is_Some (request_body_size d) → is_Some (request_body_size d')) ∧
    (is_Some (response_body_size d) → is_Some (response_body_size d')) ∧
    (xhr hint = None →
     enrichXhrBreadcrumb breadcrumb hint textEncoder = (Ok tt, breadcrumb)) ∧
    (∀ e, (enrichXhrBreadcrumb breadcrumb hint textEncoder).1 = Throw e →
          (enrichXhrBreadcrumb breadcrumb hint textEncoder).2 = breadcrumb).
Proof.
  intros Hd. unfold enrichXhrBreadcrumb, assign.
  destruct (xhr hint) as [x|]; [|by exists d].
  destruct (sizes hint x textEncoder) as [[[v1|] [v2|]]|e]; rewrite ?Hd; simpl;
    rewrite ?Hd; simpl;
    (eexists; split; [reflexivity|]; simpl;
     repeat (split; [by eauto|]); by intros).
Qed.

(** The sizes that end up in the breadcrumb: the computed one where there
    is one, the previous one otherwise; the response size is read from the
    [content-length] header when the header is there, and [xhr.response]
    is then not measured. *)
Theorem enrichXhrBreadcrumb_sizes breadcrumb d hint x textEncoder reqSize resSize :
  data breadcrumb = Some d →
  xhr hint = Some x →
  sizes hint x textEncoder = Ok (reqSize, resSize) →
  enrichXhrBreadcrumb breadcrumb hint textEncoder =
    (Ok tt,
     {| data := Some {| url := url d; method := method d; status_code := status_code d;
                        request_body_size :=
                          match reqSize with Some v => Some v | None => request_body_size d end;
                        response_body_size :=
                          match resSize with Some v => Some v | None => response_body_size d end
                     |} |}) ∧
  (∀ header, getResponseHeader x "content-length" = Ok (Some header) → header ≠ "" →
             Ok resSize = parseContentLengthHeader (Some header)).
Proof.
  intros Hd Hx Hs. split.
  - unfold enrichXhrBreadcrumb, assign. rewrite Hx, Hs.
    destruct breadcrumb as [bd]. simpl in Hd. subst bd. destruct d.
    by destruct reqSize, resSize.
  - intros header Hh Hne. unfold sizes, bind_res in Hs. rewrite Hh in Hs.
    destruct (getBodySize (input hint) textEncoder) as [rq|]; [|done].
    simpl in Hs. apply String.eqb_neq in Hne. rewrite Hne in Hs. simpl in Hs.
    destruct (parseContentLengthHeader (Some header)) as [rs|]; [|done].
    by injection Hs as _ <-.
Qed.

End Enrich.

(** ** A request with a [content-length] header *)

Definition demo_header (x : unit) (name : string) : res string (option string) :=
  Ok (if String.eqb name "content-length" then Some "512" else None).

Definition demo_response (x : unit) : res string (option string) :=
  Throw "response is not readable".

Definition demo_getBodySize (body : option string) (te : unit) : res string (option Z) :=
  Ok (Z.of_nat <$> (String.length <$> body)).

Definition demo_parse (v : option string) : res string (option Z) :=
  Ok (v ≫= JS.digits_go None).

Definition demo_enrich :=
  enrichXhrBreadcrumb string (λ s, s) unit string unit
    demo_header demo_response demo_getBodySize demo_parse.

Definition posted : XhrHint unit string :=
  {| startTimestamp := None; endTimestamp := None; input := Some "a=1"; xhr := Some tt |}.

Definition get_users_data : XhrBreadcrumbData :=
  {| url := Some "https://api.example/users"; method := Some "GET";
     status_code := Some 200; request_body_size := None;
     response_body_size := Some 12 |}.

Definition get_users : Breadcrumb := {| data := Some get_users_data |}.

Lemma enrichXhrBreadcrumb_changes_sizes_only_witness :
  ∃ d',
    data (demo_enrich get_users posted tt).2 = Some d' ∧
    url d' = url get_users_data ∧ method d' = method get_users_data ∧
    status_code d' = status_code get_users_data ∧
    (is_Some (request_body_size get_users_data) → is_Some (request_body_size d')) ∧
    (is_Some (response_body_size get_users_data) → is_Some (response_body_size d')) ∧
    (xhr posted = None → demo_enrich get_users posted tt = (Ok tt, get_users)) ∧
    (∀ e, (demo_enrich get_users posted tt).1 = Throw e →
          (demo_enrich get_users posted tt).2 = get_users).
Proof.
  unfold demo_enrich. apply enrichXhrBreadcrumb_changes_sizes_only. reflexivity.
Defined.

Lemma enrichXhrBreadcrumb_sizes_witness :
  demo_enrich get_users posted tt =
    (Ok tt,
     {| data := Some {| url := url get_users_data; method := method get_users_data;
                        status_code := status_code get_users_data;
                        request_body_size :=
                          match Some 3 with
                          | Some v => Some v
                          | None => request_body_size get_users_data
                          end;
                        response_body_size :=
                          match Some 512 with
                          | Some v => Some v
                          | None => response_body_size get_users_data
                          end |} |}) ∧
  (∀ header, demo_header tt "content-length" = Ok (Some header) → header ≠ "" →
             Ok (Some 512) = demo_parse (Some header)).
Proof.
  unfold demo_enrich.
  apply (enrichXhrBreadcrumb_sizes string (λ s, s) unit string unit
           demo_header demo_response demo_getBodySize demo_parse
           get_users get_users_data posted tt tt (Some 3) (Some 512));
    reflexivity.
Defined.

Example enrich_demo :
  demo_enrich get_users posted tt =
  (Ok tt,
   {| data := Some {| url := Some "https://api.example/users"; method := Some "GET";
                      status_code := Some 200; request_body_size := Some 3;
                      response_body_size := Some 512 |} |}).
Proof. vm_compute. reflexivity. Qed.

End ReplayEnrich.

(* ===================================================================== *)
(** * Replay: which of the two XHR functions swallows a failure            *)
(* ===================================================================== *)

Module ReplayCapturePath.
Import Replay ReplayEnrich.

Section Path.

Variable exn : Type.
Variable TypeError : string → exn.
Variables (R XHR Body Pattern ReqOrRes Warning PerfEntry XhrInfo TextEncoder : Type).

(** The host's XHR object. *)
Variable getAllResponseHeaders : XHR → res exn string.
Variable getResponseHeader : XHR → string → res exn (option string).
Variable responseText : XHR → res exn string.
Variable response : XHR → res exn (option Body).
Variable SENTRY_XHR_DATA : XHR → option XhrInfo.
Variable request_headers : XhrInfo → gmap string (option string).

(** [./networkUtils] and [./addNetworkBreadcrumb]. *)
Variable urlMatches : string → list Pattern → res exn bool.
Variable buildSkippedNetworkRequestOrResponse : option Z → res exn (option ReqOrRes).
Variable getAllowedHeaders :
  gmap string (option string) → list string → res exn (gmap string (option string)).
Variable getBodyString : option Body → res exn (option string * option Warning).
Variable getBodySize : option Body → TextEncoder → res exn (option Z).
Variable parseContentLengthHeader : option string → res exn (option Z).
Variable buildNetworkRequestOrResponse :
  gmap string (option string) → option Z → option string → res exn (option ReqOrRes).
Variable mergeWarning : option ReqOrRes → Warning → res exn (option ReqOrRes).
Variable makeNetworkReplayBreadcrumb :
  string → option (ReplayNetworkRequestData ReqOrRes) → res exn (option PerfEntry).
Variable addNetworkBreadcrumb : R → option PerfEntry → R * res exn unit.
Variable DEBUG_BUILD : bool.



Definition enrich :=
  enrichXhrBreadcrumb exn TypeError XHR Body TextEncoder
    getResponseHeader response getBodySize parseContentLengthHeader.




End Path.

(** ** An XHR object that refuses to give its headers *)

Definition refusing_header (x : unit) (name : string) : res string (option string) :=
  Throw "InvalidStateError".

Definition refusing_enrich :=
  enrich string (λ s, s) unit string unit refusing_header demo_response
    demo_getBodySize demo_parse.


Example refused_header_reaches_the_caller :
  refusing_enrich get_users posted tt = (Throw "InvalidStateError", get_users).
Proof. vm_compute. reflexivity. Qed.

End ReplayCapturePath.

(* ===================================================================== *)
(** * [globalhandlers.ts]: events of [onerror] calls and rejections       *)
(* ===================================================================== *)

Module GlobalHandlersBuilders.
Import JS JSString GlobalHandlersEvent GlobalHandlersEventFacts.

(** ** [ERROR_TYPES_RE]

    The pattern, with the flag [i], is in sequence: the start of the
    text; optionally ["Uncaught "] or ["uncaught "] with, optionally,
    ["exception: "] after it; optionally group 1, which is one of [Eval],
    [Internal], [Range], [Reference], [Syntax], [Type], [URI] or nothing,
    followed by [Error], and after the group [": "]; group 2, any
    characters but line terminators, as many as there are; the end of
    the text.

    The pattern is anchored at both ends and its last part takes any text
    without a line terminator.  So it matches a message iff the
    message has no line terminator, and the match is the greedy one: the
    prefix ["uncaught "] if it is there, then ["exception: "] if it is
    there, then an error type followed by [": "] if it is there; letters
    are compared without regard to case. *)

Definition char_eq_ci (a b : Ascii.ascii) : bool :=
  Ascii.eqb (lower_char a) (lower_char b).

(** Cut [s] after a prefix that is [p] up to the case of letters: the
    prefix as it is written in [s], and the rest. *)
Fixpoint split_prefix_ci (p s : string) : option (string * string) :=
  match p with
  | EmptyString => Some (EmptyString, s)
  | String a p' =>
      match s with
      | String b s' =>
          if char_eq_ci a b
          then '(c, r) ← split_prefix_ci p' s'; Some (String b c, r)
          else None
      | EmptyString => None
      end
  end.

(** The line terminators of one byte: [\n] and [\r]. *)
Definition is_line_terminator (c : Ascii.ascii) : bool :=
  let n := Ascii.nat_of_ascii c in (n =? 10)%nat || (n =? 13)%nat.

(** The line separator U+2028 and the paragraph separator U+2029, which
    are the bytes [E2 80 A8] and [E2 80 A9]. *)
Definition is_separator_lead (a : Ascii.ascii) : bool :=
  (Ascii.nat_of_ascii a =? 226)%nat.

Definition is_separator_tail (r : string) : bool :=
  match r with
  | String b (String c _) =>
      ((Ascii.nat_of_ascii b =? 128)
       && ((Ascii.nat_of_ascii c =? 168) || (Ascii.nat_of_ascii c =? 169)))%nat
  | _ => false
  end.

(** Whether the text holds a character that [.] does not match. *)
Fixpoint has_line_terminator (s : string) : bool :=
  match s with
  | EmptyString => false
  | String a r =>
      is_line_terminator a
      || is_separator_lead a && is_separator_tail r
      || has_line_terminator r
  end.

Definition error_type_alternatives : list string :=
  ["Eval"; "Internal"; "Range"; "Reference"; "Syntax"; "Type"; "URI"; ""].

(** [(?:((?:Eval|...|)Error): )]: the text of group 1 and the rest. *)
Fixpoint match_error_type (alternatives : list string) (s : string)
  : option (string * string) :=
  match alternatives with
  | [] => None
  | a :: alternatives' =>
      match split_prefix_ci (a +:+ "Error") s with
      | Some (name, r) =>
          match split_prefix_ci ": " r with
          | Some (_, rest) => Some (name, rest)
          | None => match_error_type alternatives' s
          end
      | None => match_error_type alternatives' s
      end
  end.

(** [(?:[Uu]ncaught (?:exception: )?)?]: the text after the prefix. *)
Definition skip_uncaught (s : string) : string :=
  match split_prefix_ci "uncaught " s with
  | Some (_, r) =>
      match split_prefix_ci "exception: " r with
      | Some (_, r') => r'
      | None => r
      end
  | None => s
  end.

(** [message.match(ERROR_TYPES_RE)]: [None] for no match, else
    [(groups[1], groups[2])], where [groups[1]] is [None] for [undefined]. *)
Definition ERROR_TYPES_RE (message : string) : option (option string * string) :=
  if has_line_terminator message then None
  else
    let s := skip_uncaught message in
    match match_error_type error_type_alternatives s with
    | Some (name, rest) => Some (Some name, rest)
    | None => Some (None, s)
    end.

(** ** [_eventFromIncompleteOnError] *)

(** The first argument: a string, or an [ErrorEvent] with its message. *)
Inductive onerror_msg : Type :=
| MsgString (s : string)
| MsgErrorEvent (message : string).

(** [name] and [message] after [if (groups) { name = groups[1]; message =
    groups[2]; }]. *)
Definition name_and_message (msg : onerror_msg) : prim * string :=
  let message := match msg with MsgString s => s | MsgErrorEvent m => m end in
  match ERROR_TYPES_RE message with
  | Some (Some name, rest) => (PString name, rest)
  | Some (None, rest) => (PUndefined, rest)
  | None => (PString "Error", message)
  end.

(** The cells of [{ exception: { values: [{ type, value }] } }], allocated
    from location [n] on. *)
Definition exception_event (n : nat) (type : prim) (value : string) : list object :=
  [ Obj (<["exception" := VRef (n + 1)]> ∅);
    Obj (<["values" := VRef (n + 2)]> ∅);
    Arr [VRef (n + 3)];
    Obj (<["type" := VPrim type]> (<["value" := VPrim (PString value)]> ∅)) ].

Definition _eventFromIncompleteOnError
    (href : string) (h : heap) (msg : onerror_msg) (url line column : prim)
  : option (heap * loc) :=
  let '(name, message) := name_and_message msg in
  let event := length h in
  _enhanceEventWithInitialFrame href (h ++ exception_event event name message)
    event url line column.

(** ** [_eventFromRejectionWithPrimitive] *)

Definition _eventFromRejectionWithPrimitive (h : heap) (reason : prim) : heap * loc :=
  let event := length h in
  (h ++ exception_event event (PString "UnhandledRejection")
          ("Non-Error promise rejection captured with value: " +:+ ToString reason),
   event).

(** ** [_getUnhandledRejectionError] *)

Inductive completion (A : Type) : Type :=
| Normal (a : A)
| ThrowsTypeError.
Arguments Normal {A}.
Arguments ThrowsTypeError {A}.

(** [k in v]: a [TypeError] on a primitive.  [None]: the reference is
    dangling. *)
Definition has_property (h : heap) (v : value) (k : string) : option (completion bool) :=
  match v with
  | VPrim _ => Some ThrowsTypeError
  | VRef l =>
      match h !! l with
      | Some (Obj m) => Some (Normal (bool_decide (is_Some (m !! k))))
      | Some (Arr _) => Some (Normal false)
      | None => None
      end
  end.

(** [v.k] for a reference to an object that has the property. *)
Definition property (h : heap) (v : value) (k : string) : value :=
  default (VPrim PUndefined) (get_prop h v k).

Section Rejection.

(** [isPrimitive] of [@sentry/utils]. *)
Variable isPrimitive : value → bool.

(** The [try] block: [Normal (Some v)] for [return v], [Normal None] when
    the block ends without returning. *)
Definition dig_reason (h : heap) (e : value) : option (completion (option value)) :=
  in_e ← has_property h e "reason";
  match in_e with
  | ThrowsTypeError => Some ThrowsTypeError
  | Normal true => Some (Normal (Some (property h e "reason")))
  | Normal false =>
      has_detail ← has_property h e "detail";
      match has_detail with
      | ThrowsTypeError => Some ThrowsTypeError
      | Normal false => Some (Normal None)
      | Normal true =>
          in_detail ← has_property h (property h e "detail") "reason";
          match in_detail with
          | ThrowsTypeError => Some ThrowsTypeError
          | Normal true =>
              Some (Normal (Some (property h (property h e "detail") "reason")))
          | Normal false => Some (Normal None)
          end
      end
  end.

Definition _getUnhandledRejectionError (h : heap) (error : value)
  : option (completion value) :=
  if isPrimitive error then Some (Normal error)
  else
    (* try { ... } catch {} *)
    r ← dig_reason h error;
    match r with
    | Normal (Some v) => Some (Normal v)
    | Normal None | ThrowsTypeError => Some (Normal error)
    end.

End Rejection.

(** ** Facts about the pattern *)

Lemma toLowerCase_app s1 s2 :
  toLowerCase (s1 +:+ s2) = toLowerCase s1 +:+ toLowerCase s2.
Proof. induction s1 as [|c s1 IH]; [done|]. simpl. by rewrite IH. Qed.

Lemma string_app_assoc (s1 s2 s3 : string) :
  s1 +:+ s2 +:+ s3 = (s1 +:+ s2) +:+ s3.
Proof.
  induction s1 as [|c s1 IH]; [done|].
  change (String c (s1 +:+ s2 +:+ s3) = String c ((s1 +:+ s2) +:+ s3)).
  by rewrite IH.
Qed.

Lemma split_prefix_ci_spec p s c r :
  split_prefix_ci p s = Some (c, r) →
  s = c +:+ r ∧ toLowerCase c = toLowerCase p.
Proof.
  revert s c r. induction p as [|a p IH]; intros s c r; simpl.
  - by intros [= <- <-].
  - destruct s as [|b s]; [done|].
    unfold char_eq_ci. destruct (Ascii.eqb_spec (lower_char a) (lower_char b)) as [E|]; [|done].
    destruct (split_prefix_ci p s) as [[c' r']|] eqn:Hs; simpl; [|done].
    intros [= <- <-]. destruct (IH _ _ _ Hs) as [-> Hc]. simpl. by rewrite Hc, E.
Qed.

(** Only [": "] is [": "] up to case. *)
Lemma split_colon s c r : split_prefix_ci ": " s = Some (c, r) → c = ": ".
Proof.
  destruct s as [|a [|b s]]; simpl; try done.
  - by destruct (char_eq_ci _ _).
  - destruct (char_eq_ci ":" a) eqn:Ha; [|done].
    destruct (char_eq_ci " " b) eqn:Hb; [|done].
    intros [= <- <-].
    assert (a = ":"%char) as ->.
    { destruct a as [[] [] [] [] [] [] [] []]; by vm_compute in Ha. }
    assert (b = " "%char) as ->.
    { destruct b as [[] [] [] [] [] [] [] []]; by vm_compute in Hb. }
    done.
Qed.

Lemma match_error_type_spec alternatives s name rest :
  match_error_type alternatives s = Some (name, rest) →
  s = name +:+ ": " +:+ rest ∧
  ∃ a, a ∈ alternatives ∧ toLowerCase name = toLowerCase (a +:+ "Error").
Proof.
  induction alternatives as [|a alternatives IH]; cbn [match_error_type]; [done|].
  assert (Hnext : match_error_type alternatives s = Some (name, rest) →
                  s = name +:+ ": " +:+ rest ∧
                  ∃ a0, a0 ∈ a :: alternatives ∧
                        toLowerCase name = toLowerCase (a0 +:+ "Error")).
  { intros H. destruct (IH H) as (? & a0 & ? & ?). split; [done|].
    exists a0. split; [by right|done]. }
  destruct (split_prefix_ci (a +:+ "Error") s) as [[n r]|] eqn:H1; [|exact Hnext].
  destruct (split_prefix_ci ": " r) as [[c r']|] eqn:H2; [|exact Hnext].
  intros [= <- <-].
  destruct (split_prefix_ci_spec _ _ _ _ H1) as [-> Hn].
  destruct (split_prefix_ci_spec _ _ _ _ H2) as [-> _].
  rewrite (split_colon _ _ _ H2). split; [done|].
  exists a. split; [by left|done].
Qed.

Lemma skip_uncaught_spec s :
  ∃ pre, s = pre +:+ skip_uncaught s ∧
         toLowerCase pre ∈ [""; "uncaught "; "uncaught exception: "].
Proof.
  unfold skip_uncaught.
  destruct (split_prefix_ci "uncaught " s) as [[c1 r1]|] eqn:H1.
  - destruct (split_prefix_ci_spec _ _ _ _ H1) as [-> E1].
    destruct (split_prefix_ci "exception: " r1) as [[c2 r2]|] eqn:H2.
    + destruct (split_prefix_ci_spec _ _ _ _ H2) as [-> E2].
      exists (c1 +:+ c2). split.
      * apply string_app_assoc.
      * rewrite toLowerCase_app, E1, E2. simpl. set_solver.
    + exists c1. split; [done|]. rewrite E1. simpl. set_solver.
  - exists "". split; [done|]. simpl. set_solver.
Qed.

(** The pattern matches exactly the messages without a line terminator.
    When it matches, nothing of the message is lost or changed: the
    message is an optional prefix (["uncaught "], ["uncaught exception: "]
    in some case), then the error type of group 1 with its [": "] when
    there is one, then group 2; and group 1 is one of the eight error
    type names, up to case. *)
Theorem ERROR_TYPES_RE_spec message :
  (has_line_terminator message = true → ERROR_TYPES_RE message = None) ∧
  (has_line_terminator message = false →
   ∃ name rest pre,
     ERROR_TYPES_RE message = Some (name, rest) ∧
     message = pre +:+ match name with Some n => n +:+ ": " | None => "" end +:+ rest ∧
     toLowerCase pre ∈ [""; "uncaught "; "uncaught exception: "] ∧
     ∀ n, name = Some n →
          ∃ a, a ∈ error_type_alternatives ∧
               toLowerCase n = toLowerCase (a +:+ "Error")).
Proof.
  unfold ERROR_TYPES_RE. split; intros ->; [done|].
  destruct (skip_uncaught_spec message) as (pre & Hm & Hpre).
  destruct (match_error_type error_type_alternatives (skip_uncaught message))
    as [[n rest]|] eqn:Ht.
  - destruct (match_error_type_spec _ _ _ _ Ht) as (Hs & a & Ha & Hn).
    exists (Some n), rest, pre. split; [done|]. split.
    { rewrite Hm at 1. rewrite Hs. by rewrite (string_app_assoc n). }
    split; [done|]. intros n' [= <-]. eauto.
  - exists None, (skip_uncaught message), pre. by repeat split.
Qed.

(** A message of the usual form, ["Uncaught <Type>Error: <text>"], is cut
    into its type and its text. *)
Theorem ERROR_TYPES_RE_uncaught a text :
  a ∈ error_type_alternatives →
  has_line_terminator text = false →
  ERROR_TYPES_RE ("Uncaught " +:+ a +:+ "Error: " +:+ text) =
    Some (Some (a +:+ "Error"), text) ∧
  ERROR_TYPES_RE (a +:+ "Error: " +:+ text) = Some (Some (a +:+ "Error"), text).
Proof.
  intros Ha Ht. unfold error_type_alternatives in Ha.
  repeat (apply elem_of_cons in Ha as [-> | Ha]);
    [..|by apply elem_of_nil in Ha];
    (split; revert Ht; vm_compute; intros ->; reflexivity).
Qed.

Lemma ERROR_TYPES_RE_uncaught_witness :
  ERROR_TYPES_RE ("Uncaught " +:+ "Type" +:+ "Error: " +:+ "x is undefined") =
    Some (Some ("Type" +:+ "Error"), "x is undefined") ∧
  ERROR_TYPES_RE ("Type" +:+ "Error: " +:+ "x is undefined") =
    Some (Some ("Type" +:+ "Error"), "x is undefined").
Proof.
  apply ERROR_TYPES_RE_uncaught; [|reflexivity].
  unfold error_type_alternatives. do 5 right. left.
Defined.

Example script_error_has_no_type :
  name_and_message (MsgString "Script error.") = (PUndefined, "Script error.").
Proof. reflexivity. Qed.

Example lower_case_type_is_kept_as_written :
  name_and_message (MsgString "uncaught exception: typeerror: a is null") =
  (PString "typeerror", "a is null").
Proof. reflexivity. Qed.

(** A line separator in the message: the pattern does not match. *)
Example line_separator_is_an_Error :
  let message := "TypeError: a" +:+ utf8 [226; 128; 168] +:+ "at b" in
  name_and_message (MsgString message) = (PString "Error", message).
Proof. reflexivity. Qed.

Example two_lines_are_an_Error :
  name_and_message (MsgErrorEvent ("TypeError: a" +:+ String "010" "at b")) =
  (PString "Error", "TypeError: a" +:+ String "010" "at b").
Proof. reflexivity. Qed.

(** ** Facts about the events *)

Lemma or_init_present h o k init m x :
  obj_at h o = Some m → m !! k = Some x → truthy x = true →
  or_init h o k init = Some (h, x).
Proof.
  intros Ho Hk T.
  destruct (or_init_spec h o k init m Ho) as [[_ E] | [F _]];
    unfold field in *; rewrite Hk in *; simpl in *; [done | congruence].
Qed.

Lemma or_init_index_present h a i init xs x :
  arr_at h a = Some xs → xs !! i = Some x → truthy x = true →
  or_init_index h a i init = Some (h, x).
Proof.
  intros Ha Hi T.
  destruct (or_init_index_spec h a i init xs Ha) as [[_ E] | [F _]];
    unfold elem in *; rewrite Hi in *; simpl in *; [done | congruence].
Qed.

Lemma or_init_absent (h : list object) l k init m :
  h !! l = Some (Obj m) → m !! k = None →
  or_init h (VRef l) k init =
  Some (<[l := Obj (<[k := VRef (length h)]> m)]> (h ++ [init]), VRef (length h)).
Proof.
  intros Hl Hk. unfold or_init, get_prop. rewrite Hl. simpl. rewrite Hk. simpl.
  unfold set_prop. by rewrite (lookup_app_l_Some _ _ _ _ Hl).
Qed.

Lemma insert_in_tail (h l t : list object) i o :
  <[(length h + i)%nat := o]> ((h ++ l) ++ t) = h ++ <[i := o]> (l ++ t).
Proof. by rewrite <- (assoc_L (++)), insert_app_r. Qed.

(** The event built for an exception, after the initial frame was added. *)
Definition framed_exception_event (n : nat) (type : prim) (value : string)
    (frame : object) : list object :=
  [ Obj (<["exception" := VRef (n + 1)]> ∅);
    Obj (<["values" := VRef (n + 2)]> ∅);
    Arr [VRef (n + 3)];
    Obj (<["stacktrace" := VRef (n + 4)]>
           (<["type" := VPrim type]> (<["value" := VPrim (PString value)]> ∅)));
    Obj (<["frames" := VRef (n + 5)]> ∅);
    Arr [VRef (n + 6)];
    frame ].

Lemma enhance_exception_event href (h : list object) type value url line column :
  _enhanceEventWithInitialFrame href (h ++ exception_event (length h) type value)
    (length h) url line column =
  Some (h ++ framed_exception_event (length h) type value
               (initial_frame (number_or_undefined column) (filename_of href url)
                  (number_or_undefined line)),
        length h).
Proof.
  set (n := length h). set (hb := h ++ exception_event n type value).
  assert (Hcell : ∀ i c, exception_event n type value !! i = Some c →
                         hb !! (n + i)%nat = Some c).
  { intros i c Hc. unfold hb, n. rewrite lookup_app_r by lia.
    by replace (length h + i - length h)%nat with i by lia. }
  assert (H0 : hb !! n = Some (Obj (<["exception" := VRef (n + 1)]> ∅))).
  { rewrite <- (Nat.add_0_r n) at 1. by apply Hcell. }
  pose proof (Hcell 1%nat _ eq_refl) as H1.
  pose proof (Hcell 2%nat _ eq_refl) as H2.
  pose proof (Hcell 3%nat _ eq_refl) as H3.
  assert (Hlen : length hb = (n + 4)%nat).
  { unfold hb. rewrite length_app. done. }
  rewrite enhance_unfold.
  rewrite (or_init_present hb (VRef n) "exception" (Obj ∅)
             (<["exception" := VRef (n + 1)]> ∅) (VRef (n + 1)));
    [|simpl; by rewrite H0|apply lookup_insert_eq|done].
  cbn [mbind option_bind]. unfold from_exception_bag.
  rewrite (or_init_present hb (VRef (n + 1)) "values" (Arr [])
             (<["values" := VRef (n + 2)]> ∅) (VRef (n + 2)));
    [|simpl; by rewrite H1|apply lookup_insert_eq|done].
  cbn [mbind option_bind]. unfold from_values.
  rewrite (or_init_index_present hb (VRef (n + 2)) 0 (Obj ∅)
             [VRef (n + 3)] (VRef (n + 3)));
    [|simpl; by rewrite H2|done|done].
  cbn [mbind option_bind]. unfold from_exception.
  rewrite (or_init_absent hb (n + 3) "stacktrace" (Obj ∅) _ H3); [|done].
  cbn [mbind option_bind]. unfold from_stacktrace.
  set (h4 := <[(n + 3)%nat := _]> (hb ++ [Obj ∅])).
  assert (H4 : h4 !! length hb = Some (Obj ∅)) by by eapply lookup_fresh.
  assert (Hlen4 : length h4 = (n + 5)%nat).
  { unfold h4. rewrite length_insert, length_app, Hlen. simpl. lia. }
  rewrite (or_init_absent h4 (length hb) "frames" (Arr []) _ H4); [|done].
  cbn [mbind option_bind]. unfold from_frames, arr_length.
  set (h5 := <[length hb := _]> (h4 ++ [Arr []])).
  assert (H5 : h5 !! length h4 = Some (Arr [])) by by eapply lookup_fresh.
  assert (Hlen5 : length h5 = (n + 6)%nat).
  { unfold h5. rewrite length_insert, length_app, Hlen4. simpl. lia. }
  rewrite H5. cbn [mbind option_bind length Nat.eqb alloc].
  unfold arr_push. rewrite (lookup_app_l_Some _ _ _ _ H5).
  cbn [mbind option_bind]. do 2 f_equal.
  rewrite Hlen5, Hlen4. unfold h5. rewrite Hlen4, Hlen. unfold h4. rewrite Hlen.
  unfold hb. subst n. by rewrite !insert_in_tail.
Qed.

(** [_eventFromIncompleteOnError] always returns.  It leaves the store it
    was given as it is and returns a new event
    [{ exception: { values: [{ type, value, stacktrace: { frames: [frame] } }] } }]
    with exactly one frame, the initial frame for url, line and column,
    where type and value are what the pattern reads in the message: the
    error type as written and the text after it; [undefined] and the text
    when the message names no error type; ['Error'] and the whole message
    when the message has a line terminator. *)
Theorem _eventFromIncompleteOnError_event href (h : list object) msg url line column :
  _eventFromIncompleteOnError href h msg url line column =
  Some (h ++ framed_exception_event (length h)
               (name_and_message msg).1 (name_and_message msg).2
               (initial_frame (number_or_undefined column) (filename_of href url)
                  (number_or_undefined line)),
        length h).
Proof.
  unfold _eventFromIncompleteOnError.
  destruct (name_and_message msg) as [name message]. apply enhance_exception_event.
Qed.

Example incomplete_onerror_event :
  _eventFromIncompleteOnError "http://localhost/" [] (MsgString "Uncaught RangeError: too deep")
    (PString "app.js") (PNumber (Fin 3)) PUndefined =
  Some (framed_exception_event 0 (PString "RangeError") "too deep"
          (initial_frame PUndefined "app.js" (PNumber (Fin 3))), 0%nat).
Proof. vm_compute. reflexivity. Qed.

(** ** Facts about [_getUnhandledRejectionError] *)

Lemma has_property_obj (h : list object) l m k :
  h !! l = Some (Obj m) →
  has_property h (VRef l) k = Some (Normal (bool_decide (is_Some (m !! k)))).
Proof. intros Hl. simpl. by rewrite Hl. Qed.

Lemma property_obj (h : list object) l m k :
  h !! l = Some (Obj m) → property h (VRef l) k = default (VPrim PUndefined) (m !! k).
Proof. intros Hl. unfold property. simpl. by rewrite Hl. Qed.


(** [_getUnhandledRejectionError] never throws: a [TypeError] raised while
    digging is swallowed.  A primitive comes back as it is, whatever
    [isPrimitive] says of it.  Of an object that is not primitive, the
    [reason] is returned when the object has one (it wins over
    [detail.reason]); else [detail.reason] when [detail] is an object that
    has one; and the object itself when its [detail] is a primitive, as
    the [null] of a plain [CustomEvent]. *)
Theorem _getUnhandledRejectionError_cases isPrimitive (h : list object) error :
  _getUnhandledRejectionError isPrimitive h error ≠ Some ThrowsTypeError ∧
  (∀ p, error = VPrim p →
        _getUnhandledRejectionError isPrimitive h error = Some (Normal error)) ∧
  (∀ l m, error = VRef l → h !! l = Some (Obj m) → isPrimitive error = false →
     (∀ r, m !! "reason" = Some r →
           _getUnhandledRejectionError isPrimitive h error = Some (Normal r)) ∧
     (∀ ld md r, m !! "reason" = None → m !! "detail" = Some (VRef ld) →
                 h !! ld = Some (Obj md) → md !! "reason" = Some r →
                 _getUnhandledRejectionError isPrimitive h error = Some (Normal r)) ∧
     (∀ d, m !! "reason" = None → m !! "detail" = Some (VPrim d) →
           _getUnhandledRejectionError isPrimitive h error = Some (Normal error))).
Proof.
  split; [|split].
  - unfold _getUnhandledRejectionError.
    destruct (isPrimitive error); [done|].
    destruct (dig_reason h error) as [[[v|]|]|]; done.
  - intros p ->. unfold _getUnhandledRejectionError.
    by destruct (isPrimitive (VPrim p)).
  - intros l m -> Hl Hnp. unfold _getUnhandledRejectionError, dig_reason.
    rewrite Hnp, !(has_property_obj h l m) by done. cbn [mbind option_bind].
    split; [|split].
    + intros r Hr. rewrite Hr. rewrite bool_decide_eq_true_2 by eauto.
      by rewrite (property_obj h l m), Hr.
    + intros ld md r Hr Hd Hld Hmr. rewrite Hr, Hd.
      rewrite bool_decide_eq_false_2 by by intros [? ?].
      rewrite bool_decide_eq_true_2 by eauto.
      rewrite (property_obj h l m), Hd by done. simpl default.
      rewrite (has_property_obj h ld md), Hmr by done. cbn [mbind option_bind].
      rewrite bool_decide_eq_true_2 by eauto.
      by rewrite (property_obj h ld md), Hmr.
    + intros d Hr Hd. rewrite Hr, Hd.
      rewrite bool_decide_eq_false_2 by by intros [? ?].
      rewrite bool_decide_eq_true_2 by eauto.
      by rewrite (property_obj h l m), Hd.
Qed.

(** A rejection event with reason 42, and a custom event without detail. *)
Example rejection_event_reason :
  _getUnhandledRejectionError (λ v, match v with VPrim _ => true | VRef _ => false end)
    [Obj (<["reason" := VPrim (PNumber (Fin 42))]> ∅)] (VRef 0)
  = Some (Normal (VPrim (PNumber (Fin 42)))).
Proof. vm_compute. reflexivity. Qed.

Example custom_event_null_detail :
  _getUnhandledRejectionError (λ v, match v with VPrim _ => true | VRef _ => false end)
    [Obj (<["detail" := VPrim PNull]> ∅)] (VRef 0)
  = Some (Normal (VRef 0)).
Proof. vm_compute. reflexivity. Qed.

End GlobalHandlersBuilders.

(* ===================================================================== *)
(** * [globalhandlers.ts]: the two callbacks that capture events          *)
(* ===================================================================== *)

Module GlobalHandlersCallbacks.
Import JS GlobalHandlersEvent GlobalHandlersEventFacts GlobalHandlersBuilders.

(** The hint passed to [hub.captureEvent]. *)
Record Mechanism : Type := { handled : bool; type : string }.
Record EventHint : Type := { originalException : value; mechanism : Mechanism }.

(** The current hub and its client, as the callbacks see them:
    [hub.getIntegration(GlobalHandlers)], [shouldIgnoreOnError()], the
    client option [attachStacktrace], the store that holds the events and
    the calls of [hub.captureEvent] made so far. *)
Record hub : Type := {
  has_GlobalHandlers : bool;
  ignoreOnError : bool;
  attachStacktrace : option bool;
  store : heap;
  captured : list (loc * EventHint);
}.

(** The data of an [onerror] call; url, line and column are primitives. *)
Record OnErrorData : Type := {
  msg : value;
  url : prim;
  line : prim;
  column : prim;
  error : value;
}.

Section Callbacks.

(** [getLocationHref()], [eventFromUnknownInput] of [../eventbuilder] with
    the client's stack parser, and [isPrimitive] of [@sentry/utils]. *)
Variable href : string.
Variable eventFromUnknownInput : heap → value → option bool → bool → option (heap * loc).
Variable isPrimitive : value → bool.

(** [event.level = 'error'; hub.captureEvent(event, hint)] *)
Definition capture_error (hb : hub) (h : heap) (event : loc) (hint : EventHint)
  : option hub :=
  h' ← set_prop h (VRef event) "level" (VPrim (PString "error"));
  Some {| has_GlobalHandlers := has_GlobalHandlers hb;
          ignoreOnError := ignoreOnError hb;
          attachStacktrace := attachStacktrace hb;
          store := h';
          captured := captured hb ++ [(event, hint)] |}.

(** The callback of [_installGlobalOnErrorHandler]. *)
Definition onerror_callback (data : OnErrorData) (hb : hub) : option hub :=
  if negb (has_GlobalHandlers hb) then Some hb
  else if ignoreOnError hb then Some hb
  else
    '(h, event) ←
      match error data, msg data with
      | VPrim PUndefined, VPrim (PString s) =>
          _eventFromIncompleteOnError href (store hb) (MsgString s)
            (url data) (line data) (column data)
      | _, _ =>
          '(h, event) ←
            eventFromUnknownInput (store hb)
              (if truthy (error data) then error data else msg data)
              (attachStacktrace hb) false;
          _enhanceEventWithInitialFrame href h event (url data) (line data) (column data)
      end;
    capture_error hb h event
      {| originalException := error data;
         mechanism := {| handled := false; type := "onerror" |} |}.

(** The callback of [_installGlobalOnUnhandledRejectionHandler], with the
    value it returns. *)
Definition onunhandledrejection_callback (e : value) (hb : hub)
  : option (hub * value) :=
  if negb (has_GlobalHandlers hb) then Some (hb, VPrim PUndefined)
  else if ignoreOnError hb then Some (hb, VPrim (PBool true))
  else
    c ← _getUnhandledRejectionError isPrimitive (store hb) e;
    match c with
    | ThrowsTypeError => None
    | Normal error =>
        '(h, event) ←
          (if isPrimitive error
           then match error with
                | VPrim p => Some (_eventFromRejectionWithPrimitive (store hb) p)
                | VRef _ => None
                end
           else eventFromUnknownInput (store hb) error (attachStacktrace hb) true);
        hb' ← capture_error hb h event
                {| originalException := error;
                   mechanism := {| handled := false; type := "onunhandledrejection" |} |};
        Some (hb', VPrim PUndefined)
    end.

(** ** Facts *)

Lemma set_level_new_event (h : list object) m cells :
  set_prop (h ++ Obj m :: cells) (VRef (length h)) "level" (VPrim (PString "error")) =
  Some (h ++ Obj (<["level" := VPrim (PString "error")]> m) :: cells).
Proof.
  unfold set_prop. rewrite list_lookup_middle by done. simpl. f_equal.
  rewrite <- (Nat.add_0_r (length h)) at 1. by rewrite insert_app_r.
Qed.

(** The hub after one [captureEvent] call with a new event made of
    [cells]. *)
Definition after_capture (hb : hub) (cells : list object) (hint : EventHint) : hub :=
  {| has_GlobalHandlers := true;
     ignoreOnError := false;
     attachStacktrace := attachStacktrace hb;
     store := store hb ++ cells;
     captured := captured hb ++ [(length (store hb), hint)] |}.

(** The event sent for an [onerror] call without an error object and with
    a string message. *)
Definition incomplete_error_event (n : nat) (data : OnErrorData) (s : string)
  : list object :=
  [ Obj (<["level" := VPrim (PString "error")]> (<["exception" := VRef (n + 1)]> ∅));
    Obj (<["values" := VRef (n + 2)]> ∅);
    Arr [VRef (n + 3)];
    Obj (<["stacktrace" := VRef (n + 4)]>
           (<["type" := VPrim (name_and_message (MsgString s)).1]>
              (<["value" := VPrim (PString (name_and_message (MsgString s)).2)]> ∅)));
    Obj (<["frames" := VRef (n + 5)]> ∅);
    Arr [VRef (n + 6)];
    initial_frame (number_or_undefined (column data)) (filename_of href (url data))
      (number_or_undefined (line data)) ].

(** The event sent for a rejection with a primitive reason. *)
Definition primitive_rejection_event (n : nat) (p : prim) : list object :=
  [ Obj (<["level" := VPrim (PString "error")]> (<["exception" := VRef (n + 1)]> ∅));
    Obj (<["values" := VRef (n + 2)]> ∅);
    Arr [VRef (n + 3)];
    Obj (<["type" := VPrim (PString "UnhandledRejection")]>
           (<["value" := VPrim (PString
                ("Non-Error promise rejection captured with value: " +:+ ToString p))]>
              ∅)) ].

(** The [onerror] callback captures nothing when the current hub has no
    [GlobalHandlers] integration or errors are being ignored.  Otherwise,
    for a call without an error object and with a string message, it makes
    exactly one [captureEvent] call, with a new event of level ['error']
    whose exception has the type and value read in the message and the one
    frame for url, line and column, and with the mechanism
    [{ handled: false, type: 'onerror' }]; the store it found is left as it
    is. *)
Theorem onerror_callback_incomplete data hb :
  (has_GlobalHandlers hb = false ∨ ignoreOnError hb = true →
   onerror_callback data hb = Some hb) ∧
  (∀ s, has_GlobalHandlers hb = true → ignoreOnError hb = false →
        error data = VPrim PUndefined → msg data = VPrim (PString s) →
        onerror_callback data hb =
        Some (after_capture hb (incomplete_error_event (length (store hb)) data s)
                {| originalException := VPrim PUndefined;
                   mechanism := {| handled := false; type := "onerror" |} |})).
Proof.
  split.
  - unfold onerror_callback. intros [-> | ->]; [done|]. by destruct (has_GlobalHandlers hb).
  - intros s Hg Hi He Hm. unfold onerror_callback. rewrite Hg, Hi, He, Hm. simpl negb.
    cbv iota. unfold _eventFromIncompleteOnError.
    destruct (name_and_message (MsgString s)) as [name message] eqn:Hnm.
    rewrite enhance_exception_event. cbn [mbind option_bind].
    unfold capture_error, framed_exception_event. rewrite set_level_new_event.
    cbn [mbind option_bind]. unfold after_capture, incomplete_error_event.
    by rewrite Hnm, Hg, Hi.
Qed.


End Callbacks.

(** ** A page with one rejected promise *)

Definition is_primitive (v : value) : bool :=
  match v with VPrim _ => true | VRef _ => false end.

Definition page_hub : hub :=
  {| has_GlobalHandlers := true; ignoreOnError := false; attachStacktrace := None;
     store := [Obj (<["reason" := VPrim (PNumber (Fin 42))]> ∅)];
     captured := [] |}.

Definition page_rejection :=
  onunhandledrejection_callback (λ _ _ _ _, None) is_primitive.


Example rejection_with_42 :
  page_rejection (VRef 0) page_hub =
  Some (after_capture page_hub (primitive_rejection_event 1 (PNumber (Fin 42)))
          {| originalException := VPrim (PNumber (Fin 42));
             mechanism := {| handled := false; type := "onunhandledrejection" |} |},
        VPrim PUndefined).
Proof. vm_compute. reflexivity. Qed.

Example onerror_script_error :
  onerror_callback "http://localhost/" (λ _ _ _ _, None)
    {| msg := VPrim (PString "Uncaught TypeError: x is undefined");
       url := PString "app.js"; line := PNumber (Fin 3); column := PNumber (Fin 14);
       error := VPrim PUndefined |} page_hub =
  Some (after_capture page_hub
          [ Obj (<["level" := VPrim (PString "error")]> (<["exception" := VRef 2]> ∅));
            Obj (<["values" := VRef 3]> ∅);
            Arr [VRef 4];
            Obj (<["stacktrace" := VRef 5]>
                   (<["type" := VPrim (PString "TypeError")]>
                      (<["value" := VPrim (PString "x is undefined")]> ∅)));
            Obj (<["frames" := VRef 6]> ∅);
            Arr [VRef 7];
            initial_frame (PNumber (Fin 14)) "app.js" (PNumber (Fin 3)) ]
          {| originalException := VPrim PUndefined;
             mechanism := {| handled := false; type := "onerror" |} |}).
Proof. vm_compute. reflexivity. Qed.

End GlobalHandlersCallbacks.

(* ===================================================================== *)
(** * [sdk.ts]: [init], session tracking and the report dialog            *)
(* ===================================================================== *)

Module Sdk.

(** ** [init] *)

Inductive Transport : Type :=
| UserTransport (id : nat)
| makeFetchTransport
| makeXHRTransport.

Section Init.

(** Integrations, stack parsers and the options that [init] only passes
    on ([dsn], [environment], ...). *)
Variables (Integrations StackParserOptions StackParser Rest : Type).

(** [BrowserOptions], with [None] for a property that is [undefined]. *)
Record BrowserOptions : Type := {
  defaultIntegrations : option Integrations;
  release : option string;
  autoSessionTracking : option bool;
  sendClientReports : option bool;
  transport : option Transport;
  stackParser : option StackParserOptions;
  rest : Rest;
}.

(** [BrowserClientOptions]: the options, with the three computed ones. *)
Record BrowserClientOptions : Type := {
  options : BrowserOptions;
  client_stackParser : StackParser;
  client_integrations : Integrations;
  client_transport : Transport;
}.

(** What [init] reads around it: the constant [__SENTRY_RELEASE__] when it
    is a string, [WINDOW.SENTRY_RELEASE] with its [id], [supportsFetch()],
    whether there is a [document], and whether the hub has
    [captureSession]. *)
Record Env : Type := {
  __SENTRY_RELEASE__ : option string;
  SENTRY_RELEASE : option (option string);
  supportsFetch : bool;
  has_document : bool;
  hub_has_captureSession : bool;
}.

(** What [init] does, in order. *)
Inductive action : Type :=
| InitAndBind (clientOptions : BrowserClientOptions)
| Warn (message : string)
| StartSession (ignoreDuration : bool)
| CaptureSession
| AddHistoryInstrumentationHandler.

(** The default integrations of this file and imports of [@sentry/core],
    [@sentry/utils] and [./stack-parsers]. *)
Variable the_defaultIntegrations : Integrations.
Variable defaultStackParser : StackParserOptions.
Variable stackParserFromStackParserOptions : StackParserOptions → StackParser.
Variable getIntegrationsToSetup : BrowserOptions → Integrations.
Variable DEBUG_BUILD : bool.

(** [WINDOW.SENTRY_RELEASE && WINDOW.SENTRY_RELEASE.id], when truthy. *)
Definition webpack_release (env : Env) : option string :=
  match SENTRY_RELEASE env with
  | Some (Some id) => if String.eqb id "" then None else Some id
  | _ => None
  end.

(** The assignments to [options] at the start of [init]. *)
Definition fill_defaults (env : Env) (o : BrowserOptions) : BrowserOptions :=
  {| defaultIntegrations :=
       match defaultIntegrations o with
       | None => Some the_defaultIntegrations
       | given => given
       end;
     release :=
       match release o with
       | None =>
           match webpack_release env with
           | Some id => Some id
           | None => __SENTRY_RELEASE__ env
           end
       | given => given
       end;
     autoSessionTracking :=
       match autoSessionTracking o with None => Some true | given => given end;
     sendClientReports :=
       match sendClientReports o with None => Some true | given => given end;
     transport := transport o;
     stackParser := stackParser o;
     rest := rest o |}.

Definition startSessionOnHub : list action := [StartSession true; CaptureSession].

Definition startSessionTracking (env : Env) : list action :=
  if negb (has_document env) then
    if DEBUG_BUILD
    then [Warn "Session tracking in non-browser environment with @sentry/browser is not supported."]
    else []
  else if negb (hub_has_captureSession env) then []
  else startSessionOnHub ++ [AddHistoryInstrumentationHandler].

(** [init(options)]: the options object afterwards, and what was done. *)
Definition init (env : Env) (o : BrowserOptions) : BrowserOptions * list action :=
  let o := fill_defaults env o in
  let clientOptions :=
    {| options := o;
       client_stackParser :=
         stackParserFromStackParserOptions (default defaultStackParser (stackParser o));
       client_integrations := getIntegrationsToSetup o;
       client_transport :=
         match transport o with
         | Some t => t
         | None => if supportsFetch env then makeFetchTransport else makeXHRTransport
         end |} in
  (o, InitAndBind clientOptions ::
      if default false (autoSessionTracking o) then startSessionTracking env else []).

(** ** The history handler of [startSessionTracking] *)

(** A navigation: [from] may be [undefined]. *)
Record Navigation : Type := { from : option string; to : string }.

Definition route_changed (n : Navigation) : bool :=
  match from n with
  | Some f => negb (String.eqb f (to n))
  | None => false
  end.

Definition history_handler (n : Navigation) : list action :=
  if route_changed n then startSessionOnHub else [].

(** Session tracking in a browser, followed by navigations: the calls
    made on the hub. *)
Definition tracked_sessions (navigations : list Navigation) : list action :=
  startSessionOnHub ++ navigations ≫= history_handler.

(** The actions on sessions and on the history. *)
Definition touches_sessions (a : action) : bool :=
  match a with
  | InitAndBind _ | Warn _ => false
  | StartSession _ | CaptureSession | AddHistoryInstrumentationHandler => true
  end.

(** ** Facts *)

(** [init] keeps whatever the caller set and fills in the rest: the
    default integrations, session tracking and client reports on.  A
    release that is not set is the [id] of [WINDOW.SENTRY_RELEASE] when
    that is there and not empty, else the build-time constant.  The
    transport is the caller's, else fetch where supported, else XHR.  The
    options object after [init] is a fixed point: a second [init] with it
    leaves it as it is. *)
Theorem init_fills_defaults env o :
  let o' := (init env o).1 in
  (∀ v, defaultIntegrations o = Some v → defaultIntegrations o' = Some v) ∧
  (∀ v, release o = Some v → release o' = Some v) ∧
  (∀ v, autoSessionTracking o = Some v → autoSessionTracking o' = Some v) ∧
  (∀ v, sendClientReports o = Some v → sendClientReports o' = Some v) ∧
  (defaultIntegrations o = None → defaultIntegrations o' = Some the_defaultIntegrations) ∧
  (autoSessionTracking o = None → autoSessionTracking o' = Some true) ∧
  (sendClientReports o = None → sendClientReports o' = Some true) ∧
  (release o = None →
   release o' = match webpack_release env with
                | Some id => Some id
                | None => __SENTRY_RELEASE__ env
                end) ∧
  (∃ c acts, (init env o).2 = InitAndBind c :: acts ∧ options c = o' ∧
             client_transport c =
               match transport o with
               | Some t => t
               | None => if supportsFetch env then makeFetchTransport else makeXHRTransport
               end) ∧
  (init env o').1 = o'.
Proof.
  intros o'. subst o'. unfold init. simpl.
  repeat split; try (by intros ? ->); try (by intros ->).
  - eexists _, _. by repeat split.
  - destruct o as [di rel ast scr tr sp rs]. unfold fill_defaults. simpl.
    destruct di, rel, ast, scr; simpl; try done;
      destruct (webpack_release env); simpl; try done;
      destruct (__SENTRY_RELEASE__ env); simpl; done.
Qed.

(** [init] starts a session exactly when [autoSessionTracking] is not set
    to [false], there is a [document] and the hub can capture sessions;
    it then starts one session, captures it, and registers the history
    handler.  Nothing else ever touches sessions. *)
Theorem init_session_tracking env o :
  let acts := (init env o).2 in
  let tracking := negb (bool_decide (autoSessionTracking o = Some false)) &&
                  has_document env && hub_has_captureSession env in
  filter (λ a, touches_sessions a = true) acts =
  if tracking
  then [StartSession true; CaptureSession; AddHistoryInstrumentationHandler]
  else [].
Proof.
  intros acts tracking. subst acts tracking. unfold init, startSessionTracking. simpl.
  rewrite filter_cons_False by done.
  destruct (autoSessionTracking o) as [[]|]; simpl; try done;
    destruct (has_document env), (hub_has_captureSession env), DEBUG_BUILD; done.
Qed.

(** With session tracking on, the hub sees one session for the page load
    and one more for each navigation that changes the route, never for a
    navigation without [from] or to the same route; and each session that
    is started is captured at once. *)
Theorem one_session_per_route_change navigations :
  tracked_sessions navigations =
  mjoin (replicate (1 + length (filter (λ n, route_changed n = true) navigations))
           [StartSession true; CaptureSession]).
Proof.
  unfold tracked_sessions. simpl. do 2 f_equal.
  induction navigations as [|n navigations IH]; [done|].
  change ((n :: navigations) ≫= history_handler)
    with (history_handler n ++ (navigations ≫= history_handler)).
  rewrite filter_cons. unfold history_handler at 1.
  destruct (route_changed n) eqn:E.
  - rewrite decide_True by done. simpl. by rewrite IH.
  - rewrite decide_False by done. simpl. by rewrite IH.
Qed.

End Init.

(** ** [showReportDialog] *)

Section Dialog.

(** DSNs, functions of the caller, and the world that [onClose] acts on. *)
Variables (Dsn Fn W : Type).

(** [ReportDialogOptions]; a user is a record of strings. *)
Record ReportDialogOptions : Type := {
  dsn : option Dsn;
  user : option (gmap string string);
  eventId : option string;
  onLoad : option Fn;
  onClose : option Fn;
}.

(** The page and the hub: [WINDOW.document] with its [head] and [body],
    the client's DSN, the user of the scope (when there is a scope), and
    [hub.lastEventId()]. *)
Record Page : Type := {
  document : bool;
  head : bool;
  body : bool;
  client_dsn : option Dsn;
  scope_user : option (gmap string string);
  lastEventId : option string;
}.

Inductive effect : Type :=
| LogError (message : string)
| AddMessageListener (onClose : Fn)
| AppendScript (src : string) (onload : option Fn).

Variable getReportDialogEndpoint : Dsn → ReportDialogOptions → string.
Variable DEBUG_BUILD : bool.

Definition debug_error (message : string) : list effect :=
  if DEBUG_BUILD then [LogError message] else [].

(** [{ ...scope.getUser(), ...options.user }] *)
Definition merge_user (of_scope : gmap string string) (given : option (gmap string string))
  : gmap string string :=
  default ∅ given ∪ of_scope.

(** [!options.eventId]: no id, or an empty one. *)
Definition no_event_id (o : ReportDialogOptions) : bool :=
  match eventId o with
  | Some id => String.eqb id ""
  | None => true
  end.

(** [showReportDialog(options, hub)]: the options object afterwards and
    the effects, in order. *)
Definition showReportDialog (page : Page) (o : ReportDialogOptions)
  : ReportDialogOptions * list effect :=
  if negb (document page) then
    (o, debug_error "Global document not defined in showReportDialog call")
  else
    match (match dsn o with Some d => Some d | None => client_dsn page end) with
    | None => (o, debug_error "DSN not configured for showReportDialog call")
    | Some d =>
        let o := {| dsn := dsn o;
                    user := match scope_user page with
                            | Some u => Some (merge_user u (user o))
                            | None => user o
                            end;
                    eventId := if no_event_id o then lastEventId page else eventId o;
                    onLoad := onLoad o;
                    onClose := onClose o |} in
        let src := getReportDialogEndpoint d o in
        (o,
         match onClose o with
         | Some f => [AddMessageListener f]
         | None => []
         end ++
         if head page || body page
         then [AppendScript src (onLoad o)]
         else debug_error "Not injecting report dialog. No injection point found in HTML")
    end.

(** ** The message listener of the dialog *)


(** The caller's [onClose]: the world afterwards, and whether it threw. *)
Variable run_onClose : W → W * bool.




(** ** Facts *)

Lemma debug_error_logs e message : e ∈ debug_error message → e = LogError message.
Proof.
  unfold debug_error. destruct DEBUG_BUILD.
  - by intros ->%list_elem_of_singleton.
  - by intros ?%elem_of_nil.
Qed.

Definition is_append (e : effect) : bool :=
  match e with AppendScript _ _ => true | _ => false end.

Lemma debug_error_no_append message :
  filter (λ e, is_append e = true) (debug_error message) = [].
Proof. unfold debug_error. by destruct DEBUG_BUILD. Qed.

(** [showReportDialog] does nothing without a document, or without a DSN
    in the options or on the client.  Otherwise it appends one script iff
    the page has a head or a body, and registers the message listener
    iff [onClose] is given, whether or not the script could be appended.
    In the user it sends, a field given in the options wins over the
    scope's, and the scope fills in the others. *)
Theorem showReportDialog_effects page o :
  let r := showReportDialog page o in
  let d := match dsn o with Some d => Some d | None => client_dsn page end in
  (document page = false ∨ d = None →
   r.1 = o ∧ ∀ e, e ∈ r.2 → ∃ m, e = LogError m) ∧
  (document page = true → is_Some d →
   (∀ f, AddMessageListener f ∈ r.2 ↔ onClose o = Some f) ∧
   ((∃ src l, AppendScript src l ∈ r.2) ↔ head page || body page = true) ∧
   (length (filter (λ e, is_append e = true) r.2)
     ≤ 1)%nat ∧
   ∀ u k, scope_user page = Some u →
          ∃ merged, user r.1 = Some merged ∧
                    merged !! k = match default ∅ (user o) !! k with
                                  | Some v => Some v
                                  | None => u !! k
                                  end).
Proof.
  intros r d. subst r d. unfold showReportDialog. split.
  - assert (∀ message e, e ∈ debug_error message → ∃ m, e = LogError m) as Hlog.
    { intros message e ->%debug_error_logs. eauto. }
    intros [-> | Hd]; cbn [negb].
    + split; [done|]. apply Hlog.
    + destruct (document page); cbn [negb].
      * rewrite Hd. split; [done|]. apply Hlog.
      * split; [done|]. apply Hlog.
  - intros -> [d Hd]. rewrite Hd. cbn [negb fst snd onClose onLoad].
    split; [|split; [|split]].
    + intros f. rewrite elem_of_app. split.
      * intros [H | H].
        -- destruct (onClose o) as [g|].
           ++ apply list_elem_of_singleton in H. congruence.
           ++ by apply elem_of_nil in H.
        -- destruct (head page || body page).
           ++ by apply list_elem_of_singleton in H.
           ++ by apply debug_error_logs in H.
      * intros ->. left. by apply list_elem_of_singleton.
    + split.
      * intros (src & l & [H | H]%elem_of_app).
        -- destruct (onClose o) as [g|].
           ++ by apply list_elem_of_singleton in H.
           ++ by apply elem_of_nil in H.
        -- destruct (head page || body page); [done|].
           by apply debug_error_logs in H.
      * intros ->. eexists _, _. apply elem_of_app. right.
        by apply list_elem_of_singleton.
    + rewrite filter_app, length_app.
      assert (∀ l : option Fn,
                 filter (λ e, is_append e = true)
                   match l with Some f => [AddMessageListener f] | None => [] end = [])
        as ->.
      { by intros [g|]. }
      destruct (head page || body page).
      * rewrite filter_cons_True by done. cbn. lia.
      * rewrite debug_error_no_append. cbn. lia.
    + intros u k Hu. rewrite Hu. cbn [user]. eexists. split; [done|]. unfold merge_user.
      rewrite lookup_union. by destruct (default ∅ (user o) !! k), (u !! k).
Qed.




End Dialog.


End Sdk.
